(** * The dispatching core: schedule builder, dispatch state, submission and
      file dispatch loops, finalizer.

    Shallow embedding of [al_core/dispatching/scheduler.py] and
    [al_core/dispatching/dispatcher.py].

    Conventions of the embedding:
    - Python [dict]s whose iteration order is visible (the stage dicts of a
      schedule, [pending_files], [outstanding], [file_parents]) are
      insertion-ordered association lists ([Dict]); stores that live in redis
      or in the datastore are [gmap]s; Python [set]s are [gset]s, iterated in
      the order of [elements].
    - Python integers and clock readings are [Z]. [time.time()] reads the
      clock of the world; the clock is moved by the environment, not by the
      dispatcher.
    - A raised exception is the result [None]; the effects of a call that
      raised are not observed. Loops that need not end take fuel, and
      running out of fuel is [None] as well.
    - Messages pushed to queues, records saved to the datastore, warnings and
      errors sent to the dispatcher's logger are appended to the world's
      [effects], as the records themselves ([as_primitives] and
      [json.dumps] are left out). Debug and info messages, and the warnings
      of the scheduler, are not recorded.
    - The dispatch table ([dispatch_hash.py]) is not among the sources; it is
      modelled from the specification.
    - [re.match] is a parameter of the development, a total test: a pattern
      that does not compile, on which Python raises [re.error], is outside
      the model. *)

From Stdlib Require Import ZArith Lia.
From stdpp Require Import gmap strings list fin_maps.
Local Open Scope Z_scope.
Set Warnings "-clear-no-such-hyp".

(** ** Insertion-ordered dictionaries *)

Module Dict.
Section defs.
Context {V : Type}.

(** [d.get(k)] *)
Fixpoint get (k : string) (d : list (string * V)) : option V :=
  match d with
  | [] => None
  | (k', v) :: r => if decide (k = k') then Some v else get k r
  end.

(** [d[k] = v]: an existing key keeps its position. *)
Fixpoint set (k : string) (v : V) (d : list (string * V)) : list (string * V) :=
  match d with
  | [] => [(k, v)]
  | (k', v') :: r =>
      if decide (k = k') then (k, v) :: r else (k', v') :: set k v r
  end.

Definition keys (d : list (string * V)) : list string := d.*1.
Definition values (d : list (string * V)) : list V := d.*2.

(** [d.update(e)] *)
Definition update (d e : list (string * V)) : list (string * V) :=
  foldl (λ acc kv, set kv.1 kv.2 acc) d e.

End defs.
End Dict.

(** ** Data model *)

Module Service.
Record t := mk {
  name : string;
  category : string;
  stage : string;
  accepts : string;
  rejects : string;
  timeout : Z;
  submission_params : list (string * string)   (* {name, default} *)
}.
End Service.

Module Params.
Record t := mk {
  selected : list string;           (* params.services.selected *)
  excluded : list string;           (* params.services.excluded *)
  service_spec : list (string * list (string * string));
  max_extracted : Z;
  ignore_filtering : bool;
  classification : nat;             (* a level of the classification lattice *)
  quota_item : bool;
  submitter : string;
  psid : option string
}.
End Params.

Module Submission.
Record t := mk {
  sid : string;
  files : list string;              (* the sha256 of each submitted file *)
  params : Params.t;
  expiry_ts : Z;
  classification : nat;
  error_count : Z;
  errors : list string;
  file_count : Z;
  results : list string;
  max_score : Z;
  state : string;
  times_completed : option Z
}.
End Submission.

(** ** Scheduler *)

Module Scheduler.

Record t := mk {
  services : gmap string Service.t;   (* the cached catalog, by name *)
  config_stages : list string         (* config.core.dispatcher.stages *)
}.

Definition system_category : string := "system".

(** [_get_services]: the catalog made of [items], the enabled services the
    search of the datastore returns; of two services of one name the later
    one stays. *)
Definition _get_services (items : list Service.t) : gmap string Service.t :=
  foldl (λ services ser, <[Service.name ser := ser]> services) ∅ items.

Section scheduler.
(** [re_match p s] says that Python's [re.match(p, s)] finds a match, that
    is, that pattern [p] matches a prefix of [s]. *)
Variable re_match : string → string → bool.

Definition stages (self : t) : list string := config_stages self.

(** [list.index]: position of the first occurrence, [None] for ValueError. *)
Fixpoint list_index (x : string) (l : list string) : option nat :=
  match l with
  | [] => None
  | y :: r => if decide (x = y) then Some 0%nat else S <$> list_index x r
  end.

Definition stage_index (self : t) (stage : string) : option nat :=
  list_index stage (stages self).

(** The members of a category come in the order in which the catalog is
    iterated; for the [gmap] that order is not the insertion order of the
    Python dict. *)
Definition categories (self : t) : gmap string (list string) :=
  foldl (λ all_categories service,
           match all_categories !! Service.category service with
           | Some l => <[Service.category service := l ++ [Service.name service]]> all_categories
           | None => <[Service.category service := [Service.name service]]> all_categories
           end)
        ∅ (map_to_list (services self)).*2.

(** The one-character strings of a string: what [set.update(name)] adds. *)
Fixpoint chars (s : string) : list string :=
  match s with
  | EmptyString => []
  | String c r => String c EmptyString :: chars r
  end.

(** The [while services] loop of [expand_categories]. The work list is kept
    with its last element first, since [pop()] takes from the end and
    [extend] appends there. Without fuel the loop has not finished. *)
Fixpoint expand_loop (fuel : nat) (categories : gmap string (list string))
    (services found_services : list string) (seen_categories : gset string)
    : option (list string) :=
  match services with
  | [] => Some found_services
  | name :: services =>
      match fuel with
      | O => None
      | S fuel =>
          match categories !! name with
          | Some members =>
              if decide (name ∈ seen_categories)
              then expand_loop fuel categories services found_services seen_categories
              else expand_loop fuel categories (rev members ++ services)
                     found_services (seen_categories ∪ list_to_set (chars name))
          | None =>
              expand_loop fuel categories services (found_services ++ [name])
                seen_categories
          end
      end
  end.

Definition expand_categories (self : t) (fuel : nat) (services : option (list string))
    : option (list string) :=
  match services with
  | None => Some []
  | Some services =>
      found_services ← expand_loop fuel (categories self) (rev services) [] ∅;
      Some (elements (list_to_set found_services : gset string))
  end.

(** The [for name in services] loop of [build_schedule]. The lists
    [selected] and [skipped] the loop fills are never read. *)
Fixpoint place_services (self : t) (file_type : string) (services : list string)
    (schedule : list (list (string * Service.t)))
    : option (list (list (string * Service.t))) :=
  match services with
  | [] => Some schedule
  | name :: services =>
      match Scheduler.services self !! name with
      | None => place_services self file_type services schedule
      | Some service =>
          let accepted :=
            bool_decide (Service.accepts service = "")
            || re_match (Service.accepts service) file_type in
          let rejected :=
            negb (bool_decide (Service.rejects service = ""))
            && re_match (Service.rejects service) file_type in
          if accepted && negb rejected then
            i ← stage_index self (Service.stage service);
            place_services self file_type services
              (alter (Dict.set name service) i schedule)
          else place_services self file_type services schedule
      end
  end.

Definition build_schedule (self : t) (fuel : nat) (submission : Submission.t)
    (file_type : string) : option (list (list (string * Service.t))) :=
  let all_services := services self in
  excluded ← expand_categories self fuel
                (Some (Params.excluded (Submission.params submission)));
  selected ←
    (match Params.selected (Submission.params submission) with
     | [] => Some (map_to_list all_services).*1
     | _ => expand_categories self fuel
              (Some (Params.selected (Submission.params submission)))
     end);
  let system_services :=
    (filter (λ kv, Service.category kv.2 = system_category)
            (map_to_list all_services)).*1 in
  let schedule := replicate (length (stages self)) [] in
  let services : gset string :=
    (list_to_set selected ∖ list_to_set excluded) ∪ list_to_set system_services in
  place_services self file_type (elements services) schedule.

End scheduler.
End Scheduler.

(** ** Messages and datastore records *)

Module FileInfo.
Record t := mk {
  magic : string;
  md5 : string;
  mime : string;
  sha1 : string;
  sha256 : string;
  size : Z;
  type : string
}.
End FileInfo.

Module FileTask.
Record t := mk {
  sid : string;
  parent_hash : option string;
  file_info : FileInfo.t;
  depth : Z;
  max_files : Z
}.

Definition set_depth (d : Z) (task : t) : t :=
  mk (sid task) (parent_hash task) (file_info task) d (max_files task).
End FileTask.

Module SubmissionTask.
Record t := mk {
  submission : Submission.t;
  completed_queue : string      (* the empty string when not set *)
}.
End SubmissionTask.

Module ServiceTask.
Record t := mk {
  sid : string;
  service_name : string;
  service_config : list (string * string);
  fileinfo : FileInfo.t;
  depth : Z;
  max_files : Z
}.
End ServiceTask.

(** A result record of the datastore, with the attributes the dispatcher
    reads: [response.extracted] (the sha256 of each extracted file),
    [result.score] and [classification]. *)
Module Result.
Record t := mk {
  extracted : list string;
  score : Z;
  classification : nat
}.
End Result.

(** Modelled from the spec: the entries of the dispatch table
    ([al_core/dispatching/dispatch_hash.py] is not part of the sources). A
    finish record holds a bucket, the key of the artifact, a score and the
    drop flag; an entry of the [error] bucket is marked [is_error]. *)
Module FinishRecord.
Record t := mk {
  bucket : string;
  key : string;
  score : Z;
  drop : bool
}.

Definition is_error (r : t) : bool := bool_decide (bucket r = "error").
End FinishRecord.

(** Modelled from the spec: the dispatch state of one submission
    ([DispatchHash], whose source file is missing). [schedules] is the
    per-file schedule cache with a write-if-absent [add] and an overwriting
    [set]; [dispatched] holds the time of the latest dispatch of a (file,
    service), 0 when there is none; [finished_rows] holds the finish records
    by file and service; [files] is the set of admitted files. *)
Module DispatchHash.
Record t := mk {
  schedules : gmap string (list (list string));
  dispatched : gmap (string * string) Z;
  finished_rows : gmap string (gmap string FinishRecord.t);
  files : gset string
}.

Definition empty : t := mk ∅ ∅ ∅ ∅.

Definition schedules_get (sha : string) (h : t) : option (list (list string)) :=
  schedules h !! sha.

Definition schedules_add (sha : string) (s : list (list string)) (h : t) : t :=
  match schedules h !! sha with
  | Some _ => h
  | None => mk (<[sha := s]> (schedules h)) (dispatched h) (finished_rows h) (files h)
  end.

Definition schedules_set (sha : string) (s : list (list string)) (h : t) : t :=
  mk (<[sha := s]> (schedules h)) (dispatched h) (finished_rows h) (files h).

Definition dispatch_time (sha service : string) (h : t) : Z :=
  default 0 (dispatched h !! (sha, service)).

Definition dispatch (sha service : string) (now : Z) (h : t) : t :=
  mk (schedules h) (<[(sha, service) := now]> (dispatched h)) (finished_rows h) (files h).

Definition finished (sha service : string) (h : t) : option FinishRecord.t :=
  finished_rows h !! sha ≫= (λ row, row !! service).

(** Written by the service worker, never by the dispatcher. *)
Definition finish (sha service : string) (r : FinishRecord.t) (h : t) : t :=
  mk (schedules h) (dispatched h)
     (<[sha := <[service := r]> (default ∅ (finished_rows h !! sha))]> (finished_rows h))
     (files h).

(** Admit [sha] while the submission is under its quota; true iff [sha] is
    admitted now or was admitted before. *)
Definition add_file (sha : string) (max_files : Z) (h : t) : bool * t :=
  if decide (sha ∈ files h) then (true, h)
  else if decide (Z.of_nat (size (files h)) < max_files)
       then (true, mk (schedules h) (dispatched h) (finished_rows h) ({[sha]} ∪ files h))
       else (false, h).

Definition all_results (h : t) : gmap string (gmap string FinishRecord.t) :=
  finished_rows h.

(** True iff every service of every stage of the cached schedule of every
    admitted file has a finish record. *)
Definition all_finished (h : t) : bool :=
  forallb (λ sha,
             forallb (λ stage,
                        forallb (λ service, bool_decide (is_Some (finished sha service h)))
                                stage)
                     (default [] (schedules h !! sha)))
          (elements (files h)).

End DispatchHash.

(** ** The world of a dispatcher worker *)

Inductive Effect :=
| LogWarning (what arg : string)
| LogError (what arg : string)
| TouchWatch (key : string) (timeout : Z) (queue : string)
| ClearWatch (key : string)
| QuotaAdd (submitter sid : string) (time : Z)
| QuotaPop (submitter sid : string)
| PushFile (task : FileTask.t)
| PushSubmission (sid : string)
| PushService (queue : string) (task : ServiceTask.t)
| PushCompleted (queue : string) (submission : Submission.t)
| PushStop (watcher : string)
| SaveSubmission (sid : string) (submission : Submission.t)
| SaveFilescore (file_hash : string) (psid : option string)
    (expiry_ts score errors : Z) (sid : string) (time : Z)
| DeleteTagSet (name : string)
| DeleteTagHash (name : string)
| DeleteWatcherList (name : string)
| IncrementFilesComplete.

Module World.
Record t := mk {
  now : Z;                                      (* time.time() *)
  active_tasks : gmap string SubmissionTask.t;  (* dispatch-active-tasks *)
  tables : gmap string DispatchHash.t;          (* dispatch state, by sid *)
  file_store : gmap string FileInfo.t;          (* datastore.file *)
  result_store : gmap string Result.t;          (* datastore.result *)
  watcher_lists : gmap string (list string);    (* dispatch-watcher-list-<sid> *)
  effects : list Effect                         (* oldest first *)
}.

Definition set_now (n : Z) (w : t) : t :=
  mk n (active_tasks w) (tables w) (file_store w) (result_store w)
     (watcher_lists w) (effects w).
Definition set_active_tasks (a : gmap string SubmissionTask.t) (w : t) : t :=
  mk (now w) a (tables w) (file_store w) (result_store w)
     (watcher_lists w) (effects w).
Definition set_tables (x : gmap string DispatchHash.t) (w : t) : t :=
  mk (now w) (active_tasks w) x (file_store w) (result_store w)
     (watcher_lists w) (effects w).
Definition set_result_store (x : gmap string Result.t) (w : t) : t :=
  mk (now w) (active_tasks w) (tables w) (file_store w) x
     (watcher_lists w) (effects w).
Definition set_watcher_lists (x : gmap string (list string)) (w : t) : t :=
  mk (now w) (active_tasks w) (tables w) (file_store w) (result_store w)
     x (effects w).
Definition set_effects (x : list Effect) (w : t) : t :=
  mk (now w) (active_tasks w) (tables w) (file_store w) (result_store w)
     (watcher_lists w) x.

(** [DispatchHash(sid, redis)]: the table is created on first use. *)
Definition table (sid : string) (w : t) : DispatchHash.t :=
  default DispatchHash.empty (tables w !! sid).
End World.

(** ** State and exception monad over the world *)

Definition M (A : Type) : Type := World.t → option (A * World.t).

Definition ret {A} (a : A) : M A := λ w, Some (a, w).
Definition bind {A B} (m : M A) (k : A → M B) : M B :=
  λ w, match m w with
       | Some (a, w') => k a w'
       | None => None
       end.
Definition raise {A} : M A := λ _, None.
Definition lift {A} (o : option A) : M A :=
  λ w, match o with Some a => Some (a, w) | None => None end.
Definition get_world : M World.t := λ w, Some (w, w).
Definition modify (f : World.t → World.t) : M unit := λ w, Some (tt, f w).
Definition emit (e : Effect) : M unit :=
  modify (λ w, World.set_effects (World.effects w ++ [e]) w).
Definition get_table (sid : string) : M DispatchHash.t :=
  λ w, Some (World.table sid w, w).
Definition put_table (sid : string) (h : DispatchHash.t) : M unit :=
  modify (λ w, World.set_tables (<[sid := h]> (World.tables w)) w).

Declare Scope m_scope.
Delimit Scope m_scope with M.
Notation "x ←← c ;; k" := (bind c (λ x, k))
  (at level 100, c at next level, right associativity) : m_scope.
Notation "c ;;; k" := (bind c (λ _, k))
  (at level 100, right associativity) : m_scope.
Local Open Scope m_scope.

(** [for x in l: body(x)] over a local state. *)
Fixpoint for_each {A S} (body : A → S → M S) (l : list A) (st : S) : M S :=
  match l with
  | [] => ret st
  | x :: r => st' ←← body x st;; for_each body r st'
  end.

(** ** Dispatcher *)

Definition FILE_QUEUE : string := "dispatch-file".
Definition SUBMISSION_QUEUE : string := "dispatch-submission".

Definition service_queue_name (service : string) : string :=
  "service-queue-" +:+ service.

Definition make_watcher_list_name (sid : string) : string :=
  "dispatch-watcher-list-" +:+ sid.

Definition get_tag_set_name (task : FileTask.t) : string :=
  FileTask.sid task +:+ "/" +:+ FileInfo.sha256 (FileTask.file_info task) +:+ "/tags".

Definition get_submission_tags_name (task : FileTask.t) : string :=
  "st/" +:+ default "None" (FileTask.parent_hash task) +:+ "/"
        +:+ FileInfo.sha256 (FileTask.file_info task).

Module Dispatcher.

Record t := mk {
  scheduler : Scheduler.t;
  config_timeout : Z;             (* config.core.dispatcher.timeout *)
  max_extraction_depth : Z        (* config.submission.max_extraction_depth *)
}.

(** The local variables of the walk of [dispatch_submission].
    [unchecked_files] is a stack: its head is the last element of the Python
    list, the one [pop()] takes. [schedule] is the part of the schedule of
    the file at hand that is still to be walked. *)
Record Walk := mkWalk {
  unchecked_files : list FileTask.t;
  encountered_files : gset string;
  pending_files : list (string * FileTask.t);
  file_parents : list (string * list string);
  max_score : option Z;
  result_classifications : list nat;
  schedule : list (list string)
}.

Definition set_unchecked_files (x : list FileTask.t) (st : Walk) : Walk :=
  mkWalk x (encountered_files st) (pending_files st) (file_parents st)
         (max_score st) (result_classifications st) (schedule st).
Definition set_pending (sha : string) (task : FileTask.t) (st : Walk) : Walk :=
  mkWalk (unchecked_files st) (encountered_files st)
         (Dict.set sha task (pending_files st)) (file_parents st)
         (max_score st) (result_classifications st) (schedule st).
Definition set_schedule (x : list (list string)) (st : Walk) : Walk :=
  mkWalk (unchecked_files st) (encountered_files st) (pending_files st)
         (file_parents st) (max_score st) (result_classifications st) x.
Definition collect (score : Z) (c12n : nat) (st : Walk) : Walk :=
  mkWalk (unchecked_files st) (encountered_files st) (pending_files st)
         (file_parents st)
         (Some (match max_score st with
                | None => score
                | Some m => Z.max m score
                end))
         (result_classifications st ++ [c12n]) (schedule st).

(** The local variables of the stage loop of [dispatch_file]. *)
Record Scan := mkScan {
  scan_schedule : list (list string);
  started_stages : list (list string);
  outstanding : list (string * option Service.t);
  score : Z;
  errors : Z
}.

(** [FileTask(dict(sid=..., file_info=dict(...file_data...), depth=...,
    max_files=...))] *)
Definition make_file_task (sid : string) (file_data : FileInfo.t) (depth max_files : Z)
    : FileTask.t :=
  FileTask.mk sid None
    (FileInfo.mk (FileInfo.magic file_data) (FileInfo.md5 file_data)
       (FileInfo.mime file_data) (FileInfo.sha1 file_data)
       (FileInfo.sha256 file_data) (FileInfo.size file_data)
       (FileInfo.type file_data))
    depth max_files.

Definition build_service_config (service : Service.t) (submission : Submission.t)
    : list (string * string) :=
  let params :=
    foldl (λ acc x, Dict.set x.1 x.2 acc) [] (Service.submission_params service) in
  match Dict.get (Service.name service)
          (Params.service_spec (Submission.params submission)) with
  | Some spec => Dict.update params spec
  | None => params
  end.

(** [file_depth] of [dispatch_submission]; without fuel the recursion limit
    is hit. [min] of no value at all raises. *)
Definition list_min (l : list Z) : option Z :=
  match l with
  | [] => None
  | x :: r => Some (foldl Z.min x r)
  end.

Fixpoint file_depth (fuel : nat) (file_parents : list (string * list string))
    (sha : string) : option Z :=
  match fuel with
  | O => None
  | S fuel =>
      match Dict.get sha file_parents with
      | None => Some 0
      | Some parents =>
          depths ← mapM (file_depth fuel file_parents) parents;
          m ← list_min depths;
          Some (m + 1)
      end
  end.

Section dispatcher.
Variable re_match : string → string → bool.
Variable self : t.

(** Build the schedule of a file once and cache it in the dispatch table. *)
Definition build_schedule (fuel : nat) (sid : string) (submission : Submission.t)
    (file_hash file_type : string) : M (list (list string)) :=
  dispatch_hash ←← get_table sid;;
  match DispatchHash.schedules_get file_hash dispatch_hash with
  | Some (stage :: rest) => ret (stage :: rest)
  | _ =>   (* [not cached_schedule]: nothing cached, or an empty list *)
      obj_schedule ←← lift (Scheduler.build_schedule re_match (scheduler self) fuel
                              submission file_type);;
      let cached_schedule := Dict.keys <$> obj_schedule in
      put_table sid (DispatchHash.schedules_add file_hash cached_schedule dispatch_hash);;;
      ret cached_schedule
  end.

(** *** Finalizer *)

(** The statuses of [all_results], row by row. *)
Definition statuses (all_results : gmap string (gmap string FinishRecord.t))
    : list FinishRecord.t :=
  mjoin ((λ row : gmap string FinishRecord.t, (map_to_list row).*2)
           <$> (map_to_list all_results).*2).

(** The loop that sorts the errors out of the results; the state is the pair
    of the lists [errors] and [results]. *)
Definition sort_status (status : FinishRecord.t) (acc : list string * list string)
    : M (list string * list string) :=
  if FinishRecord.is_error status then
    ret (acc.1 ++ [FinishRecord.key status], acc.2)
  else if bool_decide (FinishRecord.bucket status = "result") then
    ret (acc.1, acc.2 ++ [FinishRecord.key status])
  else
    emit (LogWarning "Unexpected service output bucket"
            (FinishRecord.bucket status +:+ "/" +:+ FinishRecord.key status));;;
    ret acc.

Definition finalize_submission (task : SubmissionTask.t)
    (result_classifications : list nat) (max_score : option Z) (file_count : Z)
    : M unit :=
  let submission := SubmissionTask.submission task in
  let sid := Submission.sid submission in
  let params := Submission.params submission in
  (if Params.quota_item params && negb (bool_decide (Params.submitter params = ""))
   then emit (QuotaPop (Params.submitter params) sid)
   else ret tt);;;
  let classification :=
    foldl Nat.max (Params.classification params) result_classifications in
  dispatch_table ←← get_table sid;;
  let all_results := DispatchHash.all_results dispatch_table in
  modify (λ w, World.set_tables (delete sid (World.tables w)) w);;;
  acc ←← for_each sort_status (statuses all_results) ([], []);;
  w ←← get_world;;
  let submission :=
    Submission.mk sid (Submission.files submission) params
      (Submission.expiry_ts submission)
      classification
      (Z.of_nat (length acc.1))
      acc.1
      file_count
      acc.2
      (default 0 max_score)      (* [max_score or 0] *)
      "completed"
      (Some (World.now w)) in
  emit (SaveSubmission sid submission);;;
  (if bool_decide (SubmissionTask.completed_queue task = "") then ret tt
   else emit (PushCompleted (SubmissionTask.completed_queue task) submission));;;
  for_each (λ w (_ : unit), emit (PushStop w))
    (default [] (World.watcher_lists w !! make_watcher_list_name sid)) tt;;;
  modify (λ w, World.set_watcher_lists
                 (delete (make_watcher_list_name sid) (World.watcher_lists w)) w);;;
  emit (DeleteWatcherList (make_watcher_list_name sid));;;
  emit (ClearWatch sid);;;
  modify (λ w, World.set_active_tasks (delete sid (World.active_tasks w)) w).

(** *** Submission dispatcher *)

(** [for sub_file in result.response.extracted] *)
Definition walk_extracted (file_store : gmap string FileInfo.t) (sid sha : string)
    (max_files : Z) (sub_file : string) (st : Walk) : Walk :=
  let file_parents :=
    Dict.set sub_file (default [] (Dict.get sub_file (file_parents st)) ++ [sha])
             (file_parents st) in
  if decide (sub_file ∈ encountered_files st) then
    mkWalk (unchecked_files st) (encountered_files st) (pending_files st)
           file_parents (max_score st) (result_classifications st) (schedule st)
  else
    let encountered_files := {[sub_file]} ∪ encountered_files st in
    match file_store !! sub_file with
    | None =>
        mkWalk (unchecked_files st) encountered_files (pending_files st)
               file_parents (max_score st) (result_classifications st) (schedule st)
    | Some file_data =>
        mkWalk (make_file_task sid file_data (-1) max_files :: unchecked_files st)
               encountered_files (pending_files st)
               file_parents (max_score st) (result_classifications st) (schedule st)
    end.

(** The body of [for service_name in stage]. *)
Definition walk_service (submission : Submission.t) (max_files : Z)
    (file_task : FileTask.t) (service_name : string) (st : Walk) : M Walk :=
  let sid := Submission.sid submission in
  let sha := FileInfo.sha256 (FileTask.file_info file_task) in
  w ←← get_world;;
  dispatch_table ←← get_table sid;;
  (* [service.timeout] raises when the catalog has no such service *)
  service ←← lift (Scheduler.services (scheduler self) !! service_name);;
  let runtime := World.now w - DispatchHash.dispatch_time sha service_name dispatch_table in
  if decide (runtime < Service.timeout service) then
    ret (set_pending sha file_task st)
  else
    match DispatchHash.finished sha service_name dispatch_table with
    | None => ret (set_pending sha file_task st)
    | Some result_row =>
        if FinishRecord.is_error result_row then ret st
        else
          let st :=
            if negb (Params.ignore_filtering (Submission.params submission))
               && FinishRecord.drop result_row
            then set_schedule [] st        (* schedule.clear() *)
            else st in
          match World.result_store w !! FinishRecord.key result_row with
          | None =>
              emit (LogError "Service responded to dispatcher with missing result"
                      (FinishRecord.key result_row));;;
              ret st
          | Some result =>
              let st :=
                foldl (λ st sub_file,
                         walk_extracted (World.file_store w) sid sha max_files sub_file st)
                      st (Result.extracted result) in
              ret (collect (Result.score result) (Result.classification result) st)
          end
    end.

(** [while schedule: stage = schedule.pop(0); for service_name in stage: ...].
    [stages] is the value of the variable [schedule] on entry; the body may
    clear the variable, which ends the loop after the stage at hand. *)
Fixpoint walk_schedule (submission : Submission.t) (max_files : Z)
    (file_task : FileTask.t) (stages : list (list string)) (st : Walk) : M Walk :=
  match stages with
  | [] => ret st
  | stage :: stages =>
      st ←← for_each (walk_service submission max_files file_task) stage
              (set_schedule stages st);;
      match schedule st with
      | [] => ret st
      | _ :: _ => walk_schedule submission max_files file_task stages st
      end
  end.

(** [while unchecked_files]; without fuel the loop has not finished. *)
Fixpoint walk (fuel : nat) (submission : Submission.t) (max_files : Z) (st : Walk)
    : M Walk :=
  match unchecked_files st with
  | [] => ret st
  | file_task :: unchecked_files =>
      match fuel with
      | O => raise
      | S fuel' =>
          let sha := FileInfo.sha256 (FileTask.file_info file_task) in
          schedule ←← build_schedule fuel (Submission.sid submission) submission sha
                        (FileInfo.type (FileTask.file_info file_task));;
          st ←← walk_schedule submission max_files file_task schedule
                  (set_unchecked_files unchecked_files st);;
          walk fuel' submission max_files st
      end
  end.

(** [for submission_file in submission.files]: the root files whose record
    exists, the last one on top of the stack. *)
Definition seed_file (sid : string) (max_files : Z) (submission_file : string)
    (unchecked_files : list FileTask.t) : M (list FileTask.t) :=
  w ←← get_world;;
  match World.file_store w !! submission_file with
  | None =>
      emit (LogError "Submission tried to process missing file" submission_file);;;
      ret unchecked_files
  | Some file_data =>
      ret (make_file_task sid file_data 0 max_files :: unchecked_files)
  end.

(** [file_task.depth = file_depth(file_task.file_info.sha256)] for every
    pending file. *)
Definition apply_depths (fuel : nat) (file_parents : list (string * list string))
    (pending_files : list (string * FileTask.t)) : option (list (string * FileTask.t)) :=
  mapM (λ kv : string * FileTask.t,
          d ← file_depth fuel file_parents (FileInfo.sha256 (FileTask.file_info kv.2));
          Some (kv.1, FileTask.set_depth d kv.2))
       pending_files.

(** [{sha: ft for sha, ft in pending_files.items()
       if dispatch_table.add_file(sha, max_files)}] *)
Fixpoint admit_files (sid : string) (max_files : Z)
    (pending_files : list (string * FileTask.t)) : M (list (string * FileTask.t)) :=
  match pending_files with
  | [] => ret []
  | (sha, ft) :: rest =>
      dispatch_table ←← get_table sid;;
      let (admitted, dispatch_table) := DispatchHash.add_file sha max_files dispatch_table in
      put_table sid dispatch_table;;;
      rest ←← admit_files sid max_files rest;;
      ret (if admitted : bool then (sha, ft) :: rest else rest)
  end.

(** The walk of [dispatch_submission], from its entry to the end of the
    [while unchecked_files] loop. *)
Definition walk_submission (fuel : nat) (task : SubmissionTask.t) : M Walk :=
  let submission := SubmissionTask.submission task in
  let sid := Submission.sid submission in
  let params := Submission.params submission in
  w ←← get_world;;
  (match World.active_tasks w !! sid with
   | None => modify (World.set_active_tasks (<[sid := task]> (World.active_tasks w)))
   | Some _ => ret tt
   end);;;
  emit (TouchWatch sid (config_timeout self) SUBMISSION_QUEUE);;;
  (if Params.quota_item params && negb (bool_decide (Params.submitter params = ""))
   then emit (QuotaAdd (Params.submitter params) sid (World.now w))
   else ret tt);;;
  let max_files := Z.of_nat (length (Submission.files submission))
                   + Params.max_extracted params in
  unchecked_files ←← for_each (seed_file sid max_files) (Submission.files submission) [];;
  walk fuel submission max_files
    (mkWalk unchecked_files (list_to_set (Submission.files submission)) [] [] None [] []).

Definition dispatch_submission (fuel : nat) (task : SubmissionTask.t) : M unit :=
  let submission := SubmissionTask.submission task in
  let sid := Submission.sid submission in
  let max_files := Z.of_nat (length (Submission.files submission))
                   + Params.max_extracted (Submission.params submission) in
  st ←← walk_submission fuel task;;
  let depth_limit := max_extraction_depth self in
  pending_files ←← lift (apply_depths fuel (file_parents st) (pending_files st));;
  let pending_files :=
    filter (λ kv, FileTask.depth kv.2 < depth_limit) pending_files in
  pending_files ←← admit_files sid max_files pending_files;;
  match pending_files with
  | _ :: _ =>
      for_each (λ file_task (_ : unit), emit (PushFile file_task))
        (Dict.values pending_files) tt
  | [] =>
      finalize_submission task (result_classifications st) (max_score st)
        (Z.of_nat (size (encountered_files st)))
  end.

(** *** File dispatcher *)

Definition set_outstanding (service_name : string) (service : option Service.t)
    (st : Scan) : Scan :=
  mkScan (scan_schedule st) (started_stages st)
         (Dict.set service_name service (outstanding st)) (score st) (errors st).
Definition count_error (st : Scan) : Scan :=
  mkScan (scan_schedule st) (started_stages st) (outstanding st) (score st)
         (errors st + 1).
Definition count_score (s : Z) (st : Scan) : Scan :=
  mkScan (scan_schedule st) (started_stages st) (outstanding st) (score st + s)
         (errors st).
Definition clear_schedule (st : Scan) : Scan :=
  mkScan [] (started_stages st) (outstanding st) (score st) (errors st).
Definition start_stage (stage : list string) (stages : list (list string))
    (st : Scan) : Scan :=
  mkScan stages (started_stages st ++ [stage]) (outstanding st) (score st) (errors st).

(** The body of [for service_name in stage] in the stage loop. *)
Definition scan_service (submission : Submission.t) (sid file_hash service_name : string)
    (st : Scan) : M Scan :=
  let service := Scheduler.services (scheduler self) !! service_name in
  dispatch_table ←← get_table sid;;
  match DispatchHash.finished file_hash service_name dispatch_table with
  | None => ret (set_outstanding service_name service st)
  | Some finished =>
      if FinishRecord.is_error finished then ret (count_error st)
      else
        let st := count_score (FinishRecord.score finished) st in
        if negb (Params.ignore_filtering (Submission.params submission))
           && FinishRecord.drop finished
        then
          let st := clear_schedule st in          (* schedule.clear() *)
          match scan_schedule st with             (* if schedule: *)
          | _ :: _ =>
              put_table sid
                (DispatchHash.schedules_set file_hash (started_stages st) dispatch_table);;;
              ret st
          | [] => ret st
          end
        else ret st
  end.

(** [while schedule and not outstanding: stage = schedule.pop(0); ...].
    [stages] is the value of the variable [schedule] on entry. *)
Fixpoint scan_stages (submission : Submission.t) (sid file_hash : string)
    (stages : list (list string)) (st : Scan) : M Scan :=
  match stages with
  | [] => ret st
  | stage :: stages =>
      match outstanding st with
      | _ :: _ => ret st
      | [] =>
          st ←← for_each (scan_service submission sid file_hash) stage
                  (start_stage stage stages st);;
          match scan_schedule st with
          | [] => ret st
          | _ :: _ => scan_stages submission sid file_hash stages st
          end
      end
  end.

(** The body of [for service_name, service in outstanding.items()]. *)
Definition dispatch_service (submission : Submission.t) (task : FileTask.t)
    (item : string * option Service.t) (_ : unit) : M unit :=
  let file_hash := FileInfo.sha256 (FileTask.file_info task) in
  let service_name := item.1 in
  w ←← get_world;;
  dispatch_table ←← get_table (FileTask.sid task);;
  let queued_time :=
    World.now w - DispatchHash.dispatch_time file_hash service_name dispatch_table in
  (* [service.timeout] raises when the catalog has no such service *)
  service ←← lift item.2;;
  if decide (queued_time < Service.timeout service) then ret tt
  else
    let config := build_service_config service submission in
    let service_task :=
      ServiceTask.mk (FileTask.sid task) service_name config
        (FileTask.file_info task) (FileTask.depth task) (FileTask.max_files task) in
    emit (PushService (service_queue_name service_name) service_task);;;
    w ←← get_world;;
    put_table (FileTask.sid task)
      (DispatchHash.dispatch file_hash service_name (World.now w) dispatch_table).

Definition dispatch_file (fuel : nat) (task : FileTask.t) : M unit :=
  let file_hash := FileInfo.sha256 (FileTask.file_info task) in
  w ←← get_world;;
  match World.active_tasks w !! FileTask.sid task with
  | None =>
      emit (LogWarning "Untracked submission is being processed" (FileTask.sid task))
  | Some submission_task =>
      let submission := SubmissionTask.submission submission_task in
      let now := World.now w in
      emit (TouchWatch (FileTask.sid task) (config_timeout self) SUBMISSION_QUEUE);;;
      schedule ←← build_schedule fuel (FileTask.sid task) submission file_hash
                    (FileInfo.type (FileTask.file_info task));;
      st ←← scan_stages submission (FileTask.sid task) file_hash schedule
              (mkScan schedule [] [] 0 0);;
      match outstanding st with
      | _ :: _ =>
          for_each (dispatch_service submission task) (outstanding st) tt
      | [] =>
          (* the key [create_filescore_key(file_hash)] is left to the datastore *)
          emit (SaveFilescore file_hash
                  (match Params.psid (Submission.params submission) with
                   | Some "" | None => None
                   | Some psid => Some psid
                   end)
                  (Submission.expiry_ts submission) (score st) (errors st)
                  (Submission.sid submission) now);;;
          emit (DeleteTagSet (get_tag_set_name task));;;
          emit (DeleteTagHash (get_submission_tags_name task));;;
          emit IncrementFilesComplete;;;
          dispatch_table ←← get_table (FileTask.sid task);;
          if DispatchHash.all_finished dispatch_table
          then emit (PushSubmission (Submission.sid submission))
          else ret tt
      end
  end.

End dispatcher.
End Dispatcher.

(** * Environment and scenarios *)

(** ** The environment of the dispatcher *)

(** Modelled from the spec: a service worker finishes a (file, service). It
    writes the finish record into the dispatch table ([finish] of the
    dispatch state, whose source is missing) and saves the result record, if
    there is one, under the key of the finish record. *)
Definition service_finish (sid sha service : string) (record : FinishRecord.t)
    (result : option Result.t) (w : World.t) : World.t :=
  let w := World.set_tables
             (<[sid := DispatchHash.finish sha service record (World.table sid w)]>
                (World.tables w)) w in
  match result with
  | Some r => World.set_result_store (<[FinishRecord.key record := r]> (World.result_store w)) w
  | None => w
  end.

(** The world after a call; a call that raises leaves the world as it was. *)
Definition run (m : M unit) (w : World.t) : World.t :=
  match m w with Some (_, w') => w' | None => w end.

(** Python's [re.match] on the patterns of the scenarios: [.*] matches every
    file type, any other pattern is literal text. *)
Definition literal_match (p s : string) : bool :=
  bool_decide (p = ".*") || String.prefix p s.

(** ** Scenarios *)

(** Two services in two stages, both accepting every file type, with a
    dispatch window of 60; one submission [S1] with the root file [A] and
    [max_extracted = 2]. *)
Definition sv1 := Service.mk "sv1" "static" "s1" ".*" "" 60 [].
Definition sv2 := Service.mk "sv2" "static" "s2" ".*" "" 60 [].
Definition scheduler1 := Scheduler.mk (<["sv1" := sv1]> ∅) ["s1"].
Definition scheduler2 := Scheduler.mk (<["sv1" := sv1]> (<["sv2" := sv2]> ∅)) ["s1"; "s2"].
Definition dispatcher1 := Dispatcher.mk scheduler1 600 6.
Definition dispatcher2 := Dispatcher.mk scheduler2 600 6.
Definition file_record (sha : string) := FileInfo.mk "" "" "" "" sha 1 "text".
Definition params2 := Params.mk [] [] [] 2 false 0%nat false "" None.
Definition submission1 := Submission.mk "S1" ["A"] params2 0 0%nat 0 [] 0 [] 0 "submitted" None.
Definition task1 := SubmissionTask.mk submission1 "".
Definition file_task (sha : string) (depth : Z) :=
  Dispatcher.make_file_task "S1" (file_record sha) depth 3.
Definition walk0 : Dispatcher.Walk := Dispatcher.mkWalk [] ∅ [] [] None [] [].

(** Extraction budget. The root and five files [c1] .. [c5] have a file
    record. The submission is dispatched, [A] is dispatched to [sv1], [sv1]
    finishes with a result that extracts the five files, and time passes
    ([budget3]); the next submission pass admits extracted files
    ([budget5]); the admitted files are dispatched and finish ([budget7]);
    the last submission pass finalizes ([budget8]). *)
Definition budget_store : gmap string FileInfo.t :=
  list_to_map ((λ sha, (sha, file_record sha)) <$> ["A"; "c1"; "c2"; "c3"; "c4"; "c5"]).
Definition budget0 := World.mk 1000 ∅ ∅ budget_store ∅ ∅ [].
Definition budget1 := run (Dispatcher.dispatch_submission literal_match dispatcher1 10 task1) budget0.
Definition budget2 := run (Dispatcher.dispatch_file literal_match dispatcher1 10 (file_task "A" 0)) budget1.
Definition budget3 :=
  World.set_now 2000
    (service_finish "S1" "A" "sv1" (FinishRecord.mk "result" "kA" 10 false)
       (Some (Result.mk ["c1"; "c2"; "c3"; "c4"; "c5"] 10 0%nat)) budget2).
Definition budget4 := run (Dispatcher.dispatch_file literal_match dispatcher1 10 (file_task "A" 0)) budget3.
Definition budget5 := run (Dispatcher.dispatch_submission literal_match dispatcher1 10 task1) budget4.
Definition budget6 :=
  run (Dispatcher.dispatch_file literal_match dispatcher1 10 (file_task "c4" 1))
    (run (Dispatcher.dispatch_file literal_match dispatcher1 10 (file_task "c5" 1)) budget5).
Definition budget7 :=
  World.set_now 3000
    (service_finish "S1" "c4" "sv1" (FinishRecord.mk "result" "k4" 0 false)
       (Some (Result.mk [] 0 0%nat))
       (service_finish "S1" "c5" "sv1" (FinishRecord.mk "result" "k5" 0 false)
          (Some (Result.mk [] 0 0%nat)) budget6)).
Definition budget8 := run (Dispatcher.dispatch_submission literal_match dispatcher1 10 task1) budget7.

(** A second call of the file dispatcher 30 seconds after the first. *)
Definition window1 :=
  run (Dispatcher.dispatch_file literal_match dispatcher1 10 (file_task "A" 0))
    (World.set_now 1030 budget2).

(** [sv1] has finished [A] while its dispatch window is still open. *)
Definition window_world :=
  service_finish "S1" "A" "sv1" (FinishRecord.mk "result" "kA" 10 false)
    (Some (Result.mk [] 10 0%nat)) budget2.
Definition window_after :=
  run (Dispatcher.dispatch_submission literal_match dispatcher1 10 task1) window_world.

(** An empty list is cached as the schedule of [A]: it is what
    [build_schedule] computes and stores while no stage is configured. *)
Definition dispatcher0 := Dispatcher.mk (Scheduler.mk ∅ []) 600 6.
Definition empty_cache_world :=
  match Dispatcher.build_schedule literal_match dispatcher0 10 "S1" submission1 "A" "text"
          budget0 with
  | Some (_, w) => w
  | None => budget0
  end.

(** Filtering. With the two-stage catalog, [sv1] finishes [A] with
    [drop = true] ([drop3]), and the file is dispatched again ([drop4]). *)
Definition drop0 := World.mk 1000 ∅ ∅ budget_store ∅ ∅ [].
Definition drop1 := run (Dispatcher.dispatch_submission literal_match dispatcher2 10 task1) drop0.
Definition drop2 := run (Dispatcher.dispatch_file literal_match dispatcher2 10 (file_task "A" 0)) drop1.
Definition drop3 :=
  World.set_now 2000
    (service_finish "S1" "A" "sv1" (FinishRecord.mk "result" "kA" 10 true)
       (Some (Result.mk [] 10 0%nat)) drop2).
Definition drop4 := run (Dispatcher.dispatch_file literal_match dispatcher2 10 (file_task "A" 0)) drop3.

(** No record of the root file in the datastore. *)
Definition missing0 := World.mk 1000 ∅ ∅ ∅ ∅ ∅ [].

(** A catalog with a category whose one-character name, [a], occurs in the
    name of another category, [av]. *)
Definition sv_a := Service.mk "x1" "a" "s1" ".*" "" 60 [].
Definition sv_av := Service.mk "x2" "av" "s1" ".*" "" 60 [].
Definition scheduler_shadow := Scheduler.mk (Scheduler._get_services [sv_a; sv_av]) ["s1"].

(** A service named like its own category. *)
Definition sv_loop := Service.mk "loop" "loop" "s1" ".*" "" 60 [].
Definition scheduler_loop := Scheduler.mk (Scheduler._get_services [sv_loop]) ["s1"].

(** A system service whose stage is not among the configured ones. *)
Definition sv_sys := Service.mk "sys" "system" "s9" "" "" 60 [].
Definition scheduler_sys := Scheduler.mk (Scheduler._get_services [sv_sys]) ["s1"].

(** The submission finalized right after its first pass. *)
Definition finalized1 := run (Dispatcher.finalize_submission task1 [] None 1) budget1.

(** A parent map with two files extracted from each other, and one with a
    single edge. *)
Definition parents_cycle : list (string * list string) := [("A", ["B"]); ("B", ["A"])].
Definition parents_chain : list (string * list string) := [("B", ["A"])].

(** Stage by stage. With the two-stage catalog, [sv1] finishes [A] without
    [drop] ([order3]), and the file is dispatched again ([order4]). *)
Definition order3 :=
  World.set_now 2000
    (service_finish "S1" "A" "sv1" (FinishRecord.mk "result" "kA" 10 false)
       (Some (Result.mk [] 10 0%nat)) drop2).
Definition order4 := run (Dispatcher.dispatch_file literal_match dispatcher2 10 (file_task "A" 0)) order3.

(** The submission [S1] with a selection and an exclusion of services. *)
Definition submission_with (selected excluded : list string) :=
  Submission.mk "S1" ["A"] (Params.mk selected excluded [] 2 false 0%nat false "" None)
    0 0%nat 0 [] 0 [] 0 "submitted" None.

(** Finish records of the three kinds the finalizer tells apart: a result and
    an error for [A], and a record of the bucket [other] for [B]. *)
Definition partition0 :=
  service_finish "S1" "B" "sv1" (FinishRecord.mk "other" "kO" 0 false) None
    (service_finish "S1" "A" "sv2" (FinishRecord.mk "error" "kE" 0 false) None
       (service_finish "S1" "A" "sv1" (FinishRecord.mk "result" "kR" 10 false)
          (Some (Result.mk [] 10 0%nat)) budget2)).

(** Two services in one stage; the first dispatch of [A] ([pair2]). *)
Definition sv3 := Service.mk "sv3" "static" "s1" ".*" "" 60 [].
Definition scheduler_pair := Scheduler.mk (Scheduler._get_services [sv1; sv3]) ["s1"].
Definition dispatcher_pair := Dispatcher.mk scheduler_pair 600 6.
Definition pair1 := run (Dispatcher.dispatch_submission literal_match dispatcher_pair 10 task1) budget0.
Definition pair2 := run (Dispatcher.dispatch_file literal_match dispatcher_pair 10 (file_task "A" 0)) pair1.

(** A submission that counts toward the quota of the submitter [user], and
    its first pass ([quota1]). *)
Definition params_quota := Params.mk [] [] [] 2 false 0%nat true "user" None.
Definition task_quota :=
  SubmissionTask.mk
    (Submission.mk "S1" ["A"] params_quota 0 0%nat 0 [] 0 [] 0 "submitted" None) "".
Definition quota1 := run (Dispatcher.dispatch_submission literal_match dispatcher1 10 task_quota) budget0.

(** A submission whose parameters carry the classification 1. *)
Definition params_classified := Params.mk [] [] [] 2 false 1%nat false "" None.
Definition task_classified :=
  SubmissionTask.mk
    (Submission.mk "S1" ["A"] params_classified 0 0%nat 0 [] 0 [] 0 "submitted" None) "".

(** * Properties *)

(** ** Vocabulary of the statements *)

(** A service name is scheduled when some stage of the schedule holds it. *)
Definition scheduled (name : string) (schedule : list (list (string * Service.t))) : Prop :=
  ∃ stage, stage ∈ schedule ∧ name ∈ Dict.keys stage.

(** The effects a run from [w] to [w'] has added. *)
Definition emitted (w w' : World.t) : list Effect :=
  drop (length (World.effects w)) (World.effects w').

(** The submissions saved to the datastore, oldest first. *)
Definition saved_of (es : list Effect) : list (string * Submission.t) :=
  omap (λ e, match e with SaveSubmission sid s => Some (sid, s) | _ => None end) es.

(** The file tasks pushed to the file queue, oldest first. *)
Definition files_pushed (es : list Effect) : list FileTask.t :=
  omap (λ e, match e with PushFile task => Some task | _ => None end) es.

(** The service tasks pushed to the service queues, oldest first. *)
Definition tasks_pushed (es : list Effect) : list ServiceTask.t :=
  omap (λ e, match e with PushService _ task => Some task | _ => None end) es.

(** The number of tasks pushed for one service. *)
Definition pushes (service_name : string) (es : list Effect) : nat :=
  length (filter (λ task, ServiceTask.service_name task = service_name) (tasks_pushed es)).

(** The service queues tasks are pushed to, oldest first. *)
Definition queues_pushed (es : list Effect) : list string :=
  omap (λ e, match e with PushService queue _ => Some queue | _ => None end) es.

(** [rows] lists the finish records of the dispatch table, the record of each
    (file, service) that has one exactly once. *)
Definition finish_records (h : DispatchHash.t) (rows : list FinishRecord.t) : Prop :=
  ∃ entries : list (string * string),
    NoDup entries ∧
    (∀ sha service, (sha, service) ∈ entries ↔ is_Some (DispatchHash.finished sha service h)) ∧
    Forall2 (λ e r, DispatchHash.finished e.1 e.2 h = Some r) entries rows.

(** The three kinds of finish records the finalizer tells apart. *)
Definition is_result (r : FinishRecord.t) : bool :=
  negb (FinishRecord.is_error r) && bool_decide (FinishRecord.bucket r = "result").
Definition is_anomaly (r : FinishRecord.t) : bool :=
  negb (FinishRecord.is_error r) && negb (bool_decide (FinishRecord.bucket r = "result")).
Definition bucket_warning (r : FinishRecord.t) : Effect :=
  LogWarning "Unexpected service output bucket"
    (FinishRecord.bucket r +:+ "/" +:+ FinishRecord.key r).

(** A path of [n] parent edges from a file up to a file without recorded
    parents. *)
Inductive parent_path (file_parents : list (string * list string))
    : string → nat → Prop :=
| path_root sha :
    Dict.get sha file_parents = None → parent_path file_parents sha 0
| path_step sha parents parent n :
    Dict.get sha file_parents = Some parents → parent ∈ parents →
    parent_path file_parents parent n →
    parent_path file_parents sha (S n).

(** A relation between the world before and the world after that every run
    of a computation satisfies. *)
Definition respects {A} (R : relation World.t) (m : M A) : Prop :=
  ∀ w a w', m w = Some (a, w') → R w w'.

(** Every run only adds effects, all of them satisfying [P]. *)
Definition emits (P : Effect → Prop) : relation World.t :=
  λ w w', ∃ es, World.effects w' = World.effects w ++ es ∧ Forall P es.

(** Effects that push no task and save no submission. *)
Definition quiet (e : Effect) : Prop :=
  match e with
  | PushFile _ | PushService _ _ | SaveSubmission _ _ => False
  | _ => True
  end.

(** The parts of the world most runs leave alone: the clock, the datastore
    and the watcher lists. *)
Definition frame : relation World.t :=
  λ w w',
    World.now w' = World.now w ∧
    World.file_store w' = World.file_store w ∧
    World.result_store w' = World.result_store w ∧
    World.watcher_lists w' = World.watcher_lists w.

(** Every cached schedule is still there, unchanged. *)
Definition cache_kept : relation World.t :=
  λ w w', ∀ sid sha s,
    DispatchHash.schedules (World.table sid w) !! sha = Some s →
    DispatchHash.schedules (World.table sid w') !! sha = Some s.

(** The dispatch tables are untouched. *)
Definition tables_kept : relation World.t :=
  λ w w', World.tables w' = World.tables w.

(** The submission record the finalizer writes. *)
Definition finalized (task : SubmissionTask.t) (result_classifications : list nat)
    (max_score : option Z) (file_count : Z) (w : World.t) : Submission.t :=
  let submission := SubmissionTask.submission task in
  let rows := Dispatcher.statuses
                (DispatchHash.all_results (World.table (Submission.sid submission) w)) in
  let errors := FinishRecord.key <$> filter (λ r, FinishRecord.is_error r = true) rows in
  Submission.mk (Submission.sid submission) (Submission.files submission)
    (Submission.params submission) (Submission.expiry_ts submission)
    (foldl Nat.max (Params.classification (Submission.params submission))
       result_classifications)
    (Z.of_nat (length errors)) errors file_count
    (FinishRecord.key <$> filter (λ r, is_result r = true) rows)
    (default 0 max_score) "completed" (Some (World.now w)).

(** A service accepts a file type when its [accepts] is empty or matches; it
    rejects it when its [rejects] is not empty and matches. *)
Definition accepted (re_match : string → string → bool) (service : Service.t)
    (file_type : string) : Prop :=
  Service.accepts service = "" ∨ re_match (Service.accepts service) file_type = true.
Definition rejected (re_match : string → string → bool) (service : Service.t)
    (file_type : string) : Prop :=
  Service.rejects service ≠ "" ∧ re_match (Service.rejects service) file_type = true.

(** The entries of [outstanding] have distinct names, hold the catalog's
    descriptor of the service and name services without a finish record. *)
Definition outstanding_ok (self : Dispatcher.t) (file_hash : string) (h : DispatchHash.t)
    (o : list (string * option Service.t)) : Prop :=
  NoDup (Dict.keys o) ∧
  ∀ n v, (n, v) ∈ o →
    v = Scheduler.services (Dispatcher.scheduler self) !! n ∧
    DispatchHash.finished file_hash n h = None.

(** Every service of the stage has a finish record. *)
Definition stage_finished (file_hash : string) (h : DispatchHash.t) (stage : list string)
    : Prop :=
  Forall (λ n, is_Some (DispatchHash.finished file_hash n h)) stage.

(** The dispatch window of an outstanding service has elapsed. *)
Definition due (task : FileTask.t) (now : Z) (h : DispatchHash.t)
    (item : string * option Service.t) : Prop :=
  match item.2 with
  | Some service =>
      Service.timeout service
      ≤ now - DispatchHash.dispatch_time (FileInfo.sha256 (FileTask.file_info task)) item.1 h
  | None => False
  end.

(** The service task [dispatch_file] builds for an outstanding service, the
    push of it, and the stamp of its dispatch time. *)
Definition service_task_of (submission : Submission.t) (task : FileTask.t)
    (item : string * option Service.t) : option ServiceTask.t :=
  service ← item.2;
  Some (ServiceTask.mk (FileTask.sid task) item.1
          (Dispatcher.build_service_config service submission)
          (FileTask.file_info task) (FileTask.depth task) (FileTask.max_files task)).

Definition push_of (submission : Submission.t) (task : FileTask.t)
    (item : string * option Service.t) : option Effect :=
  PushService (service_queue_name item.1) <$> service_task_of submission task item.

Definition mark (task : FileTask.t) (now : Z) (h : DispatchHash.t)
    (item : string * option Service.t) : DispatchHash.t :=
  DispatchHash.dispatch (FileInfo.sha256 (FileTask.file_info task)) item.1 now h.

(** The iterations [expand_categories] needs for a work list: one for each
    name, and one more for each member of a name that is a category. *)
Definition expand_cost (categories : gmap string (list string)) (services : list string)
    : nat :=
  sum_list_with (λ name, S (length (default [] (categories !! name)))) services.

(** The names of the services of a category, in the order of the values of
    the catalog. *)
Definition members_of (c : string) (values : list Service.t) : list string :=
  Service.name <$> filter (λ v, Service.category v = c) values.

(** What the expansion of [names] is to hold: the given names that are not
    categories, and the members of the given categories. *)
Definition expanded (categories : gmap string (list string)) (names : list string)
    (n : string) : Prop :=
  categories !! n = None ∧
  (n ∈ names ∨ ∃ c members, c ∈ names ∧ categories !! c = Some members ∧ n ∈ members).

(** No service of the catalog is named like a category. *)
Definition names_plain (self : Scheduler.t) : Prop :=
  ∀ name service name' service',
    Scheduler.services self !! name = Some service →
    Scheduler.services self !! name' = Some service' →
    Service.name service ≠ Service.category service'.

(** No category of the catalog has a name of one character. *)
Definition categories_long (self : Scheduler.t) : Prop :=
  ∀ name service, Scheduler.services self !! name = Some service →
    String.length (Service.category service) ≠ 1%nat.

(** A schedule with one stage for each configured stage, whose entries hold
    the catalog's descriptor of the service, in the stage of the service,
    under names that are not repeated. *)
Definition placed (self : Scheduler.t) (schedule : list (list (string * Service.t))) : Prop :=
  length schedule = length (Scheduler.stages self) ∧
  Forall (λ stage, NoDup (Dict.keys stage)) schedule ∧
  ∀ i stage name service,
    schedule !! i = Some stage → (name, service) ∈ stage →
    Scheduler.services self !! name = Some service ∧
    Scheduler.stage_index self (Service.stage service) = Some i.

(** The effects of the finalizer, in order: the quota hold is released, the
    records of unexpected buckets are warned about, the submission is saved,
    sent to the completion queue if one is set, every watcher is told to
    stop, the watcher list and the timeout watch are cleared. *)
Definition finalize_trace (task : SubmissionTask.t) (result_classifications : list nat)
    (max_score : option Z) (file_count : Z) (w : World.t) : list Effect :=
  let submission := SubmissionTask.submission task in
  let sid := Submission.sid submission in
  let params := Submission.params submission in
  let saved := finalized task result_classifications max_score file_count w in
  (if Params.quota_item params && negb (bool_decide (Params.submitter params = ""))
   then [QuotaPop (Params.submitter params) sid] else [])
  ++ (bucket_warning <$> filter (λ r, is_anomaly r = true)
        (Dispatcher.statuses (DispatchHash.all_results (World.table sid w))))
  ++ [SaveSubmission sid saved]
  ++ (if bool_decide (SubmissionTask.completed_queue task = "") then []
      else [PushCompleted (SubmissionTask.completed_queue task) saved])
  ++ (PushStop <$> default [] (World.watcher_lists w !! make_watcher_list_name sid))
  ++ [DeleteWatcherList (make_watcher_list_name sid); ClearWatch sid].

(** The score and the error a service adds to the score record of a file,
    and whether its finish record ends the schedule of the file. *)
Definition score_of (file_hash : string) (h : DispatchHash.t) (name : string) : Z :=
  match DispatchHash.finished file_hash name h with
  | Some r => if FinishRecord.is_error r then 0 else FinishRecord.score r
  | None => 0
  end.

Definition error_of (file_hash : string) (h : DispatchHash.t) (name : string) : Z :=
  match DispatchHash.finished file_hash name h with
  | Some r => if FinishRecord.is_error r then 1 else 0
  | None => 0
  end.

Definition drops (submission : Submission.t) (file_hash : string) (h : DispatchHash.t)
    (name : string) : bool :=
  match DispatchHash.finished file_hash name h with
  | Some r =>
      negb (FinishRecord.is_error r)
      && negb (Params.ignore_filtering (Submission.params submission))
      && FinishRecord.drop r
  | None => false
  end.

Definition tally (f : string → Z) (names : list string) : Z :=
  foldr (λ name acc, f name + acc) 0 names.

(** The effects of [dispatch_file] for a file with nothing outstanding: the
    watch is touched, the score record of the file saved, its tags deleted,
    the counter of completed files incremented, and the submission queued
    again when the dispatch table says all is finished. *)
Definition file_done_trace (self : Dispatcher.t) (task : FileTask.t)
    (submission : Submission.t) (score errors now : Z) (all_finished : bool)
    : list Effect :=
  [TouchWatch (FileTask.sid task) (Dispatcher.config_timeout self) SUBMISSION_QUEUE;
   SaveFilescore (FileInfo.sha256 (FileTask.file_info task))
     (match Params.psid (Submission.params submission) with
      | Some "" | None => None
      | Some psid => Some psid
      end)
     (Submission.expiry_ts submission) score errors (Submission.sid submission) now;
   DeleteTagSet (get_tag_set_name task);
   DeleteTagHash (get_submission_tags_name task);
   IncrementFilesComplete]
  ++ (if all_finished then [PushSubmission (Submission.sid submission)] else []).

(** A computation run from a world satisfying [P] ends, when it returns, with
    a result and a world satisfying [Q]. *)
Definition triple {A} (P : World.t → Prop) (m : M A) (Q : A → World.t → Prop) : Prop :=
  ∀ w a w', m w = Some (a, w') → P w → Q a w'.

(** A file task as the submission dispatcher builds it from a record of the
    datastore. *)
Definition task_ok (file_store : gmap string FileInfo.t) (sid : string) (max_files : Z)
    (file_task : FileTask.t) : Prop :=
  FileTask.sid file_task = sid ∧
  FileTask.max_files file_task = max_files ∧
  FileTask.parent_hash file_task = None ∧
  ∃ key, file_store !! key = Some (FileTask.file_info file_task).

(** The invariant of the walk: the tasks still to check and the pending ones
    are built from records of the datastore, and the pending ones are keyed
    by their sha256. *)
Definition walk_ok (file_store : gmap string FileInfo.t) (sid : string) (max_files : Z)
    (st : Dispatcher.Walk) : Prop :=
  Forall (task_ok file_store sid max_files) (Dispatcher.unchecked_files st) ∧
  NoDup (Dict.keys (Dispatcher.pending_files st)) ∧
  ∀ key file_task, (key, file_task) ∈ Dispatcher.pending_files st →
    key = FileInfo.sha256 (FileTask.file_info file_task) ∧
    task_ok file_store sid max_files file_task.

(** The parts of the world the walk reads and leaves alone. *)
Definition stores_are (file_store : gmap string FileInfo.t)
    (active_tasks : gmap string SubmissionTask.t) (w : World.t) : Prop :=
  World.file_store w = file_store ∧ World.active_tasks w = active_tasks.

(** The active tasks after the entry of [dispatch_submission]: an entry that
    exists is not overwritten. *)
Definition tracked (task : SubmissionTask.t) (active_tasks : gmap string SubmissionTask.t)
    : gmap string SubmissionTask.t :=
  let sid := Submission.sid (SubmissionTask.submission task) in
  match active_tasks !! sid with
  | Some _ => active_tasks
  | None => <[sid := task]> active_tasks
  end.

(** The effects of the entry of [dispatch_submission]: the watch is touched
    and the quota hold refreshed. *)
Definition refresh_trace (self : Dispatcher.t) (task : SubmissionTask.t) (now : Z)
    : list Effect :=
  let submission := SubmissionTask.submission task in
  let params := Submission.params submission in
  TouchWatch (Submission.sid submission) (Dispatcher.config_timeout self) SUBMISSION_QUEUE
  :: (if Params.quota_item params && negb (bool_decide (Params.submitter params = ""))
      then [QuotaAdd (Params.submitter params) (Submission.sid submission) now]
      else []).

(** The effects that refresh the hold of a submission: a touch of the
    timeout watch, an entry in the quota of a submitter. *)
Definition refreshes (e : Effect) : bool :=
  match e with
  | TouchWatch _ _ _ | QuotaAdd _ _ _ => true
  | _ => false
  end.

(** In the walk of [dispatch_submission], the finish record of the service
    for the file ends the schedule of the file: the dispatch window has
    elapsed, the record is not an error, [drop] is set and filtering is not
    ignored. *)
Definition walk_drops (self : Dispatcher.t) (submission : Submission.t)
    (file_task : FileTask.t) (w : World.t) (name : string) : bool :=
  let sha := FileInfo.sha256 (FileTask.file_info file_task) in
  let h := World.table (Submission.sid submission) w in
  match Scheduler.services (Dispatcher.scheduler self) !! name with
  | Some service =>
      bool_decide (Service.timeout service
                   ≤ World.now w - DispatchHash.dispatch_time sha name h)
      && match DispatchHash.finished sha name h with
         | Some row =>
             negb (FinishRecord.is_error row)
             && negb (Params.ignore_filtering (Submission.params submission))
             && FinishRecord.drop row
         | None => false
         end
  | None => false
  end.

(** ** Dictionaries *)

Lemma dict_keys_set {V} (k : string) (v : V) d n :
  n ∈ Dict.keys (Dict.set k v d) ↔ n = k ∨ n ∈ Dict.keys d.
Proof.
  unfold Dict.keys. induction d as [|[k' v'] d IH]; simpl.
  - rewrite list_elem_of_singleton. set_solver.
  - destruct (decide (k = k')) as [->|Hne]; simpl.
    + rewrite !elem_of_cons. tauto.
    + rewrite !elem_of_cons, IH. tauto.
Qed.

Lemma dict_set_NoDup {V} (k : string) (v : V) d :
  NoDup (Dict.keys d) → NoDup (Dict.keys (Dict.set k v d)).
Proof.
  unfold Dict.keys. induction d as [|[k' v'] d IH]; simpl; intros Hnd.
  - apply NoDup_singleton.
  - apply NoDup_cons in Hnd as [Hnotin Hnd].
    destruct (decide (k = k')) as [->|Hne]; simpl.
    + by apply NoDup_cons.
    + apply NoDup_cons. split; [|by apply IH].
      intros Hin. apply (dict_keys_set k v d k') in Hin as [?|?]; [congruence|by apply Hnotin].
Qed.

(** ** Runs of the monad *)

Lemma emit_run e w :
  emit e w = Some (tt, World.set_effects (World.effects w ++ [e]) w).
Proof. reflexivity. Qed.

Lemma modify_run f w : modify f w = Some (tt, f w).
Proof. reflexivity. Qed.

Lemma bind_run {A B} (m : M A) (k : A → M B) w b w'' :
  bind m k w = Some (b, w'') ↔ ∃ a w', m w = Some (a, w') ∧ k a w' = Some (b, w'').
Proof.
  unfold bind. destruct (m w) as [[a w']|]; [|naive_solver].
  split; [eauto|]. by intros (? & ? & [= <- <-] & ?).
Qed.

Lemma for_each_emit {A} (f : A → Effect) l w :
  for_each (λ x (_ : unit), emit (f x)) l tt w =
  Some (tt, World.set_effects (World.effects w ++ (f <$> l)) w).
Proof.
  revert w. induction l as [|x l IH]; intros w; simpl.
  - unfold ret. rewrite app_nil_r. by destruct w.
  - unfold bind. rewrite emit_run, IH. simpl. by rewrite <- app_assoc.
Qed.

Section respects.
Context (R : relation World.t) `{!PreOrder R}.

Lemma respects_ret {A} (a : A) : respects R (ret a).
Proof. intros w ? ? [= <- <-]. reflexivity. Qed.

Lemma respects_raise {A} : respects R (@raise A).
Proof. by intros w ? ?. Qed.

Lemma respects_lift {A} (o : option A) : respects R (lift o).
Proof. intros w ? ?. unfold lift. destruct o; [|done]. intros [= <- <-]. reflexivity. Qed.

Lemma respects_get_world : respects R get_world.
Proof. intros w ? ? [= <- <-]. reflexivity. Qed.

Lemma respects_get_table sid : respects R (get_table sid).
Proof. intros w ? ? [= <- <-]. reflexivity. Qed.

Lemma respects_bind {A B} (m : M A) (k : A → M B) :
  respects R m → (∀ a, respects R (k a)) → respects R (bind m k).
Proof.
  intros Hm Hk w b w'' (a & w' & H1 & H2)%bind_run.
  etransitivity; [by eapply Hm|by eapply Hk].
Qed.

Lemma respects_for_each {A S} (body : A → S → M S) l st :
  (∀ x st, x ∈ l → respects R (body x st)) → respects R (for_each body l st).
Proof.
  revert st. induction l as [|x l IH]; intros st Hbody; simpl.
  - apply respects_ret.
  - apply respects_bind; [apply Hbody; by left|].
    intros st'. apply IH. intros y st'' Hy. apply Hbody. by right.
Qed.

Lemma respects_modify f : (∀ w, R w (f w)) → respects R (modify f).
Proof. intros Hf w ? ? [= <- <-]. apply Hf. Qed.

End respects.

(** ** Effects of a run *)

Lemma emitted_app w w' es :
  World.effects w' = World.effects w ++ es → emitted w w' = es.
Proof. unfold emitted. intros ->. by rewrite drop_app_length. Qed.

Global Instance emits_preorder P : PreOrder (emits P).
Proof.
  split.
  - intros w. exists []. by rewrite app_nil_r.
  - intros w1 w2 w3 (es1 & H1 & HP1) (es2 & H2 & HP2).
    exists (es1 ++ es2). rewrite H2, H1, app_assoc. split; [done|].
    by apply Forall_app.
Qed.

Lemma emits_emitted P w w' : emits P w w' →
  World.effects w' = World.effects w ++ emitted w w' ∧ Forall P (emitted w w').
Proof. intros (es & H & HP). by rewrite (emitted_app _ _ _ H). Qed.

Lemma respects_emit (P : Effect → Prop) e : P e → respects (emits P) (emit e).
Proof. intros HP w ? ? [= <- <-]. exists [e]. split; [done|]. by apply Forall_singleton. Qed.

Lemma dict_set_elem_of {V} (k : string) (v : V) d n x :
  (n, x) ∈ Dict.set k v d → (n = k ∧ x = v) ∨ (n, x) ∈ d.
Proof.
  induction d as [|[k' v'] d IH]; simpl.
  - intros [= -> ->]%list_elem_of_singleton. by left.
  - destruct (decide (k = k')) as [->|Hne]; rewrite !elem_of_cons.
    + intros [[= -> ->]|?]; [by left|right; by right].
    + intros [?|[?|?]%IH]; [right; by left|by left|right; by right].
Qed.

(** ** The schedule builder *)

Section scheduler_properties.
Variable re_match : string → string → bool.

Lemma list_index_lt x l i : Scheduler.list_index x l = Some i → (i < length l)%nat.
Proof.
  revert i. induction l as [|y l IH]; intros i; simpl; [done|].
  destruct (decide (x = y)); [intros [= <-]; lia|].
  destruct (Scheduler.list_index x l) as [j|]; simpl; [|done].
  intros [= <-]. specialize (IH j eq_refl). lia.
Qed.

Lemma scheduled_alter name service i schedule n :
  (i < length schedule)%nat →
  scheduled n (alter (Dict.set name service) i schedule) ↔
  n = name ∨ scheduled n schedule.
Proof.
  intros Hi. destruct (lookup_lt_is_Some_2 schedule i Hi) as [stage Hstage].
  unfold scheduled. split.
  - intros (st & Hin & Hn).
    apply list_elem_of_lookup in Hin as [j Hj].
    destruct (decide (i = j)) as [<-|Hne].
    + rewrite list_lookup_alter_eq, Hstage in Hj. simpl in Hj.
      injection Hj as <-. apply dict_keys_set in Hn as [->|Hn]; [by left|].
      right. exists stage. split; [|done]. by eapply list_elem_of_lookup_2.
    + rewrite list_lookup_alter_ne in Hj by done.
      right. exists st. split; [|done]. by eapply list_elem_of_lookup_2.
  - intros [->|(st & Hin & Hn)].
    + exists (Dict.set name service stage). split.
      * eapply list_elem_of_lookup_2 with (i := i).
        by rewrite list_lookup_alter_eq, Hstage.
      * apply dict_keys_set. by left.
    + apply list_elem_of_lookup in Hin as [j Hj].
      destruct (decide (i = j)) as [<-|Hne].
      * exists (Dict.set name service stage). split.
        -- eapply list_elem_of_lookup_2 with (i := i).
           by rewrite list_lookup_alter_eq, Hstage.
        -- apply dict_keys_set. right. congruence.
      * exists st. split; [|done].
        eapply list_elem_of_lookup_2 with (i := j).
        by rewrite list_lookup_alter_ne.
Qed.

Lemma place_services_spec self file_type services schedule schedule' :
  length schedule = length (Scheduler.stages self) →
  Scheduler.place_services re_match self file_type services schedule = Some schedule' →
  ∀ n, scheduled n schedule' ↔
       scheduled n schedule ∨
       (n ∈ services ∧ ∃ service, Scheduler.services self !! n = Some service ∧
          accepted re_match service file_type ∧ ¬ rejected re_match service file_type).
Proof.
  revert schedule. induction services as [|name services IH]; intros schedule Hlen; simpl.
  - intros [= <-] n. set_solver.
  - destruct (Scheduler.services self !! name) as [service|] eqn:Hsv.
    + destruct (_ && _) eqn:Hok.
      * destruct (Scheduler.stage_index self (Service.stage service)) as [i|] eqn:Hi;
          simpl; [|done].
        intros Hplace n. apply list_index_lt in Hi.
        rewrite (IH _ ltac:(by rewrite length_alter) Hplace n).
        rewrite scheduled_alter by (rewrite Hlen; exact Hi).
        apply andb_prop in Hok as [Hacc Hrej].
        apply negb_true_iff in Hrej.
        assert (accepted re_match service file_type) as Ha.
        { apply orb_prop in Hacc as [H|H]; [left; by apply bool_decide_eq_true in H|by right]. }
        assert (¬ rejected re_match service file_type) as Hr.
        { intros [H1 H2]. rewrite H2, andb_true_r in Hrej.
          apply negb_false_iff, bool_decide_eq_true in Hrej. done. }
        rewrite elem_of_cons. split.
        -- intros [[->|?]|(? & ?)]; [|by left|naive_solver].
           right. split; [by left|]. by exists service.
        -- intros [?|([->|?] & ?)]; [by left; right|by left; left|naive_solver].
      * intros Hplace n. rewrite (IH _ Hlen Hplace n), elem_of_cons.
        split; [naive_solver|]. intros [?|([->|?] & sv & Hsv' & Ha & Hr)]; [by left| |naive_solver].
        exfalso. rewrite Hsv in Hsv'. injection Hsv' as <-.
        apply andb_false_iff in Hok as [Hacc|Hrej].
        -- apply orb_false_iff in Hacc as [H1 H2]. apply bool_decide_eq_false in H1.
           destruct Ha; congruence.
        -- apply negb_false_iff, andb_true_iff in Hrej as [H1 H2].
           apply negb_true_iff, bool_decide_eq_false in H1. by apply Hr.
    + intros Hplace n. rewrite (IH _ Hlen Hplace n), elem_of_cons.
      split; [naive_solver|]. intros [?|([->|?] & sv & Hsv' & ?)]; [by left|congruence|naive_solver].
Qed.

(** Membership in the schedule of [Scheduler.build_schedule], in terms of
    the lists [selected] and [excluded] that [expand_categories] returns: a
    name is in some stage of the returned schedule iff the catalog has a
    service of that name which is in [selected] and not in [excluded], or of
    the system category, whose [accepts] is empty or matches the file type,
    and whose [rejects] is empty or does not match it. *)
Lemma build_schedule_membership self fuel submission file_type schedule :
  Scheduler.build_schedule re_match self fuel submission file_type = Some schedule →
  ∃ selected excluded : list string,
    Scheduler.expand_categories self fuel
      (Some (Params.excluded (Submission.params submission))) = Some excluded ∧
    (match Params.selected (Submission.params submission) with
     | [] => Some (map_to_list (Scheduler.services self)).*1
     | _ => Scheduler.expand_categories self fuel
              (Some (Params.selected (Submission.params submission)))
     end) = Some selected ∧
    ∀ name,
      scheduled name schedule ↔
      ∃ service, Scheduler.services self !! name = Some service ∧
        ((name ∈ selected ∧ name ∉ excluded)
         ∨ Service.category service = Scheduler.system_category) ∧
        accepted re_match service file_type ∧ ¬ rejected re_match service file_type.
Proof.
  unfold Scheduler.build_schedule. intros H.
  destruct (Scheduler.expand_categories self fuel (Some (Params.excluded _)))
    as [excluded|] eqn:Hex; simpl in H; [|done].
  destruct (match Params.selected _ with [] => _ | _ => _ end)
    as [selected|] eqn:Hsel; simpl in H; [|done].
  exists selected, excluded. split; [done|]. split; [done|].
  intros name.
  rewrite (place_services_spec _ _ _ _ _ ltac:(by rewrite length_replicate) H name).
  split.
  - intros [(stage & Hin & Hn)|(Hn & service & Hsv & Ha & Hr)].
    + apply elem_of_replicate in Hin as [-> _]. by apply elem_of_nil in Hn.
    + exists service. split; [done|]. split; [|done].
      apply elem_of_elements, elem_of_union in Hn as [Hn|Hn].
      * left. apply elem_of_difference in Hn as [H1 H2].
        rewrite elem_of_list_to_set in H1, H2. done.
      * right. apply elem_of_list_to_set, list_elem_of_fmap in Hn as ([k v] & -> & Hkv).
        apply list_elem_of_filter in Hkv as [Hcat Hkv]. simpl in *.
        apply elem_of_map_to_list in Hkv. congruence.
  - intros (service & Hsv & Hcand & Ha & Hr). right. split; [|by exists service].
    apply elem_of_elements, elem_of_union. destruct Hcand as [[H1 H2]|Hcat].
    + left. apply elem_of_difference. by rewrite !elem_of_list_to_set.
    + right. apply elem_of_list_to_set, list_elem_of_fmap.
      exists (name, service). split; [done|].
      apply list_elem_of_filter. split; [done|]. by apply elem_of_map_to_list.
Qed.

End scheduler_properties.

(** *** Termination of the expansion *)

Lemma expand_cost_app categories l1 l2 :
  expand_cost categories (l1 ++ l2)
  = (expand_cost categories l1 + expand_cost categories l2)%nat.
Proof. apply sum_list_with_app. Qed.

Lemma expand_cost_plain categories (l : list string) :
  (∀ m, m ∈ l → categories !! m = None) → expand_cost categories l = length l.
Proof.
  induction l as [|m l IH]; intros Hplain; [done|]. simpl.
  rewrite (Hplain m) by (by left). simpl.
  rewrite IH; [done|]. intros. apply Hplain. by right.
Qed.

(** With no category among the members of a category the loop ends. *)
Lemma expand_loop_total categories services found seen fuel :
  (∀ c members m, categories !! c = Some members → m ∈ members → categories !! m = None) →
  (expand_cost categories services ≤ fuel)%nat →
  is_Some (Scheduler.expand_loop fuel categories services found seen).
Proof.
  intros Hplain. revert services found seen.
  induction fuel as [|fuel IH]; intros services found seen Hcost.
  - destruct services as [|name services]; [by eexists|]. simpl in Hcost. lia.
  - destruct services as [|name services]; [by eexists|]. simpl in *.
    destruct (categories !! name) as [members|] eqn:Hname; simpl in Hcost.
    + destruct (decide (name ∈ seen)); [apply IH; lia|].
      apply IH. rewrite expand_cost_app, expand_cost_plain.
      * rewrite length_rev. lia.
      * intros m Hm. apply list_elem_of_In, in_rev, list_elem_of_In in Hm. by eapply Hplain.
    + apply IH. lia.
Qed.

Lemma expand_cost_rev categories (l : list string) :
  expand_cost categories (rev l) = expand_cost categories l.
Proof.
  induction l as [|x l IH]; [done|]. simpl rev.
  rewrite expand_cost_app, IH. simpl. lia.
Qed.

(** The categories are those of the services, their members are names of
    services. *)
Lemma categories_members self c members :
  Scheduler.categories self !! c = Some members →
  (∃ v, v ∈ (map_to_list (Scheduler.services self)).*2 ∧ Service.category v = c) ∧
  ∀ m, m ∈ members →
    ∃ v, v ∈ (map_to_list (Scheduler.services self)).*2 ∧ Service.name v = m.
Proof.
  unfold Scheduler.categories.
  generalize ((map_to_list (Scheduler.services self)).*2). intros values.
  assert (∀ acc : gmap string (list string),
            foldl (λ all_categories service,
                     match all_categories !! Service.category service with
                     | Some l => <[Service.category service := l ++ [Service.name service]]>
                                   all_categories
                     | None => <[Service.category service := [Service.name service]]>
                                 all_categories
                     end) acc values !! c = Some members →
            (is_Some (acc !! c) ∨ ∃ v, v ∈ values ∧ Service.category v = c) ∧
            ∀ m, m ∈ members →
              (∃ ms, acc !! c = Some ms ∧ m ∈ ms) ∨ ∃ v, v ∈ values ∧ Service.name v = m)
    as Hfold.
  { induction values as [|v values IH]; intros acc; simpl.
    - intros Hc. split; [left; by eexists|]. intros m Hm. left. by exists members.
    - intros [Hkey Hmem]%IH. split.
      + destruct Hkey as [Hkey|(v' & ? & ?)]; [|right; exists v'; split; [by right|done]].
        destruct (decide (Service.category v = c)) as [Heq|Hne].
        * right. exists v. split; [by left|done].
        * left. destruct (acc !! Service.category v); by rewrite lookup_insert_ne in Hkey.
      + intros m Hm. destruct (Hmem m Hm) as [(ms & Hms & Hin)|(v' & ? & ?)];
          [|right; exists v'; split; [by right|done]].
        destruct (decide (Service.category v = c)) as [Heq|Hne].
        * destruct (acc !! Service.category v) as [l|] eqn:Hacc;
            rewrite Heq, lookup_insert_eq in Hms; injection Hms as <-.
          -- apply elem_of_app in Hin as [Hin|Hin%list_elem_of_singleton].
             ++ left. exists l. by rewrite <- Heq.
             ++ right. exists v. split; [by left|done].
          -- apply list_elem_of_singleton in Hin. right. exists v. split; [by left|done].
        * left. exists ms. split; [|done].
          destruct (acc !! Service.category v); by rewrite lookup_insert_ne in Hms. }
  intros [Hkey Hmem]%Hfold. split.
  - destruct Hkey as [[? Hkey]|?]; [by rewrite lookup_empty in Hkey|done].
  - intros m Hm. destruct (Hmem m Hm) as [(ms & Hms & _)|?]; [by rewrite lookup_empty in Hms|done].
Qed.


(** ** The finalizer *)

Lemma table_set_effects sid es w :
  World.table sid (World.set_effects es w) = World.table sid w.
Proof. reflexivity. Qed.

Lemma sort_statuses rows acc w :
  for_each Dispatcher.sort_status rows acc w =
  Some ((acc.1 ++ (FinishRecord.key <$> filter (λ r, FinishRecord.is_error r = true) rows),
         acc.2 ++ (FinishRecord.key <$> filter (λ r, is_result r = true) rows)),
        World.set_effects
          (World.effects w ++ (bucket_warning <$> filter (λ r, is_anomaly r = true) rows)) w).
Proof.
  revert acc w. induction rows as [|r rows IH]; intros [es rs] w; simpl.
  - unfold ret. rewrite !app_nil_r. by destruct w.
  - unfold bind, Dispatcher.sort_status at 1.
    rewrite !filter_cons. unfold is_result, is_anomaly.
    destruct (FinishRecord.is_error r) eqn:He; simpl.
    + unfold ret. rewrite IH. simpl. by rewrite <- app_assoc.
    + destruct (bool_decide (FinishRecord.bucket r = "result")) eqn:Hb; simpl.
      * unfold ret. rewrite IH. simpl. by rewrite <- app_assoc.
      * rewrite IH. simpl. by rewrite <- app_assoc.
Qed.

Lemma saved_of_app es1 es2 : saved_of (es1 ++ es2) = saved_of es1 ++ saved_of es2.
Proof. apply omap_app. Qed.
Lemma files_pushed_app es1 es2 : files_pushed (es1 ++ es2) = files_pushed es1 ++ files_pushed es2.
Proof. apply omap_app. Qed.
Lemma tasks_pushed_app es1 es2 : tasks_pushed (es1 ++ es2) = tasks_pushed es1 ++ tasks_pushed es2.
Proof. apply omap_app. Qed.

Lemma observed_warnings rows :
  saved_of (bucket_warning <$> rows) = [] ∧ files_pushed (bucket_warning <$> rows) = []
  ∧ tasks_pushed (bucket_warning <$> rows) = [].
Proof. by induction rows. Qed.

Lemma observed_stops (ws : list string) :
  saved_of (PushStop <$> ws) = [] ∧ files_pushed (PushStop <$> ws) = []
  ∧ tasks_pushed (PushStop <$> ws) = [].
Proof. by induction ws. Qed.

Lemma finalize_submission_run task result_classifications max_score file_count w :
  let sid := Submission.sid (SubmissionTask.submission task) in
  let rows := Dispatcher.statuses (DispatchHash.all_results (World.table sid w)) in
  ∃ w',
    Dispatcher.finalize_submission task result_classifications max_score file_count w
      = Some (tt, w') ∧
    (∃ es, World.effects w' = World.effects w ++ es ∧
       saved_of es = [(sid, finalized task result_classifications max_score file_count w)] ∧
       files_pushed es = [] ∧ tasks_pushed es = [] ∧
       ∀ r, r ∈ rows → is_anomaly r = true → bucket_warning r ∈ es) ∧
    World.tables w' = delete sid (World.tables w) ∧
    World.active_tasks w' = delete sid (World.active_tasks w).
Proof.
  intros sid rows.
  unfold Dispatcher.finalize_submission. fold sid.
  unfold bind, get_table, get_world, ret.
  destruct (Params.quota_item _ && _); simpl;
    rewrite ?emit_run, ?modify_run; simpl;
    rewrite sort_statuses; simpl;
    rewrite ?emit_run; simpl;
    destruct (bool_decide (SubmissionTask.completed_queue task = "")); simpl;
    rewrite ?emit_run; simpl;
    rewrite for_each_emit; simpl;
    rewrite ?modify_run; simpl; rewrite ?emit_run; simpl; rewrite ?emit_run; simpl;
    rewrite ?modify_run; simpl;
    (eexists; split; [reflexivity|]); simpl;
    (split; [|done]);
    rewrite <- !app_assoc;
    (eexists; split; [reflexivity|]).
  all: rewrite ?saved_of_app, ?files_pushed_app, ?tasks_pushed_app.
  all: rewrite ?table_set_effects; fold rows.
  all: destruct (observed_warnings (filter (λ r, is_anomaly r = true) rows)) as (-> & -> & ->).
  all: destruct (observed_stops
                   (default [] (World.watcher_lists w !! make_watcher_list_name sid)))
         as (-> & -> & ->).
  all: split; [reflexivity|]; split; [reflexivity|]; split; [reflexivity|].
  all: intros r Hr Ha.
  all: assert (bucket_warning r ∈ bucket_warning <$> filter (λ r, is_anomaly r = true) rows)
         by (by apply list_elem_of_fmap_2, list_elem_of_filter).
  all: rewrite ?elem_of_app, ?elem_of_cons; tauto.
Qed.

Lemma rows_enumerated {R} (l : list (string * gmap string R)) :
  NoDup l.*1 →
  ∃ entries : list (string * string),
    NoDup entries ∧
    (∀ sha service, (sha, service) ∈ entries ↔
       ∃ row, (sha, row) ∈ l ∧ is_Some (row !! service)) ∧
    Forall2 (λ e r, ∃ row, (e.1, row) ∈ l ∧ row !! e.2 = Some r) entries
      (mjoin ((λ row : gmap string R, (map_to_list row).*2) <$> l.*2)).
Proof.
  induction l as [|[sha row] l IH]; intros Hnd.
  - exists []. split; [constructor|]. split; [|constructor].
    intros sha service. split; [by intros ?%elem_of_nil|].
    by intros (row & ?%elem_of_nil & _).
  - rewrite fmap_cons in Hnd. apply NoDup_cons in Hnd as [Hsha Hnd]. simpl in Hsha.
    destruct (IH Hnd) as (entries & Hnd' & Hin & Hall).
    exists (((λ kv, (sha, kv.1)) <$> map_to_list row) ++ entries).
    assert (∀ s service, (s, service) ∈ (λ kv : string * R, (sha, kv.1)) <$> map_to_list row
                         ↔ s = sha ∧ is_Some (row !! service)) as Hhead.
    { intros s service. rewrite list_elem_of_fmap. split.
      - intros ([k r] & [= -> ->] & Hkr%elem_of_map_to_list). simpl. split; [done|by eexists].
      - intros [-> [r Hr]]. exists (service, r). split; [done|]. by apply elem_of_map_to_list. }
    split; [|split].
    + apply NoDup_app. split; [|split; [|done]].
      * assert ((λ kv : string * R, (sha, kv.1)) <$> map_to_list row
                = (λ k, (sha, k)) <$> (map_to_list row).*1) as ->
          by (by rewrite <- list_fmap_compose).
        apply NoDup_fmap_2; [by intros ? ? [= ->]|]. apply NoDup_fst_map_to_list.
      * intros [s service] [-> _]%Hhead (row' & Hrow' & _)%Hin.
        apply Hsha. apply list_elem_of_fmap. by exists (sha, row').
    + intros s service. rewrite elem_of_app, Hhead, Hin. split.
      * intros [[-> Hsome]|(row' & Hrow' & Hsome)].
        -- exists row. split; [by left|done].
        -- exists row'. split; [by right|done].
      * intros (row' & [[= -> ->]|Hrow']%elem_of_cons & Hsome); [by left|].
        right. by exists row'.
    + rewrite !fmap_cons. simpl. apply Forall2_app.
      * apply Forall2_fmap, Forall_Forall2_diag, Forall_forall.
        intros [k r] Hkr%elem_of_map_to_list. simpl. exists row. split; [by left|done].
      * eapply Forall2_impl; [exact Hall|]. intros e r (row' & Hrow' & Hr).
        exists row'. split; [by right|done].
Qed.

(** The statuses the finalizer goes through are the finish records of the
    dispatch table, each of them once. *)
Lemma statuses_finish_records h :
  finish_records h (Dispatcher.statuses (DispatchHash.all_results h)).
Proof.
  unfold Dispatcher.statuses, DispatchHash.all_results.
  destruct (rows_enumerated (map_to_list (DispatchHash.finished_rows h)))
    as (entries & Hnd & Hin & Hall); [apply NoDup_fst_map_to_list|].
  exists entries. split; [done|]. split.
  - intros sha service. rewrite Hin. unfold DispatchHash.finished. split.
    + intros (row & Hrow%elem_of_map_to_list & Hsome). by rewrite Hrow.
    + destruct (DispatchHash.finished_rows h !! sha) as [row|] eqn:Hrow; simpl.
      * intros Hsome. exists row. split; [by apply elem_of_map_to_list|done].
      * by intros [? ?].
  - eapply Forall2_impl; [exact Hall|]. intros e r (row & Hrow%elem_of_map_to_list & Hr).
    unfold DispatchHash.finished. by rewrite Hrow.
Qed.

Lemma finish_records_elem h rows r :
  finish_records h rows →
  r ∈ rows ↔ ∃ sha service, DispatchHash.finished sha service h = Some r.
Proof.
  intros (entries & _ & Hin & Hall). split.
  - intros [i Hi]%list_elem_of_lookup.
    destruct (Forall2_lookup_r _ _ _ _ _ Hall Hi) as ([sha service] & _ & Hr).
    by exists sha, service.
  - intros (sha & service & Hr).
    assert ((sha, service) ∈ entries) as [i Hi]%list_elem_of_lookup
      by (apply Hin; by eexists).
    destruct (Forall2_lookup_l _ _ _ _ _ Hall Hi) as (r' & Hr' & Heq).
    simpl in Heq. rewrite Hr in Heq. injection Heq as <-.
    by eapply list_elem_of_lookup_2.
Qed.

(** C8. The finalizer goes through the finish records of the dispatch table,
    each of them once ([rows]). It puts the key of every error record into
    [errors], the key of every other record of the [result] bucket into
    [results], and only warns about the records of any other bucket; the two
    lists hold nothing else: every key in [errors] is the key of an error
    record of the table, every key in [results] the key of a result record.
    [error_count] is the length of [errors], the state is [completed], and
    [max_score] is 0 when the walk recorded no score. *)
Theorem finalize_submission_partition task result_classifications max_score file_count w :
  let sid := Submission.sid (SubmissionTask.submission task) in
  let h := World.table sid w in
  let rows := Dispatcher.statuses (DispatchHash.all_results h) in
  ∃ w' submission,
    Dispatcher.finalize_submission task result_classifications max_score file_count w
      = Some (tt, w') ∧
    saved_of (emitted w w') = [(sid, submission)] ∧
    finish_records h rows ∧
    Submission.errors submission =
      FinishRecord.key <$> filter (λ r, FinishRecord.is_error r = true) rows ∧
    Submission.results submission =
      FinishRecord.key <$> filter (λ r, is_result r = true) rows ∧
    (∀ r, r ∈ rows → is_anomaly r = true → bucket_warning r ∈ emitted w w') ∧
    (∀ sha service r, DispatchHash.finished sha service h = Some r →
       (FinishRecord.is_error r = true → FinishRecord.key r ∈ Submission.errors submission) ∧
       (is_result r = true → FinishRecord.key r ∈ Submission.results submission) ∧
       (is_anomaly r = true → bucket_warning r ∈ emitted w w')) ∧
    (∀ k, k ∈ Submission.errors submission →
       ∃ sha service r, DispatchHash.finished sha service h = Some r ∧
         FinishRecord.is_error r = true ∧ FinishRecord.key r = k) ∧
    (∀ k, k ∈ Submission.results submission →
       ∃ sha service r, DispatchHash.finished sha service h = Some r ∧
         is_result r = true ∧ FinishRecord.key r = k) ∧
    Submission.error_count submission = Z.of_nat (length (Submission.errors submission)) ∧
    Submission.state submission = "completed" ∧
    (max_score = None → Submission.max_score submission = 0).
Proof.
  intros sid h rows.
  destruct (finalize_submission_run task result_classifications max_score file_count w)
    as (w' & Hrun & (es & Heff & Hsaved & _ & _ & Hwarn) & _).
  pose proof (statuses_finish_records h) as Hrows. fold rows in Hrows.
  exists w', (finalized task result_classifications max_score file_count w).
  rewrite (emitted_app _ _ _ Heff).
  split; [done|]. split; [done|]. split; [done|]. split; [done|]. split; [done|].
  split; [done|]. split; [|split; [|split]].
  - intros sha service r Hr.
    assert (r ∈ rows) as Hin by (apply (finish_records_elem h rows r Hrows); eauto).
    split; [|split].
    + intros He. apply list_elem_of_fmap_2. by apply list_elem_of_filter.
    + intros He. apply list_elem_of_fmap_2. by apply list_elem_of_filter.
    + by apply Hwarn.
  - intros k (r & -> & [He Hin]%list_elem_of_filter)%list_elem_of_fmap.
    apply (finish_records_elem h rows r Hrows) in Hin as (sha & service & Hr).
    by exists sha, service, r.
  - intros k (r & -> & [He Hin]%list_elem_of_filter)%list_elem_of_fmap.
    apply (finish_records_elem h rows r Hrows) in Hin as (sha & service & Hr).
    by exists sha, service, r.
  - split; [done|]. split; [done|]. by intros ->.
Qed.

(** ** The stage loop of the file dispatcher *)

Section file_dispatch.
Variable self : Dispatcher.t.
Variable submission : Submission.t.
Variables sid file_hash : string.

Local Abbreviation catalog := (Scheduler.services (Dispatcher.scheduler self)).

Lemma scan_service_run name st w :
  ∃ st', Dispatcher.scan_service self submission sid file_hash name st w = Some (st', w) ∧
    Dispatcher.started_stages st' = Dispatcher.started_stages st ∧
    (Dispatcher.scan_schedule st' = Dispatcher.scan_schedule st
     ∨ Dispatcher.scan_schedule st' = []) ∧
    match DispatchHash.finished file_hash name (World.table sid w) with
    | None => Dispatcher.outstanding st'
              = Dict.set name (catalog !! name) (Dispatcher.outstanding st)
    | Some _ => Dispatcher.outstanding st' = Dispatcher.outstanding st
    end.
Proof.
  unfold Dispatcher.scan_service, bind, get_table. simpl.
  destruct (DispatchHash.finished file_hash name (World.table sid w)) as [r|].
  - destruct (FinishRecord.is_error r); [eexists; split; [reflexivity|]; simpl; auto|].
    destruct (negb _ && _); simpl; eexists; (split; [reflexivity|]); simpl; auto.
  - eexists. split; [reflexivity|]. simpl. auto.
Qed.

Lemma scan_stage_run stage st w :
  let h := World.table sid w in
  ∃ st', for_each (Dispatcher.scan_service self submission sid file_hash) stage st w
           = Some (st', w) ∧
    Dispatcher.started_stages st' = Dispatcher.started_stages st ∧
    (Dispatcher.scan_schedule st' = Dispatcher.scan_schedule st
     ∨ Dispatcher.scan_schedule st' = []) ∧
    (outstanding_ok self file_hash h (Dispatcher.outstanding st) →
     outstanding_ok self file_hash h (Dispatcher.outstanding st')) ∧
    (∀ n, n ∈ Dict.keys (Dispatcher.outstanding st') →
          n ∈ Dict.keys (Dispatcher.outstanding st)
          ∨ (n ∈ stage ∧ DispatchHash.finished file_hash n h = None)) ∧
    (Dispatcher.outstanding st' = [] → stage_finished file_hash h stage).
Proof.
  intros h. revert st. induction stage as [|name stage IH]; intros st; simpl.
  - exists st. split; [done|]. split; [done|]. split; [by left|]. split; [done|].
    split; [by left|]. intros _. constructor.
  - destruct (scan_service_run name st w) as (st1 & Hrun & Hstarted & Hsched & Hout).
    destruct (IH st1) as (st' & Hrun' & Hstarted' & Hsched' & Hok & Hkeys & Hnil).
    exists st'. unfold bind. rewrite Hrun. split; [done|].
    split; [congruence|]. split; [destruct Hsched' as [H1|H1], Hsched as [H2|H2]; rewrite ?H1, ?H2; auto|].
    fold h in Hout.
    destruct (DispatchHash.finished file_hash name h) as [r|] eqn:Hfin.
    + rewrite Hout in *. split; [done|]. split.
      * intros n [?|[? ?]]%Hkeys; [by left|right; split; [by right|done]].
      * intros Hst'. constructor; [by eexists|by apply Hnil].
    + split; [|split].
      * intros [Hnd Hent]. apply Hok. rewrite Hout. split; [by apply dict_set_NoDup|].
        intros n v [[-> ->]|Hin]%dict_set_elem_of; [done|by apply Hent].
      * intros n [Hn|[? ?]]%Hkeys; [|right; split; [by right|done]].
        rewrite Hout in Hn. apply dict_keys_set in Hn as [->|?]; [|by left].
        right. split; [by left|done].
      * intros Hst'. exfalso.
        assert (name ∈ Dict.keys (Dispatcher.outstanding st1)) as Hin
          by (rewrite Hout; apply dict_keys_set; by left).
        (* names once outstanding stay so *)
        clear -Hin Hrun' Hst'. revert st1 Hin Hrun'.
        induction stage as [|m stage IH]; intros st1 Hin; simpl.
        -- intros [= <-]. rewrite Hst' in Hin. by apply elem_of_nil in Hin.
        -- destruct (scan_service_run m st1 w) as (st2 & Hrun2 & _ & _ & Hout2).
           unfold bind. rewrite Hrun2. apply IH.
           destruct (DispatchHash.finished file_hash m (World.table sid w));
             rewrite Hout2; [done|]. apply dict_keys_set. by right.
Qed.

Lemma scan_stages_run stages st w :
  let h := World.table sid w in
  Dispatcher.outstanding st = [] →
  ∃ st', Dispatcher.scan_stages self submission sid file_hash stages st w = Some (st', w) ∧
    outstanding_ok self file_hash h (Dispatcher.outstanding st') ∧
    (Dispatcher.outstanding st' = [] ∨
     ∃ pre stage post,
       stages = pre ++ stage :: post ∧
       Forall (stage_finished file_hash h) pre ∧
       ¬ stage_finished file_hash h stage ∧
       (∀ n, n ∈ Dict.keys (Dispatcher.outstanding st') → n ∈ stage) ∧
       Dispatcher.started_stages st' = Dispatcher.started_stages st ++ pre ++ [stage]).
Proof.
  intros h; subst h. revert st. induction stages as [|stage stages IH]; intros st Hempty; simpl.
  - exists st. split; [done|]. rewrite Hempty. split; [|by left].
    split; [constructor|]. by intros ? ? ?%elem_of_nil.
  - rewrite Hempty.
    destruct (scan_stage_run stage (Dispatcher.start_stage stage stages st) w)
      as (st1 & Hrun & Hstarted & Hsched & Hok & Hkeys & Hnil).
    unfold bind. rewrite Hrun. simpl in *. rewrite Hempty in *.
    assert (outstanding_ok self file_hash (World.table sid w) (Dispatcher.outstanding st1)) as Hok1.
    { apply Hok. split; [constructor|]. by intros ? ? ?%elem_of_nil. }
    assert (Dispatcher.outstanding st1 ≠ [] →
            ∃ pre stage0 post,
              stage :: stages = pre ++ stage0 :: post ∧
              Forall (stage_finished file_hash (World.table sid w)) pre ∧
              ¬ stage_finished file_hash (World.table sid w) stage0 ∧
              (∀ n, n ∈ Dict.keys (Dispatcher.outstanding st1) → n ∈ stage0) ∧
              Dispatcher.started_stages st1
              = Dispatcher.started_stages st ++ pre ++ [stage0]) as Hhere.
    { intros Hne. exists [], stage, stages. split; [done|]. split; [constructor|].
      split; [|split; [|by rewrite Hstarted]].
      - intros Hfin. destruct (Dispatcher.outstanding st1) as [|[n v] o] eqn:Ho; [done|].
        destruct (Hkeys n) as [Hn|[Hn Hnone]]; [apply elem_of_cons; by left|by apply elem_of_nil in Hn|].
        eapply Forall_forall in Hfin; [|exact Hn]. rewrite Hnone in Hfin. by destruct Hfin.
      - intros n [Hn|[Hn _]]%Hkeys; [by apply elem_of_nil in Hn|done]. }
    destruct (Dispatcher.scan_schedule st1) as [|s1 rest] eqn:Hs1.
    + exists st1. split; [done|]. split; [done|].
      destruct (Dispatcher.outstanding st1) eqn:Ho; [by left|right]. by apply Hhere.
    + destruct (Dispatcher.outstanding st1) as [|[n v] o] eqn:Ho.
      * destruct (IH st1 Ho) as (st' & Hrun' & Hok' & Hres).
        exists st'. split; [done|]. split; [done|].
        destruct Hres as [?|(pre & stage0 & post & -> & Hpre & Hst0 & Hin & Hst)]; [by left|].
        right. exists (stage :: pre), stage0, post. split; [done|].
        split; [constructor; [by apply Hnil|done]|]. split; [done|]. split; [done|].
        rewrite Hst, Hstarted. by rewrite <- !app_assoc.
      * exists st1. split; [destruct stages; simpl; by rewrite ?Ho|].
        rewrite Ho. split; [done|]. right. by apply Hhere.
Qed.

End file_dispatch.

(** ** The parts of the world a run leaves alone *)

Global Instance frame_preorder : PreOrder frame.
Proof.
  split; [done|].
  intros w1 w2 w3 (? & ? & ? & ?) (? & ? & ? & ?). unfold frame. naive_solver congruence.
Qed.

Lemma table_put sid h m w :
  World.table sid (World.set_tables (<[sid := h]> m) w) = h.
Proof. unfold World.table. simpl. by rewrite lookup_insert_eq. Qed.

Lemma table_put_ne sid sid' h w w0 :
  sid ≠ sid' →
  World.table sid' (World.set_tables (<[sid := h]> (World.tables w)) w0) = World.table sid' w.
Proof. intros. unfold World.table. simpl. by rewrite lookup_insert_ne. Qed.

Section build_schedule.
Variable re_match : string → string → bool.
Variable self : Dispatcher.t.

(** The two ways [build_schedule] returns: the cached schedule, when there
    is a non-empty one, with the world untouched; or the schedule computed by
    the scheduler, which [schedules.add] stores unless an entry exists. *)
Lemma build_schedule_run fuel sid submission file_hash file_type w schedule w' :
  Dispatcher.build_schedule re_match self fuel sid submission file_hash file_type w
    = Some (schedule, w') →
  let h := World.table sid w in
  (DispatchHash.schedules h !! file_hash = Some schedule ∧ schedule ≠ [] ∧ w' = w) ∨
  ((DispatchHash.schedules h !! file_hash = None
    ∨ DispatchHash.schedules h !! file_hash = Some []) ∧
   (∃ obj, Scheduler.build_schedule re_match (Dispatcher.scheduler self) fuel
             submission file_type = Some obj ∧ schedule = Dict.keys <$> obj) ∧
   w' = World.set_tables
          (<[sid := DispatchHash.schedules_add file_hash schedule h]> (World.tables w)) w).
Proof.
  unfold Dispatcher.build_schedule, bind, get_table, DispatchHash.schedules_get. simpl.
  destruct (DispatchHash.schedules (World.table sid w) !! file_hash) as [[|stage rest]|] eqn:Hc.
  - unfold lift. destruct (Scheduler.build_schedule _ _ _ _ _) as [obj|]; [|done].
    intros [= <- <-]. right. split; [by right|]. split; [by exists obj|done].
  - intros [= <- <-]. by left.
  - unfold lift. destruct (Scheduler.build_schedule _ _ _ _ _) as [obj|]; [|done].
    intros [= <- <-]. right. split; [by left|]. split; [by exists obj|done].
Qed.

(** [build_schedule] changes nothing but the schedule cache. *)
Lemma build_schedule_frame fuel sid submission file_hash file_type w schedule w' :
  Dispatcher.build_schedule re_match self fuel sid submission file_hash file_type w
    = Some (schedule, w') →
  frame w w' ∧ World.effects w' = World.effects w ∧
  World.active_tasks w' = World.active_tasks w ∧
  DispatchHash.dispatched (World.table sid w') = DispatchHash.dispatched (World.table sid w) ∧
  DispatchHash.finished_rows (World.table sid w')
    = DispatchHash.finished_rows (World.table sid w) ∧
  DispatchHash.files (World.table sid w') = DispatchHash.files (World.table sid w) ∧
  (∀ sid', sid' ≠ sid → World.tables w' !! sid' = World.tables w !! sid').
Proof.
  intros [(_ & _ & ->)|(_ & _ & ->)]%build_schedule_run; [done|].
  rewrite table_put. unfold DispatchHash.schedules_add.
  split; [done|]. split; [done|]. split; [done|].
  destruct (DispatchHash.schedules _ !! _); simpl; repeat split; try done;
    intros; by rewrite lookup_insert_ne.
Qed.

End build_schedule.

(** ** The dispatch loop of the file dispatcher *)

Section dispatch_loop.
Variable submission : Submission.t.
Variable task : FileTask.t.

Local Abbreviation sid := (FileTask.sid task).
Local Abbreviation file_hash := (FileInfo.sha256 (FileTask.file_info task)).

Global Instance due_dec now h item : Decision (due task now h item).
Proof. unfold due. destruct item.2; apply _. Defined.

Lemma dispatch_time_mark now h item n :
  DispatchHash.dispatch_time file_hash n (mark task now h item)
  = if decide (n = item.1) then now else DispatchHash.dispatch_time file_hash n h.
Proof.
  unfold mark, DispatchHash.dispatch_time, DispatchHash.dispatch. simpl.
  destruct (decide (n = item.1)) as [->|Hne].
  - by rewrite lookup_insert_eq.
  - rewrite lookup_insert_ne; [done|]. congruence.
Qed.

Lemma dispatch_service_run item w w' :
  Dispatcher.dispatch_service submission task item tt w = Some (tt, w') →
  is_Some item.2 ∧
  if decide (due task (World.now w) (World.table sid w) item) then
    ∃ e, push_of submission task item = Some e ∧
      w' = World.set_tables
             (<[sid := mark task (World.now w) (World.table sid w) item]> (World.tables w))
             (World.set_effects (World.effects w ++ [e]) w)
  else w' = w.
Proof.
  unfold Dispatcher.dispatch_service, bind, get_world, get_table, lift, due, push_of,
    service_task_of. simpl.
  destruct item as [n [service|]]; simpl; [|done].
  destruct (decide (_ - _ < _)) as [Hlt|Hge].
  - intros [= <-]. split; [by eexists|]. destruct (decide _); [lia|done].
  - unfold put_table, modify. intros [= <-]. split; [by eexists|].
    destruct (decide _); [|lia]. eexists. split; [done|]. done.
Qed.

Lemma filter_ext_in {A} (P Q : A → Prop) `{∀ x, Decision (P x)} `{∀ x, Decision (Q x)}
    (l : list A) :
  (∀ x, x ∈ l → P x ↔ Q x) → filter P l = filter Q l.
Proof.
  induction l as [|x l IH]; intros Hext; [done|].
  rewrite !filter_cons.
  rewrite IH by (intros y Hy; apply Hext; by right).
  destruct (decide (P x)) as [HP|HP], (decide (Q x)) as [HQ|HQ]; try done;
    exfalso; apply (Hext x (ltac:(by left))) in HP || apply (Hext x (ltac:(by left))) in HQ;
    done.
Qed.

Lemma dispatch_loop_run items w w' :
  NoDup (Dict.keys items) →
  for_each (Dispatcher.dispatch_service submission task) items tt w = Some (tt, w') →
  let dues := filter (due task (World.now w) (World.table sid w)) items in
  Forall (λ item, is_Some item.2) items ∧
  frame w w' ∧
  World.active_tasks w' = World.active_tasks w ∧
  World.effects w' = World.effects w ++ omap (push_of submission task) dues ∧
  World.table sid w' = foldl (mark task (World.now w)) (World.table sid w) dues ∧
  (∀ sid', sid' ≠ sid → World.table sid' w' = World.table sid' w).
Proof.
  revert w. induction items as [|item items IH]; intros w Hnd; simpl.
  - intros [= <-]. rewrite app_nil_r. done.
  - intros (a & w1 & Hitem & Hrest)%bind_run. destruct a.
    apply NoDup_cons in Hnd as [Hfresh Hnd].
    apply dispatch_service_run in Hitem as [Hsome Hw1].
    destruct (IH w1 Hnd Hrest) as (Hall & Hframe & Hact & Heff & Htab & Hother).
    assert (World.now w1 = World.now w) as Hnow
      by (destruct (decide _); [destruct Hw1 as (? & _ & ->)|subst w1]; done).
    assert (filter (due task (World.now w1) (World.table sid w1)) items
            = filter (due task (World.now w) (World.table sid w)) items) as Hdues.
    { apply filter_ext_in. intros item' Hin. rewrite Hnow. unfold due.
      destruct (decide _); [destruct Hw1 as (? & _ & ->)|by subst w1].
      rewrite table_put. destruct item'.2; [|done].
      rewrite dispatch_time_mark. destruct (decide (item'.1 = item.1)) as [Heq|]; [|done].
      exfalso. apply Hfresh. rewrite <- Heq. by apply list_elem_of_fmap_2. }
    rewrite Hdues, Hnow in *. split; [by constructor|].
    rewrite filter_cons.
    destruct (decide (due task (World.now w) (World.table sid w) item)) as [Hdue|Hdue].
    + destruct Hw1 as (e & He & ->). simpl in *. rewrite He. simpl.
      rewrite table_put in Htab.
      split; [done|]. split; [done|]. split; [by rewrite Heff, <- app_assoc|].
      split; [done|]. intros sid' Hne. rewrite Hother by done. by apply table_put_ne.
    + by subst w1.
Qed.

End dispatch_loop.

(** ** One call of the file dispatcher *)

Section dispatch_file.
Variable re_match : string → string → bool.
Variable self : Dispatcher.t.
Variable fuel : nat.
Variable task : FileTask.t.

Local Abbreviation sid := (FileTask.sid task).
Local Abbreviation file_hash := (FileInfo.sha256 (FileTask.file_info task)).
Local Abbreviation touched w :=
  (World.set_effects
     (World.effects w ++ [TouchWatch sid (Dispatcher.config_timeout self) SUBMISSION_QUEUE]) w).

Lemma due_dispatched now h h' item :
  DispatchHash.dispatched h' = DispatchHash.dispatched h →
  due task now h' item ↔ due task now h item.
Proof. intros Heq. unfold due, DispatchHash.dispatch_time. by rewrite Heq. Qed.

Lemma keys_filter_NoDup {V} (P : string * V → Prop) `{∀ x, Decision (P x)} d :
  NoDup (Dict.keys d) → NoDup (Dict.keys (filter P d)).
Proof.
  intros Hnd. eapply sublist_NoDup; [exact Hnd|].
  unfold Dict.keys. apply fmap_sublist, sublist_filter.
Qed.

Lemma tasks_pushed_push_of submission items :
  tasks_pushed (omap (push_of submission task) items)
  = omap (service_task_of submission task) items.
Proof.
  unfold tasks_pushed, push_of. induction items as [|item items IH]; [done|]. simpl.
  destruct (service_task_of submission task item); simpl; [f_equal|]; exact IH.
Qed.

Lemma dispatch_time_foldl_mark now h items n :
  DispatchHash.dispatch_time file_hash n (foldl (mark task now) h items)
  = if decide (n ∈ Dict.keys items) then now
    else DispatchHash.dispatch_time file_hash n h.
Proof.
  unfold Dict.keys. revert h. induction items as [|item items IH]; intros h; simpl.
  - done.
  - rewrite IH, dispatch_time_mark.
    destruct (decide (n ∈ items.*1)) as [Hin|Hnotin].
    + rewrite decide_True; [done|]. by right.
    + destruct (decide (n = item.1)) as [->|Hne].
      * rewrite decide_True; [done|]. by left.
      * rewrite decide_False; [done|]. by apply not_elem_of_cons.
Qed.

(** What one call does, for a tracked submission. *)
Lemma dispatch_file_run submission_task w w' :
  World.active_tasks w !! sid = Some submission_task →
  Dispatcher.dispatch_file re_match self fuel task w = Some (tt, w') →
  ∃ schedule wb st,
    Dispatcher.build_schedule re_match self fuel sid (SubmissionTask.submission submission_task) file_hash
      (FileInfo.type (FileTask.file_info task)) (touched w) = Some (schedule, wb) ∧
    Dispatcher.scan_stages self (SubmissionTask.submission submission_task) sid file_hash schedule
      (Dispatcher.mkScan schedule [] [] 0 0) wb = Some (st, wb) ∧
    let dues := filter (due task (World.now w) (World.table sid w)) (Dispatcher.outstanding st) in
    Forall (λ item, is_Some item.2) (Dispatcher.outstanding st) ∧
    tasks_pushed (emitted w w') = omap (service_task_of (SubmissionTask.submission submission_task) task) dues ∧
    World.table sid w' = foldl (mark task (World.now w)) (World.table sid wb) dues ∧
    (∀ sid', sid' ≠ sid → World.table sid' w' = World.table sid' w) ∧
    frame w w' ∧
    World.active_tasks w' = World.active_tasks w.
Proof.
  intros Hactive. unfold Dispatcher.dispatch_file.
  intros (w0 & ? & [= <- <-] & Hrun)%bind_run. rewrite Hactive in Hrun.
  apply bind_run in Hrun as ([] & wa & [= <-] & Hrun).
  apply bind_run in Hrun as (schedule & wb & Hbuild & Hrun).
  apply bind_run in Hrun as (st & wc & Hscan & Hrun).
  destruct (scan_stages_run self (SubmissionTask.submission submission_task) sid file_hash schedule
              (Dispatcher.mkScan schedule [] [] 0 0) wb eq_refl)
    as (st' & Hscan' & [Hnd Hent] & _).
  rewrite Hscan in Hscan'. injection Hscan' as Hst Hw. subst st' wc.
  exists schedule, wb, st. split; [done|]. split; [done|].
  destruct (build_schedule_frame _ _ _ _ _ _ _ _ _ _ Hbuild)
    as (Hframe & Heff & Hact & Hdisp & Hfin & Hfiles & Hother).
  simpl in *.
  assert (∀ item, due task (World.now w) (World.table sid w) item
                  ↔ due task (World.now wb) (World.table sid wb) item) as Hdue.
  { intros item. destruct Hframe as (-> & _). simpl. symmetry.
    apply due_dispatched. rewrite Hdisp. done. }
  rewrite (list_filter_iff _ _ _ Hdue).
  destruct (Dispatcher.outstanding st) as [|item items] eqn:Hout.
  - (* the file is done *)
    rewrite filter_nil. simpl. split; [constructor|].
    apply bind_run in Hrun as ([] & w1 & [= <-] & Hrun).
    apply bind_run in Hrun as ([] & w2 & [= <-] & Hrun).
    apply bind_run in Hrun as ([] & w3 & [= <-] & Hrun).
    apply bind_run in Hrun as ([] & w4 & [= <-] & Hrun).
    apply bind_run in Hrun as (h & w5 & [= <- <-] & Hrun).
    assert (∃ es, w' = World.set_effects (World.effects wb ++ es) wb
                  ∧ tasks_pushed es = []) as (es & -> & Hes).
    { destruct (DispatchHash.all_finished _); injection Hrun as <-; simpl;
        rewrite <- ?app_assoc; simpl; eexists; (split; [reflexivity|done]). }
    simpl. split.
    { rewrite (emitted_app w _ ([TouchWatch sid (Dispatcher.config_timeout self) SUBMISSION_QUEUE] ++ es)).
      - done.
      - simpl. rewrite Heff. simpl. by rewrite <- app_assoc. }
    split; [done|]. split; [|done].
    intros sid' Hne. unfold World.table. simpl. by rewrite Hother.
  - rewrite <- Hout in *. clear Hout item items.
    destruct (dispatch_loop_run (SubmissionTask.submission submission_task) task _ _ _ Hnd Hrun)
      as (Hsome & Hframe' & Hact' & Heff' & Htab & Hother').
    split; [done|]. split.
    { rewrite (emitted_app w _ ([TouchWatch sid (Dispatcher.config_timeout self) SUBMISSION_QUEUE]
                ++ omap (push_of (SubmissionTask.submission submission_task) task)
                     (filter (due task (World.now wb) (World.table sid wb))
                        (Dispatcher.outstanding st)))).
      - simpl. apply tasks_pushed_push_of.
      - rewrite Heff', Heff. simpl. by rewrite <- app_assoc. }
    pose proof Hframe as (Hnow & _). rewrite Hnow in Htab |- *. simpl in Htab.
    split; [done|]. split.
    { intros sid' Hne. rewrite Hother' by done. unfold World.table. by rewrite Hother. }
    split; [|congruence]. etransitivity; [|exact Hframe']. done.
Qed.

End dispatch_file.

Lemma finished_rows_eq sha n h h' :
  DispatchHash.finished_rows h' = DispatchHash.finished_rows h →
  DispatchHash.finished sha n h' = DispatchHash.finished sha n h.
Proof. intros Heq. unfold DispatchHash.finished. by rewrite Heq. Qed.

Lemma stage_finished_rows sha h h' stage :
  DispatchHash.finished_rows h' = DispatchHash.finished_rows h →
  stage_finished sha h' stage ↔ stage_finished sha h stage.
Proof.
  intros Heq. unfold stage_finished. apply Forall_proper; [|done].
  intros n. by rewrite (finished_rows_eq _ _ _ _ Heq).
Qed.

Lemma service_task_of_elem submission task t (items : list (string * option Service.t)) :
  t ∈ omap (service_task_of submission task) items →
  ∃ service, (ServiceTask.service_name t, Some service) ∈ items.
Proof.
  intros ([n [service|]] & Hin & Ht)%list_elem_of_omap; [|done].
  injection Ht as <-. by exists service.
Qed.

Lemma omap_cons {A B} (f : A → option B) x l :
  omap f (x :: l) = match f x with Some y => y :: omap f l | None => omap f l end.
Proof. reflexivity. Qed.

Lemma pushes_NoDup submission task (items : list (string * option Service.t)) n :
  NoDup (Dict.keys items) →
  (length (filter (λ t, ServiceTask.service_name t = n)
             (omap (service_task_of submission task) items)) ≤ 1)%nat.
Proof.
  unfold Dict.keys. induction items as [|[m v] items IH]; [simpl; lia|].
  rewrite fmap_cons. intros [Hfresh Hnd]%NoDup_cons. rewrite omap_cons.
  destruct v as [service|]; [|by apply IH].
  change (service_task_of submission task (m, Some service)) with
    (Some (ServiceTask.mk (FileTask.sid task) m
             (Dispatcher.build_service_config service submission)
             (FileTask.file_info task) (FileTask.depth task) (FileTask.max_files task))).
  cbv beta iota. simpl in Hfresh. rewrite filter_cons. cbn [ServiceTask.service_name].
  destruct (decide (m = n)) as [->|Hne]; [|by apply IH].
  destruct (filter _ (omap (service_task_of submission task) items)) as [|t ts] eqn:Hf;
    [simpl; lia|].
  exfalso. apply Hfresh.
  assert (t ∈ filter (λ t, ServiceTask.service_name t = n)
                (omap (service_task_of submission task) items)) as Ht
    by (rewrite Hf; by left).
  apply list_elem_of_filter in Ht as [<- Ht].
  apply service_task_of_elem in Ht as [service' Hin].
  apply list_elem_of_fmap. by exists (ServiceTask.service_name t, Some service').
Qed.

Section dispatch_file_claims.
Variable re_match : string → string → bool.
Variable self : Dispatcher.t.
Variable fuel : nat.
Variable task : FileTask.t.

Local Abbreviation sid := (FileTask.sid task).
Local Abbreviation file_hash := (FileInfo.sha256 (FileTask.file_info task)).

(** One call pushes at most one task for a service, and pushes one only when
    the dispatch window of the service has elapsed; the push stamps the
    dispatch time. *)
Lemma pushes_per_call submission_task w w' name service :
  World.active_tasks w !! sid = Some submission_task →
  Scheduler.services (Dispatcher.scheduler self) !! name = Some service →
  Dispatcher.dispatch_file re_match self fuel task w = Some (tt, w') →
  (pushes name (emitted w w') ≤ 1)%nat ∧
  ((0 < pushes name (emitted w w'))%nat →
   Service.timeout service
     ≤ World.now w - DispatchHash.dispatch_time file_hash name (World.table sid w) ∧
   DispatchHash.dispatch_time file_hash name (World.table sid w') = World.now w).
Proof.
  intros Hactive Hservice Hrun.
  destruct (dispatch_file_run _ _ _ _ _ _ _ Hactive Hrun)
    as (schedule & wb & st & Hbuild & Hscan & Hsome & Hpushed & Htab & _).
  destruct (scan_stages_run self (SubmissionTask.submission submission_task) sid file_hash
              schedule (Dispatcher.mkScan schedule [] [] 0 0) wb eq_refl)
    as (st' & Hscan' & [Hnd Hent] & _).
  rewrite Hscan in Hscan'. injection Hscan' as Hst. subst st'.
  unfold pushes. rewrite Hpushed. split.
  - apply pushes_NoDup. by apply keys_filter_NoDup.
  - intros Hpos.
    destruct (filter _ (omap _ _)) as [|t ts] eqn:Hf; [simpl in Hpos; lia|].
    assert (t ∈ filter (λ t, ServiceTask.service_name t = name)
              (omap (service_task_of (SubmissionTask.submission submission_task) task)
                 (filter (due task (World.now w) (World.table sid w))
                    (Dispatcher.outstanding st)))) as Ht
      by (rewrite Hf; by left).
    apply list_elem_of_filter in Ht as [<- Ht].
    apply service_task_of_elem in Ht as [service' Hin].
    pose proof Hin as [Hdue Hin']%list_elem_of_filter.
    destruct (Hent _ _ Hin') as [Hcat _]. rewrite Hservice in Hcat. injection Hcat as ->.
    split; [exact Hdue|].
    rewrite Htab, dispatch_time_foldl_mark, decide_True; [done|].
    apply list_elem_of_fmap. by exists (ServiceTask.service_name t, Some service).
Qed.

(** A call changes the dispatch time of a service only when its dispatch
    window has elapsed. *)
Lemma stamped_when_due submission_task w w' name service :
  World.active_tasks w !! sid = Some submission_task →
  Scheduler.services (Dispatcher.scheduler self) !! name = Some service →
  Dispatcher.dispatch_file re_match self fuel task w = Some (tt, w') →
  DispatchHash.dispatch_time file_hash name (World.table sid w')
    ≠ DispatchHash.dispatch_time file_hash name (World.table sid w) →
  Service.timeout service
    ≤ World.now w - DispatchHash.dispatch_time file_hash name (World.table sid w).
Proof.
  intros Hactive Hservice Hrun Hstamp.
  destruct (dispatch_file_run _ _ _ _ _ _ _ Hactive Hrun)
    as (schedule & wb & st & Hbuild & Hscan & _ & _ & Htab & _).
  destruct (build_schedule_frame _ _ _ _ _ _ _ _ _ _ Hbuild) as (_ & _ & _ & Hdisp & _).
  change (World.table sid (World.set_effects _ w)) with (World.table sid w) in Hdisp.
  destruct (scan_stages_run self (SubmissionTask.submission submission_task) sid file_hash
              schedule (Dispatcher.mkScan schedule [] [] 0 0) wb eq_refl)
    as (st' & Hscan' & [_ Hent] & _).
  rewrite Hscan in Hscan'. injection Hscan' as Hst. subst st'.
  rewrite Htab, dispatch_time_foldl_mark in Hstamp.
  destruct (decide _) as [Hkey|Hkey].
  - apply list_elem_of_fmap in Hkey as ([n v] & -> & Hitem).
    apply list_elem_of_filter in Hitem as [Hdue Hitem].
    destruct (Hent _ _ Hitem) as [-> _]. unfold due in Hdue. simpl in Hdue, Hservice.
    by rewrite Hservice in Hdue.
  - exfalso. apply Hstamp. unfold DispatchHash.dispatch_time. by rewrite Hdisp.
Qed.

(** C4. Stage ordering in [dispatch_file]: either nothing is dispatched, or
    the schedule splits into stages that are fully finished, the first stage
    with a service without finish record, and the rest; the stage loop has
    started exactly the stages up to that one, every task pushed is for a
    service of that stage without finish record, and only services of that
    stage get a new dispatch time. *)
Theorem stage_ordering submission_task w w' :
  let submission := SubmissionTask.submission submission_task in
  let h := World.table sid w in
  World.active_tasks w !! sid = Some submission_task →
  Dispatcher.dispatch_file re_match self fuel task w = Some (tt, w') →
  ∃ schedule wa wb st,
    World.tables wa = World.tables w ∧
    Dispatcher.build_schedule re_match self fuel sid submission file_hash
      (FileInfo.type (FileTask.file_info task)) wa = Some (schedule, wb) ∧
    Dispatcher.scan_stages self submission sid file_hash schedule
      (Dispatcher.mkScan schedule [] [] 0 0) wb = Some (st, wb) ∧
    ((tasks_pushed (emitted w w') = [] ∧
      DispatchHash.dispatched (World.table sid w') = DispatchHash.dispatched h)
     ∨
     ∃ pre stage post,
       schedule = pre ++ stage :: post ∧
       Forall (stage_finished file_hash h) pre ∧
       ¬ stage_finished file_hash h stage ∧
       Dispatcher.started_stages st = pre ++ [stage] ∧
       (∀ t, t ∈ tasks_pushed (emitted w w') →
             ServiceTask.service_name t ∈ stage ∧
             DispatchHash.finished file_hash (ServiceTask.service_name t) h = None ∧
             DispatchHash.dispatch_time file_hash (ServiceTask.service_name t)
               (World.table sid w') = World.now w) ∧
       (∀ name, DispatchHash.dispatch_time file_hash name (World.table sid w')
                ≠ DispatchHash.dispatch_time file_hash name h →
                name ∈ stage)).
Proof.
  intros submission h Hactive Hrun. subst submission h.
  destruct (dispatch_file_run _ _ _ _ _ _ _ Hactive Hrun)
    as (schedule & wb & st & Hbuild & Hscan & Hsome & Hpushed & Htab & _).
  destruct (build_schedule_frame _ _ _ _ _ _ _ _ _ _ Hbuild)
    as (_ & _ & _ & Hdisp & Hfin & _).
  change (World.table sid (World.set_effects _ w)) with (World.table sid w) in Hdisp, Hfin.
  destruct (scan_stages_run self (SubmissionTask.submission submission_task) sid file_hash
              schedule (Dispatcher.mkScan schedule [] [] 0 0) wb eq_refl)
    as (st' & Hscan' & [Hnd Hent] & Hstages).
  rewrite Hscan in Hscan'. injection Hscan' as Hst. subst st'.
  eexists schedule, _, wb, st. split; [|split; [exact Hbuild|split; [exact Hscan|]]]; [done|].
  destruct Hstages as [Hnil|(pre & stage & post & -> & Hpre & Hstage & Hin & Hstarted)].
  - left. rewrite Hnil in *. rewrite filter_nil in *. simpl in *. split; [done|].
    by rewrite Htab.
  - right. exists pre, stage, post. split; [done|].
    split; [eapply Forall_impl; [exact Hpre|]; intros s; by apply stage_finished_rows|].
    split; [intros Hs; apply Hstage; by apply (stage_finished_rows _ _ _ _ Hfin)|].
    split; [done|]. split.
    + intros t Ht. rewrite Hpushed in Ht.
      apply service_task_of_elem in Ht as [service Hitem].
      pose proof Hitem as [Hdue Hitem']%list_elem_of_filter.
      split; [|split].
      * apply Hin. apply list_elem_of_fmap. by eexists (_, _).
      * destruct (Hent _ _ Hitem') as [_ Hnone].
        by rewrite <- (finished_rows_eq _ _ _ _ Hfin).
      * rewrite Htab, dispatch_time_foldl_mark, decide_True; [done|].
        apply list_elem_of_fmap. by eexists (_, _).
    + intros name Hname. rewrite Htab, dispatch_time_foldl_mark in Hname.
      destruct (decide _) as [Hkey|Hkey].
      * apply Hin. apply list_elem_of_fmap in Hkey as (item & -> & Hitem).
        apply list_elem_of_filter in Hitem as [_ Hitem].
        apply list_elem_of_fmap. by exists item.
      * exfalso. apply Hname. unfold DispatchHash.dispatch_time. by rewrite Hdisp.
Qed.

(** C5. Re-dispatch window of [dispatch_file]: a call made while
    [now - dispatch_time < timeout] pushes nothing for the service; a task is
    pushed, and the dispatch time changed, only when the window has elapsed,
    and the push stamps the dispatch time; a call pushes at most one task per
    service, and so do two calls less than [timeout] apart. *)
Theorem redispatch_window submission_task w w1 t2 w2 name service :
  World.active_tasks w !! sid = Some submission_task →
  Scheduler.services (Dispatcher.scheduler self) !! name = Some service →
  Dispatcher.dispatch_file re_match self fuel task w = Some (tt, w1) →
  Dispatcher.dispatch_file re_match self fuel task (World.set_now t2 w1) = Some (tt, w2) →
  (World.now w - DispatchHash.dispatch_time file_hash name (World.table sid w)
     < Service.timeout service →
   pushes name (emitted w w1) = 0%nat) ∧
  (t2 - DispatchHash.dispatch_time file_hash name (World.table sid w1)
     < Service.timeout service →
   pushes name (emitted w1 w2) = 0%nat) ∧
  ((0 < pushes name (emitted w w1))%nat →
   Service.timeout service
     ≤ World.now w - DispatchHash.dispatch_time file_hash name (World.table sid w) ∧
   DispatchHash.dispatch_time file_hash name (World.table sid w1) = World.now w) ∧
  (DispatchHash.dispatch_time file_hash name (World.table sid w1)
     ≠ DispatchHash.dispatch_time file_hash name (World.table sid w) →
   Service.timeout service
     ≤ World.now w - DispatchHash.dispatch_time file_hash name (World.table sid w)) ∧
  (pushes name (emitted w w1) ≤ 1)%nat ∧
  (pushes name (emitted w1 w2) ≤ 1)%nat ∧
  (t2 - World.now w < Service.timeout service →
   (pushes name (emitted w w1) + pushes name (emitted w1 w2) ≤ 1)%nat).
Proof.
  intros Hactive Hservice Hrun1 Hrun2.
  destruct (pushes_per_call _ _ _ _ _ Hactive Hservice Hrun1) as [Hle1 Hpos1].
  destruct (dispatch_file_run _ _ _ _ _ _ _ Hactive Hrun1) as (_ & _ & _ & _ & _ & _ & _ & _ & _ & _ & Hact).
  assert (World.active_tasks (World.set_now t2 w1) !! sid = Some submission_task) as Hactive2
    by (simpl; by rewrite Hact).
  destruct (pushes_per_call _ _ _ _ _ Hactive2 Hservice Hrun2) as [Hle2 Hpos2].
  change (emitted (World.set_now t2 w1) w2) with (emitted w1 w2) in *.
  change (World.table sid (World.set_now t2 w1)) with (World.table sid w1) in *.
  change (World.now (World.set_now t2 w1)) with t2 in *.
  repeat split; try done.
  - intros Hlt. destruct (pushes name (emitted w w1)); [done|]. destruct Hpos1; lia.
  - intros Hlt. destruct (pushes name (emitted w1 w2)); [done|]. destruct Hpos2; lia.
  - by apply Hpos1.
  - by apply Hpos1.
  - by eapply stamped_when_due.
  - intros Hlt. destruct (pushes name (emitted w w1)) as [|k] eqn:Hk; [lia|].
    destruct Hpos1 as [_ Hstamp]; [lia|].
    destruct (pushes name (emitted w1 w2)); [lia|]. destruct Hpos2; lia.
Qed.

End dispatch_file_claims.

(** ** The walk of the submission dispatcher *)

Lemma quiet_observed es :
  Forall quiet es → saved_of es = [] ∧ files_pushed es = [] ∧ tasks_pushed es = [].
Proof.
  induction 1 as [|e es He _ (IH1 & IH2 & IH3)]; [done|].
  unfold saved_of, files_pushed, tasks_pushed in *.
  destruct e; try done; simpl; by rewrite ?IH1, ?IH2, ?IH3.
Qed.

Section walk.
Variable re_match : string → string → bool.
Variable self : Dispatcher.t.

Lemma build_schedule_quiet fuel sid submission file_hash file_type :
  respects (emits quiet)
    (Dispatcher.build_schedule re_match self fuel sid submission file_hash file_type).
Proof.
  intros w schedule w' (_ & Heff & _)%build_schedule_frame.
  exists []. by rewrite app_nil_r.
Qed.

Lemma walk_service_quiet submission max_files file_task name st :
  respects (emits quiet)
    (Dispatcher.walk_service self submission max_files file_task name st).
Proof.
  unfold Dispatcher.walk_service.
  apply respects_bind; [apply _|apply respects_get_world; apply _|]. intros w0.
  apply respects_bind; [apply _|apply respects_get_table; apply _|]. intros h.
  apply respects_bind; [apply _|apply respects_lift; apply _|]. intros service.
  destruct (decide _); [apply respects_ret; apply _|].
  destruct (DispatchHash.finished _ _ _) as [row|]; [|apply respects_ret; apply _].
  destruct (FinishRecord.is_error row); [apply respects_ret; apply _|].
  destruct (World.result_store w0 !! _); [apply respects_ret; apply _|].
  apply respects_bind; [apply _|by apply respects_emit|]. intros _.
  apply respects_ret; apply _.
Qed.

Lemma walk_schedule_quiet submission max_files file_task stages st :
  respects (emits quiet)
    (Dispatcher.walk_schedule self submission max_files file_task stages st).
Proof.
  revert st. induction stages as [|stage stages IH]; intros st; simpl.
  - apply respects_ret; apply _.
  - apply respects_bind; [apply _| |].
    + apply respects_for_each; [apply _|]. intros. apply walk_service_quiet.
    + intros st'. destruct (Dispatcher.schedule st'); [apply respects_ret; apply _|apply IH].
Qed.

Lemma walk_quiet fuel submission max_files st :
  respects (emits quiet) (Dispatcher.walk re_match self fuel submission max_files st).
Proof.
  revert st. induction fuel as [|fuel IH]; intros st; simpl.
  - destruct (Dispatcher.unchecked_files st); [apply respects_ret; apply _|].
    apply respects_raise.
  - destruct (Dispatcher.unchecked_files st); [apply respects_ret; apply _|].
    apply respects_bind; [apply _|apply build_schedule_quiet|]. intros schedule.
    apply respects_bind; [apply _|apply walk_schedule_quiet|]. intros st'. apply IH.
Qed.

Lemma seed_file_quiet sid max_files sha l :
  respects (emits quiet) (Dispatcher.seed_file sid max_files sha l).
Proof.
  unfold Dispatcher.seed_file.
  apply respects_bind; [apply _|apply respects_get_world; apply _|]. intros w0.
  destruct (World.file_store w0 !! sha); [apply respects_ret; apply _|].
  apply respects_bind; [apply _|by apply respects_emit|]. intros _.
  apply respects_ret; apply _.
Qed.

Lemma walk_submission_quiet fuel task :
  respects (emits quiet) (Dispatcher.walk_submission re_match self fuel task).
Proof.
  unfold Dispatcher.walk_submission.
  apply respects_bind; [apply _|apply respects_get_world; apply _|]. intros w0.
  apply respects_bind; [apply _| |]. 
  { destruct (World.active_tasks w0 !! _); [apply respects_ret; apply _|].
    apply respects_modify. intros w. exists []. by rewrite app_nil_r. }
  intros _. apply respects_bind; [apply _|by apply respects_emit|]. intros _.
  apply respects_bind; [apply _| |]. 
  { destruct (_ && _); [by apply respects_emit|apply respects_ret; apply _]. }
  intros _. apply respects_bind; [apply _| |].
  { apply respects_for_each; [apply _|]. intros. apply seed_file_quiet. }
  intros unchecked. apply walk_quiet.
Qed.

End walk.

(** ** Depth of a file in the extraction tree *)

Lemma list_min_spec l m :
  Dispatcher.list_min l = Some m → m ∈ l ∧ Forall (λ x, m ≤ x) l.
Proof.
  destruct l as [|x l]; [done|]. simpl. intros [= <-].
  revert x. induction l as [|y l IH]; intros x; simpl.
  - split; [by left|]. constructor; [lia|constructor].
  - destruct (IH (Z.min x y)) as [Hin Hle]. split.
    + apply elem_of_cons in Hin as [Heq|Hin]; [|by right; right].
      rewrite Heq. destruct (Z.min_spec x y) as [[_ ->]|[_ ->]]; [by left|right; by left].
    + apply Forall_cons in Hle as [Hm Hle].
      constructor; [lia|]. constructor; [lia|done].
Qed.

Lemma file_depth_unfold fuel file_parents sha d :
  Dispatcher.file_depth fuel file_parents sha = Some d →
  ∃ fuel', fuel = S fuel' ∧
    match Dict.get sha file_parents with
    | None => d = 0
    | Some parents =>
        ∃ depths,
          Forall2 (λ p x, Dispatcher.file_depth fuel' file_parents p = Some x) parents depths ∧
          Dispatcher.list_min depths = Some (d - 1)
    end.
Proof.
  destruct fuel as [|fuel']; [done|]. simpl. intros H. exists fuel'. split; [done|].
  destruct (Dict.get sha file_parents) as [parents|]; [|by injection H as <-].
  destruct (mapM _ parents) as [depths|] eqn:Hmap; simpl in H; [|done].
  destruct (Dispatcher.list_min depths) as [m|] eqn:Hmin; simpl in H; [|done].
  injection H as <-. exists depths. split; [by apply mapM_Some|].
  rewrite Hmin. f_equal. lia.
Qed.

Lemma file_depth_mono fuel file_parents sha d :
  Dispatcher.file_depth fuel file_parents sha = Some d →
  Dispatcher.file_depth (S fuel) file_parents sha = Some d.
Proof.
  revert sha d. induction fuel as [|fuel IH]; intros sha d; [done|].
  intros (fuel' & [= <-] & H)%file_depth_unfold.
  change (Dispatcher.file_depth (S (S fuel)) file_parents sha) with
    (match Dict.get sha file_parents with
     | None => Some 0
     | Some parents =>
         depths ← mapM (Dispatcher.file_depth (S fuel) file_parents) parents;
         m ← Dispatcher.list_min depths;
         Some (m + 1)
     end).
  destruct (Dict.get sha file_parents) as [parents|]; [|by rewrite H].
  destruct H as (depths & Hall & Hmin).
  rewrite (proj2 (mapM_Some _ parents depths)).
  - simpl. rewrite Hmin. simpl. f_equal. lia.
  - eapply Forall2_impl; [exact Hall|]. intros p x. apply IH.
Qed.

(** The depth computed is the length of a shortest parent path to a file
    without recorded parents. *)
Lemma file_depth_shortest fuel file_parents sha d :
  Dispatcher.file_depth fuel file_parents sha = Some d →
  0 ≤ d ∧ parent_path file_parents sha (Z.to_nat d) ∧
  ∀ n, parent_path file_parents sha n → d ≤ Z.of_nat n.
Proof.
  revert sha d. induction fuel as [|fuel IH]; intros sha d; [done|].
  intros (fuel' & [= <-] & H)%file_depth_unfold.
  destruct (Dict.get sha file_parents) as [parents|] eqn:Hparents.
  - destruct H as (depths & Hall & Hmin).
    apply list_min_spec in Hmin as [Hin Hle].
    apply list_elem_of_lookup in Hin as [i Hi].
    destruct (Forall2_lookup_r _ _ _ _ _ Hall Hi) as (p & Hp & Hdp).
    destruct (IH _ _ Hdp) as (Hpos & Hpath & Hshort).
    split; [lia|]. split.
    + replace (Z.to_nat d) with (S (Z.to_nat (d - 1))) by lia.
      eapply path_step; [exact Hparents| |exact Hpath]. by eapply list_elem_of_lookup_2.
    + intros n Hn. inversion Hn as [? Hroot|? parents' q m Hparents' Hq Hqm]; subst.
      * congruence.
      * rewrite Hparents in Hparents'. injection Hparents' as <-.
        apply list_elem_of_lookup in Hq as [j Hj].
        destruct (Forall2_lookup_l _ _ _ _ _ Hall Hj) as (x & Hx & Hdx).
        destruct (IH _ _ Hdx) as (_ & _ & Hshortq).
        specialize (Hshortq _ Hqm).
        eapply Forall_lookup_1 in Hle; [|exact Hx]. simpl in Hle. lia.
  - subst d. split; [done|]. split; [by constructor|]. intros n _. lia.
Qed.

(** X25. [file_depth] returns, given fuel, when the parent edges go down a rank
    (the parent map has no cycle) and no list of parents is empty. *)
Lemma file_depth_total (rank : string → nat) file_parents sha fuel :
  (∀ sha parents parent,
     Dict.get sha file_parents = Some parents → parent ∈ parents →
     (rank parent < rank sha)%nat) →
  (∀ sha, Dict.get sha file_parents ≠ Some []) →
  (rank sha < fuel)%nat →
  is_Some (Dispatcher.file_depth fuel file_parents sha).
Proof.
  intros Hrank Hnonempty. revert sha.
  induction fuel as [|fuel IH]; intros sha Hfuel; [lia|]. simpl.
  destruct (Dict.get sha file_parents) as [parents|] eqn:Hparents; [|by eexists].
  assert (∃ depths, mapM (Dispatcher.file_depth fuel file_parents) parents = Some depths
                    ∧ length depths = length parents) as (depths & -> & Hlen).
  { assert (∀ p, p ∈ parents → is_Some (Dispatcher.file_depth fuel file_parents p)) as Hall.
    { intros p Hp. apply IH. specialize (Hrank _ _ _ Hparents Hp). lia. }
    clear Hparents. induction parents as [|p parents IHp]; [by exists []|].
    destruct (Hall p) as [d Hd]; [by left|].
    destruct IHp as (depths & Hmap & Hlen); [intros; apply Hall; by right|].
    exists (d :: depths). split; [|simpl; by rewrite Hlen].
    apply mapM_Some. constructor; [done|]. by apply mapM_Some. }
  simpl. destruct depths as [|d depths].
  - destruct parents; [|done]. by destruct (Hnonempty sha).
  - by eexists.
Qed.

(** [apply_depths] stamps each pending task with the depth of its file. *)
Lemma apply_depths_spec fuel file_parents pending pending' :
  Dispatcher.apply_depths fuel file_parents pending = Some pending' →
  ∀ key ft', (key, ft') ∈ pending' →
    ∃ ft, (key, ft) ∈ pending ∧
      FileTask.file_info ft' = FileTask.file_info ft ∧
      Dispatcher.file_depth fuel file_parents (FileInfo.sha256 (FileTask.file_info ft))
        = Some (FileTask.depth ft').
Proof.
  unfold Dispatcher.apply_depths. intros Hall%mapM_Some key ft' Hin.
  apply list_elem_of_lookup in Hin as [i Hi].
  destruct (Forall2_lookup_r _ _ _ _ _ Hall Hi) as ([k ft] & Hk & Hd).
  simpl in Hd.
  destruct (Dispatcher.file_depth _ _ _) as [d|] eqn:Hdepth; simpl in Hd; [|done].
  injection Hd as <- <-. exists ft. split; [by eapply list_elem_of_lookup_2|]. done.
Qed.

(** ** Admission and the end of a submission pass *)

Lemma admit_files_run sid max_files pending w admitted w' :
  Dispatcher.admit_files sid max_files pending w = Some (admitted, w') →
  admitted `sublist_of` pending ∧
  World.effects w' = World.effects w ∧
  frame w w' ∧
  World.active_tasks w' = World.active_tasks w ∧
  DispatchHash.schedules (World.table sid w') = DispatchHash.schedules (World.table sid w) ∧
  DispatchHash.finished_rows (World.table sid w')
    = DispatchHash.finished_rows (World.table sid w) ∧
  (∀ sid', sid' ≠ sid → World.table sid' w' = World.table sid' w) ∧
  DispatchHash.files (World.table sid w) ⊆ DispatchHash.files (World.table sid w') ∧
  (∀ key ft, (key, ft) ∈ admitted → key ∈ DispatchHash.files (World.table sid w')).
Proof.
  revert w admitted w'. induction pending as [|[sha ft] pending IH]; intros w admitted w'; simpl.
  - intros [= <- <-]. repeat split; try done. by intros ? ? ?%elem_of_nil.
  - unfold bind at 1, get_table at 1.
    destruct (DispatchHash.add_file sha max_files (World.table sid w)) as [ok h] eqn:Hadd.
    intros ([] & w1 & [= <-] & Hrun)%bind_run.
    apply bind_run in Hrun as (rest & w2 & Hrest & [= <- <-]).
    destruct (IH _ _ _ Hrest)
      as (Hsub & Heff & Hframe & Hact & Hsched & Hfin & Hother & Hfiles & Hin).
    rewrite table_put in Hsched, Hfin, Hfiles.
    assert (DispatchHash.schedules h = DispatchHash.schedules (World.table sid w) ∧
            DispatchHash.finished_rows h = DispatchHash.finished_rows (World.table sid w) ∧
            DispatchHash.files (World.table sid w) ⊆ DispatchHash.files h ∧
            (ok = true → sha ∈ DispatchHash.files h)) as (Hs & Hf & Hfi & Hok).
    { unfold DispatchHash.add_file in Hadd.
      destruct (decide (sha ∈ _)); [injection Hadd as <- <-; done|].
      destruct (decide (_ < _)); injection Hadd as <- <-; simpl; [|done].
      repeat split; set_solver. }
    split; [destruct ok; [by apply sublist_skip|by apply sublist_cons]|].
    split; [done|]. split; [done|]. split; [done|].
    split; [congruence|]. split; [congruence|]. split.
    { intros sid' Hne. rewrite Hother by done. by apply table_put_ne. }
    split; [set_solver|].
    intros key ft'. destruct ok; [|by apply Hin].
    intros [[= -> ->]|?]%elem_of_cons; [|by eapply Hin]. apply Hfiles. by apply Hok.
Qed.

Section submission_pass.
Variable re_match : string → string → bool.
Variable self : Dispatcher.t.

Lemma dispatch_submission_run fuel task w w' :
  let submission := SubmissionTask.submission task in
  Dispatcher.dispatch_submission re_match self fuel task w = Some (tt, w') →
  ∃ st w1 pending admitted w2,
    Dispatcher.walk_submission re_match self fuel task w = Some (st, w1) ∧
    Dispatcher.apply_depths fuel (Dispatcher.file_parents st) (Dispatcher.pending_files st)
      = Some pending ∧
    Dispatcher.admit_files (Submission.sid submission)
      (Z.of_nat (length (Submission.files submission))
       + Params.max_extracted (Submission.params submission))
      (filter (λ kv, FileTask.depth kv.2 < Dispatcher.max_extraction_depth self) pending) w1
      = Some (admitted, w2) ∧
    match admitted with
    | _ :: _ =>
        w' = World.set_effects (World.effects w2 ++ (PushFile <$> Dict.values admitted)) w2
    | [] =>
        Dispatcher.finalize_submission task (Dispatcher.result_classifications st)
          (Dispatcher.max_score st) (Z.of_nat (size (Dispatcher.encountered_files st))) w2
        = Some (tt, w')
    end.
Proof.
  intros submission. unfold Dispatcher.dispatch_submission.
  intros (st & w1 & Hwalk & Hrun)%bind_run.
  apply bind_run in Hrun as (pending & w1' & Hdepths & Hrun).
  unfold lift in Hdepths.
  destruct (Dispatcher.apply_depths _ _ _) as [pending'|] eqn:Hd; [|done].
  injection Hdepths as H1 H2. subst pending w1'.
  apply bind_run in Hrun as (admitted & w2 & Hadmit & Hrun).
  exists st, w1, pending', admitted, w2. split; [done|]. split; [done|]. split; [done|].
  destruct admitted; [done|]. rewrite for_each_emit in Hrun. by injection Hrun as <-.
Qed.

Lemma files_pushed_push (tasks : list FileTask.t) : files_pushed (PushFile <$> tasks) = tasks.
Proof. unfold files_pushed. induction tasks; [done|]. simpl. by f_equal. Qed.

(** C9. Depth bound of [dispatch_submission]: every file task pushed to the
    file queue carries the depth [file_depth] computes from the parent map of
    the walk: 0 without recorded parents, otherwise one more than the least
    depth of its parents; that depth is the length of a shortest parent path,
    and it is below [max_extraction_depth]. *)
Theorem pending_depth_bound fuel task w w' :
  Dispatcher.dispatch_submission re_match self fuel task w = Some (tt, w') →
  ∃ st w1,
    Dispatcher.walk_submission re_match self fuel task w = Some (st, w1) ∧
    ∀ ft, ft ∈ files_pushed (emitted w w') →
      let sha := FileInfo.sha256 (FileTask.file_info ft) in
      let file_parents := Dispatcher.file_parents st in
      Dispatcher.file_depth fuel file_parents sha = Some (FileTask.depth ft) ∧
      (Dict.get sha file_parents = None → FileTask.depth ft = 0) ∧
      (∀ parents, Dict.get sha file_parents = Some parents →
         ∃ depths,
           Forall2 (λ p d, Dispatcher.file_depth fuel file_parents p = Some d)
                   parents depths ∧
           Dispatcher.list_min depths = Some (FileTask.depth ft - 1)) ∧
      parent_path file_parents sha (Z.to_nat (FileTask.depth ft)) ∧
      (∀ n, parent_path file_parents sha n → FileTask.depth ft ≤ Z.of_nat n) ∧
      0 ≤ FileTask.depth ft < Dispatcher.max_extraction_depth self.
Proof.
  intros (st & w1 & pending & admitted & w2 & Hwalk & Hdepths & Hadmit & Hend)%dispatch_submission_run.
  exists st, w1. split; [done|]. intros ft Hft sha file_parents.
  destruct (emits_emitted _ _ _ (walk_submission_quiet _ _ _ _ _ _ _ Hwalk)) as [Heff1 Hquiet].
  apply quiet_observed in Hquiet as (_ & Hnone & _).
  destruct (admit_files_run _ _ _ _ _ _ Hadmit) as (Hsub & Heff2 & _).
  assert (ft ∈ Dict.values admitted) as Hin.
  { destruct admitted as [|kv admitted].
    - destruct (finalize_submission_run task (Dispatcher.result_classifications st)
                  (Dispatcher.max_score st)
                  (Z.of_nat (size (Dispatcher.encountered_files st))) w2)
        as (w'' & Hrun & (es & Heff3 & _ & Hfiles & _) & _).
      rewrite Hend in Hrun. injection Hrun as <-.
      rewrite (emitted_app w w' (emitted w w1 ++ es)) in Hft.
      + rewrite files_pushed_app, Hnone, Hfiles in Hft. by apply elem_of_nil in Hft.
      + rewrite Heff3, Heff2, Heff1. by rewrite app_assoc.
    - subst w'.
      rewrite (emitted_app w _ (emitted w w1 ++ (PushFile <$> Dict.values (kv :: admitted))))
        in Hft.
      + by rewrite files_pushed_app, Hnone, files_pushed_push in Hft.
      + simpl. rewrite Heff2, Heff1. by rewrite app_assoc. }
  apply list_elem_of_fmap in Hin as ([key ft0] & -> & Hin). subst sha file_parents. simpl.
  eapply elem_of_sublist in Hin; [|exact Hsub].
  apply list_elem_of_filter in Hin as [Hlimit Hin]. simpl in Hlimit.
  destruct (apply_depths_spec _ _ _ _ Hdepths _ _ Hin) as (ft & _ & Hinfo & Hdepth).
  rewrite Hinfo.
  destruct (file_depth_shortest _ _ _ _ Hdepth) as (Hpos & Hpath & Hshort).
  destruct (file_depth_unfold _ _ _ _ Hdepth) as (fuel' & -> & Hrec).
  split; [done|]. split; [|split; [|split; [done|split; [done|lia]]]].
  - intros Hroot. by rewrite Hroot in Hrec.
  - intros parents Hparents. rewrite Hparents in Hrec.
    destruct Hrec as (depths & Hall & Hmin). exists depths. split; [|done].
    eapply Forall2_impl; [exact Hall|]. intros p d. apply file_depth_mono.
Qed.

End submission_pass.

(** ** Classification of a file by the walk *)

Lemma walk_extracted_pending file_store sid sha max_files sub_file st :
  Dispatcher.pending_files (Dispatcher.walk_extracted file_store sid sha max_files sub_file st)
  = Dispatcher.pending_files st ∧
  Dispatcher.max_score (Dispatcher.walk_extracted file_store sid sha max_files sub_file st)
  = Dispatcher.max_score st ∧
  Dispatcher.result_classifications
    (Dispatcher.walk_extracted file_store sid sha max_files sub_file st)
  = Dispatcher.result_classifications st ∧
  Dispatcher.schedule (Dispatcher.walk_extracted file_store sid sha max_files sub_file st)
  = Dispatcher.schedule st.
Proof.
  unfold Dispatcher.walk_extracted.
  destruct (decide _); [done|]. by destruct (file_store !! sub_file).
Qed.

Lemma walk_all_extracted_pending file_store sid sha max_files subs st :
  let st' := foldl (λ st sub_file,
                      Dispatcher.walk_extracted file_store sid sha max_files sub_file st)
                   st subs in
  Dispatcher.pending_files st' = Dispatcher.pending_files st ∧
  Dispatcher.max_score st' = Dispatcher.max_score st ∧
  Dispatcher.result_classifications st' = Dispatcher.result_classifications st ∧
  Dispatcher.schedule st' = Dispatcher.schedule st.
Proof.
  revert st. induction subs as [|sub subs IH]; intros st; simpl; [done|].
  destruct (IH (Dispatcher.walk_extracted file_store sid sha max_files sub st))
    as (-> & -> & -> & ->).
  apply walk_extracted_pending.
Qed.

(** C1, as amended. In the walk of [dispatch_submission] the dispatch window
    is looked at before the finish record: a file is marked pending for a
    service when [now - dispatch_time < timeout], whether or not there is a
    finish record, and when there is no finish record. For a service with a
    finish record whose window has elapsed the file is not marked pending on
    its account; an error record changes nothing, and the result of any other
    record, when the result exists, goes into [max_score] and the
    classification list. *)
Theorem walk_service_classification self submission max_files file_task name service st w :
  let sid := Submission.sid submission in
  let sha := FileInfo.sha256 (FileTask.file_info file_task) in
  let h := World.table sid w in
  let runtime := World.now w - DispatchHash.dispatch_time sha name h in
  Scheduler.services (Dispatcher.scheduler self) !! name = Some service →
  ((runtime < Service.timeout service ∨ DispatchHash.finished sha name h = None) →
   Dispatcher.walk_service self submission max_files file_task name st w
   = Some (Dispatcher.set_pending sha file_task st, w)) ∧
  (∀ row,
     Service.timeout service ≤ runtime →
     DispatchHash.finished sha name h = Some row →
     ∃ st' w',
       Dispatcher.walk_service self submission max_files file_task name st w
       = Some (st', w') ∧
       Dispatcher.pending_files st' = Dispatcher.pending_files st ∧
       (FinishRecord.is_error row = true → st' = st ∧ w' = w) ∧
       (FinishRecord.is_error row = false →
        ∀ result, World.result_store w !! FinishRecord.key row = Some result →
          Dispatcher.max_score st'
          = Some (match Dispatcher.max_score st with
                  | None => Result.score result
                  | Some m => Z.max m (Result.score result)
                  end) ∧
          Dispatcher.result_classifications st'
          = Dispatcher.result_classifications st ++ [Result.classification result])).
Proof.
  intros sid sha h runtime Hservice. subst runtime h sid sha.
  unfold Dispatcher.walk_service, bind, get_world, get_table, lift. rewrite Hservice.
  split.
  - intros [Hlt|Hnone].
    + by rewrite decide_True.
    + destruct (decide _); [done|]. by rewrite Hnone.
  - intros row Hge Hrow. rewrite decide_False by lia. rewrite Hrow.
    destruct (FinishRecord.is_error row) eqn:Herr.
    + eexists _, _. split; [reflexivity|]. split; [done|]. split; [done|]. done.
    + destruct (World.result_store w !! FinishRecord.key row) as [result|] eqn:Hres.
      * eexists _, _. split; [reflexivity|].
        match goal with
        | |- context [foldl ?f ?st0 ?l] =>
            destruct (walk_all_extracted_pending (World.file_store w)
                        (Submission.sid submission)
                        (FileInfo.sha256 (FileTask.file_info file_task))
                        max_files l st0) as (Hp & Hm & Hc & _)
        end.
        simpl in *. split; [|split; [done|]].
        { rewrite Hp. by destruct (negb _ && _). }
        intros _ result' [= <-]. rewrite Hm, Hc. by destruct (negb _ && _).
      * rewrite emit_run. eexists _, _. split; [reflexivity|].
        split; [by destruct (negb _ && _)|]. split; [done|]. by intros _ result' [=].
Qed.

(** ** A submission whose root files are all missing *)

Lemma seed_all_missing sid max_files files unchecked w :
  (∀ sha, sha ∈ files → World.file_store w !! sha = None) →
  for_each (Dispatcher.seed_file sid max_files) files unchecked w
  = Some (unchecked,
          World.set_effects
            (World.effects w
             ++ (LogError "Submission tried to process missing file" <$> files)) w).
Proof.
  revert w. induction files as [|sha files IH]; intros w Hmissing; simpl.
  - unfold ret. rewrite app_nil_r. by destruct w.
  - unfold bind, Dispatcher.seed_file at 1, bind, get_world.
    rewrite (Hmissing sha) by (by left). rewrite emit_run. simpl.
    rewrite IH by (intros; apply Hmissing; by right). simpl. by rewrite <- app_assoc.
Qed.

Lemma walk_nothing re_match self fuel submission max_files st :
  Dispatcher.unchecked_files st = [] →
  Dispatcher.walk re_match self fuel submission max_files st = ret st.
Proof. intros H. destruct fuel; simpl; by rewrite H. Qed.

Lemma statuses_empty (rows : gmap string (gmap string FinishRecord.t)) :
  (∀ sha service, rows !! sha ≫= (λ row, row !! service) = None) →
  Dispatcher.statuses rows = [].
Proof.
  intros Hnone. unfold Dispatcher.statuses.
  assert (Forall (λ row : gmap string FinishRecord.t, row = ∅) (map_to_list rows).*2) as Hall.
  { apply Forall_forall. intros row ([sha row'] & -> & Hin)%list_elem_of_fmap.
    apply elem_of_map_to_list in Hin. simpl. apply map_eq. intros service.
    specialize (Hnone sha service). rewrite Hin in Hnone. simpl in Hnone.
    by rewrite lookup_empty. }
  induction Hall as [|row l -> _ IH]; [done|]. simpl.
  rewrite map_to_list_empty. simpl. exact IH.
Qed.

Section no_roots.
Variable re_match : string → string → bool.
Variable self : Dispatcher.t.

Lemma walk_submission_missing fuel task w :
  let submission := SubmissionTask.submission task in
  (∀ sha, sha ∈ Submission.files submission → World.file_store w !! sha = None) →
  ∃ w1 es,
    Dispatcher.walk_submission re_match self fuel task w
    = Some (Dispatcher.mkWalk [] (list_to_set (Submission.files submission)) [] [] None [] [],
            w1) ∧
    World.effects w1 = World.effects w ++ es ∧ Forall quiet es ∧
    World.tables w1 = World.tables w.
Proof.
  intros submission Hmissing.
  unfold Dispatcher.walk_submission. fold submission.
  unfold bind, get_world.
  destruct (World.active_tasks w !! Submission.sid submission);
    unfold ret; rewrite ?modify_run, emit_run;
    destruct (Params.quota_item _ && _);
    rewrite ?emit_run;
    rewrite seed_all_missing by done;
    rewrite walk_nothing by done; unfold ret;
    (eexists _, _; split; [reflexivity|]); simpl; rewrite <- ?app_assoc;
    (split; [reflexivity|]); (split; [|done]);
    repeat (apply Forall_cons; split; [done|]);
    apply Forall_fmap, Forall_true; done.
Qed.

(** C10. When the record of every root file is missing and the dispatch
    table holds no finish record, one call of [dispatch_submission]
    finalizes the submission: it is saved as [completed] with [max_score] 0,
    no results, no errors, and a [file_count] equal to the number of root
    files (which are pairwise distinct); nothing is pushed to the file queue
    or to a service queue. *)
Theorem missing_roots_finalize fuel task w :
  let submission := SubmissionTask.submission task in
  let sid := Submission.sid submission in
  (∀ sha, sha ∈ Submission.files submission → World.file_store w !! sha = None) →
  (∀ sha service, DispatchHash.finished sha service (World.table sid w) = None) →
  NoDup (Submission.files submission) →
  ∃ w' saved,
    Dispatcher.dispatch_submission re_match self fuel task w = Some (tt, w') ∧
    saved_of (emitted w w') = [(sid, saved)] ∧
    files_pushed (emitted w w') = [] ∧
    tasks_pushed (emitted w w') = [] ∧
    Submission.state saved = "completed" ∧
    Submission.max_score saved = 0 ∧
    Submission.results saved = [] ∧
    Submission.errors saved = [] ∧
    Submission.error_count saved = 0 ∧
    Submission.file_count saved = Z.of_nat (length (Submission.files submission)).
Proof.
  intros submission sid Hmissing Hfresh Hnodup.
  destruct (walk_submission_missing fuel task w Hmissing)
    as (w1 & es1 & Hwalk & Heff1 & Hquiet & Htables).
  destruct (finalize_submission_run task [] None
              (Z.of_nat (size (list_to_set (Submission.files submission) : gset string))) w1)
    as (w' & Hrun & (es & Heff & Hsaved & Hfiles & Htasks & _) & _).
  exists w', (finalized task [] None
                (Z.of_nat (size (list_to_set (Submission.files submission) : gset string))) w1).
  split.
  { unfold Dispatcher.dispatch_submission, bind. rewrite Hwalk. simpl.
    destruct fuel; exact Hrun. }
  assert (Dispatcher.statuses (DispatchHash.all_results (World.table sid w1)) = []) as Hrows.
  { apply statuses_empty. intros sha service.
    unfold World.table. rewrite Htables. apply Hfresh. }
  rewrite (emitted_app w w' (es1 ++ es)) by (by rewrite Heff, Heff1, app_assoc).
  apply quiet_observed in Hquiet as (Hq1 & Hq2 & Hq3).
  rewrite !saved_of_app, !files_pushed_app, !tasks_pushed_app.
  rewrite Hq1, Hq2, Hq3, Hsaved, Hfiles, Htasks.
  split; [done|]. split; [done|]. split; [done|].
  unfold finalized. simpl. fold submission. fold sid. rewrite Hrows. simpl.
  repeat split; try done.
  by rewrite size_list_to_set.
Qed.

End no_roots.

(** ** The schedule cache *)

Global Instance cache_kept_preorder : PreOrder cache_kept.
Proof. split; [by intros w ? ? ?|]. intros w1 w2 w3 H12 H23 sid sha s H. by apply H23, H12. Qed.

Global Instance tables_kept_preorder : PreOrder tables_kept.
Proof. split; [done|]. intros w1 w2 w3 H12 H23. unfold tables_kept in *. congruence. Qed.

Lemma tables_kept_cache w w' : tables_kept w w' → cache_kept w w'.
Proof. intros H sid sha s. unfold World.table. by rewrite H. Qed.

Lemma tables_kept_emit e : respects tables_kept (emit e).
Proof. by intros w ? ? [= <- <-]. Qed.

Section cache.
Variable re_match : string → string → bool.
Variable self : Dispatcher.t.

Lemma build_schedule_cache fuel sid submission file_hash file_type :
  respects cache_kept
    (Dispatcher.build_schedule re_match self fuel sid submission file_hash file_type).
Proof.
  intros w schedule w' [(_ & _ & ->)|(_ & _ & ->)]%build_schedule_run; [done|].
  intros sid0 sha0 s0 H0. destruct (decide (sid = sid0)) as [<-|Hne].
  - rewrite table_put. unfold DispatchHash.schedules_add.
    destruct (DispatchHash.schedules (World.table sid w) !! file_hash) eqn:Hc; [done|].
    simpl. rewrite lookup_insert_ne; [done|]. congruence.
  - by rewrite table_put_ne.
Qed.

Lemma walk_service_tables submission max_files file_task name st :
  respects tables_kept
    (Dispatcher.walk_service self submission max_files file_task name st).
Proof.
  unfold Dispatcher.walk_service.
  apply respects_bind; [apply _|apply respects_get_world; apply _|]. intros w0.
  apply respects_bind; [apply _|apply respects_get_table; apply _|]. intros h.
  apply respects_bind; [apply _|apply respects_lift; apply _|]. intros service.
  destruct (decide _); [apply respects_ret; apply _|].
  destruct (DispatchHash.finished _ _ _) as [row|]; [|apply respects_ret; apply _].
  destruct (FinishRecord.is_error row); [apply respects_ret; apply _|].
  destruct (World.result_store w0 !! _); [apply respects_ret; apply _|].
  apply respects_bind; [apply _|by apply tables_kept_emit|]. intros _.
  apply respects_ret; apply _.
Qed.

Lemma walk_schedule_tables submission max_files file_task stages st :
  respects tables_kept
    (Dispatcher.walk_schedule self submission max_files file_task stages st).
Proof.
  revert st. induction stages as [|stage stages IH]; intros st; simpl.
  - apply respects_ret; apply _.
  - apply respects_bind; [apply _| |].
    + apply respects_for_each; [apply _|]. intros. apply walk_service_tables.
    + intros st'. destruct (Dispatcher.schedule st'); [apply respects_ret; apply _|apply IH].
Qed.

Lemma respects_weaken {A} (R S : relation World.t) (m : M A) :
  (∀ w w', R w w' → S w w') → respects R m → respects S m.
Proof. intros HRS Hm w a w' Hrun. by eapply HRS, Hm. Qed.

Lemma walk_cache fuel submission max_files st :
  respects cache_kept (Dispatcher.walk re_match self fuel submission max_files st).
Proof.
  revert st. induction fuel as [|fuel IH]; intros st; simpl.
  - destruct (Dispatcher.unchecked_files st); [apply respects_ret; apply _|].
    apply respects_raise.
  - destruct (Dispatcher.unchecked_files st); [apply respects_ret; apply _|].
    apply respects_bind; [apply _|apply build_schedule_cache|]. intros schedule.
    apply respects_bind; [apply _| |intros st'; apply IH].
    eapply respects_weaken; [apply tables_kept_cache|apply walk_schedule_tables].
Qed.

Lemma walk_submission_cache fuel task :
  respects cache_kept (Dispatcher.walk_submission re_match self fuel task).
Proof.
  unfold Dispatcher.walk_submission.
  apply respects_bind; [apply _|apply respects_get_world; apply _|]. intros w0.
  apply respects_bind; [apply _| |].
  { destruct (World.active_tasks w0 !! _); [apply respects_ret; apply _|].
    apply respects_modify. by intros w ? ? ?. }
  intros _. apply respects_bind; [apply _| |].
  { eapply respects_weaken; [apply tables_kept_cache|apply tables_kept_emit]. }
  intros _. apply respects_bind; [apply _| |].
  { destruct (_ && _); [|apply respects_ret; apply _].
    eapply respects_weaken; [apply tables_kept_cache|apply tables_kept_emit]. }
  intros _. apply respects_bind; [apply _| |intros unchecked; apply walk_cache].
  eapply respects_weaken; [apply tables_kept_cache|].
  apply respects_for_each; [apply _|]. intros sha l _. unfold Dispatcher.seed_file.
  apply respects_bind; [apply _|apply respects_get_world; apply _|]. intros w1.
  destruct (World.file_store w1 !! sha); [apply respects_ret; apply _|].
  apply respects_bind; [apply _|apply tables_kept_emit|]. intros _.
  apply respects_ret; apply _.
Qed.

Lemma admit_files_cache sid max_files pending :
  respects cache_kept (Dispatcher.admit_files sid max_files pending).
Proof.
  intros w admitted w' (_ & _ & _ & _ & Hsched & _ & Hother & _)%admit_files_run.
  intros sid0 sha0 s0 H0. destruct (decide (sid0 = sid)) as [->|Hne].
  - by rewrite Hsched.
  - by rewrite Hother.
Qed.

(** A pass of the submission dispatcher keeps every cached schedule, until
    it finalizes the submission and deletes its dispatch table. *)
Lemma dispatch_submission_cache fuel task w w' sid0 sha0 s0 :
  Dispatcher.dispatch_submission re_match self fuel task w = Some (tt, w') →
  DispatchHash.schedules (World.table sid0 w) !! sha0 = Some s0 →
  DispatchHash.schedules (World.table sid0 w') !! sha0 = Some s0 ∨
  (sid0 = Submission.sid (SubmissionTask.submission task) ∧
   World.tables w' !! sid0 = None ∧
   ∃ saved, saved_of (emitted w w') = [(sid0, saved)]).
Proof.
  intros (st & w1 & pending & admitted & w2 & Hwalk & _ & Hadmit & Hend)%dispatch_submission_run H0.
  pose proof (walk_submission_cache _ _ _ _ _ Hwalk _ _ _ H0) as H1.
  pose proof (admit_files_cache _ _ _ _ _ _ Hadmit _ _ _ H1) as H2.
  destruct admitted as [|kv admitted]; [|left; by subst w'].
  destruct (finalize_submission_run task (Dispatcher.result_classifications st)
              (Dispatcher.max_score st)
              (Z.of_nat (size (Dispatcher.encountered_files st))) w2)
    as (w'' & Hrun & (es & Heff & Hsaved & _) & Htables & _).
  rewrite Hend in Hrun. injection Hrun as <-.
  destruct (decide (sid0 = Submission.sid (SubmissionTask.submission task))) as [->|Hne].
  - right. split; [done|]. split; [by rewrite Htables, lookup_delete_eq|].
    destruct (emits_emitted _ _ _ (walk_submission_quiet _ _ _ _ _ _ _ Hwalk)) as [Heff1 Hquiet].
    apply quiet_observed in Hquiet as (Hnone & _).
    destruct (admit_files_run _ _ _ _ _ _ Hadmit) as (_ & Heff2 & _).
    eexists. rewrite (emitted_app w w' (emitted w w1 ++ es)).
    + rewrite saved_of_app, Hnone, Hsaved. done.
    + rewrite Heff, Heff2, Heff1. by rewrite app_assoc.
  - left. unfold World.table. rewrite Htables, lookup_delete_ne by done. exact H2.
Qed.

(** X29. [Dispatcher.build_schedule] returns the cached schedule whenever a
    non-empty one is cached, and then neither computes nor stores anything;
    with nothing cached it returns what the scheduler computes and stores
    it. No call of [build_schedule] changes a cached schedule, and no pass of
    [dispatch_submission] does, unless it finalizes the submission and
    deletes its dispatch table; a non-empty one is therefore returned again
    after such a pass. *)
Theorem schedule_cached_once fuel sid submission file_hash file_type w :
  let cached := DispatchHash.schedules (World.table sid w) !! file_hash in
  let build := Dispatcher.build_schedule re_match self fuel sid submission file_hash
                 file_type in
  (∀ s, cached = Some s → s ≠ [] → build w = Some (s, w)) ∧
  (∀ s w',
     cached = None → build w = Some (s, w') →
     (∃ obj, Scheduler.build_schedule re_match (Dispatcher.scheduler self) fuel
               submission file_type = Some obj ∧ s = Dict.keys <$> obj) ∧
     DispatchHash.schedules (World.table sid w') !! file_hash = Some s) ∧
  (∀ s0, cached = Some s0 →
     (∀ fuel' submission' sha' type' s w',
        Dispatcher.build_schedule re_match self fuel' sid submission' sha' type' w
        = Some (s, w') →
        DispatchHash.schedules (World.table sid w') !! file_hash = Some s0) ∧
     (∀ fuel' task w',
        Dispatcher.dispatch_submission re_match self fuel' task w = Some (tt, w') →
        (DispatchHash.schedules (World.table sid w') !! file_hash = Some s0 ∧
         (s0 ≠ [] → build w' = Some (s0, w'))) ∨
        (sid = Submission.sid (SubmissionTask.submission task) ∧
         World.tables w' !! sid = None ∧
         ∃ saved, saved_of (emitted w w') = [(sid, saved)]))).
Proof.
  intros cached build. subst cached build.
  assert (∀ w0 s, DispatchHash.schedules (World.table sid w0) !! file_hash = Some s →
                  s ≠ [] →
                  Dispatcher.build_schedule re_match self fuel sid submission file_hash
                    file_type w0 = Some (s, w0)) as Hhit.
  { intros w0 s Hs Hne.
    unfold Dispatcher.build_schedule, bind, get_table, DispatchHash.schedules_get.
    rewrite Hs. by destruct s. }
  split; [apply Hhit|]. split.
  - intros s w' Hnone [(Hsome & _)|(_ & Hobj & ->)]%build_schedule_run; [congruence|].
    split; [done|]. rewrite table_put. unfold DispatchHash.schedules_add.
    rewrite Hnone. simpl. by rewrite lookup_insert_eq.
  - intros s0 Hs0. split.
    + intros fuel' submission' sha' type' s w' Hrun.
      by apply (build_schedule_cache _ _ _ _ _ _ _ _ Hrun).
    + intros fuel' task w' Hrun.
      destruct (dispatch_submission_cache _ _ _ _ _ _ _ Hrun Hs0) as [Hkept|?];
        [left|by right].
      split; [done|]. by apply Hhit.
Qed.

End cache.

(** * More of the schedule builder *)

(** ** Stages, categories and the catalog *)

Lemma list_index_first x l :
  match Scheduler.list_index x l with
  | Some i => l !! i = Some x ∧ ∀ j, (j < i)%nat → l !! j ≠ Some x
  | None => x ∉ l
  end.
Proof.
  induction l as [|y l IH]; simpl; [apply not_elem_of_nil|].
  destruct (decide (x = y)) as [->|Hne].
  - split; [done|]. intros j Hj. lia.
  - destruct (Scheduler.list_index x l) as [i|]; simpl.
    + destruct IH as [Hi Hlt]. split; [done|].
      intros [|j] Hj; simpl; [congruence|]. apply Hlt. lia.
    + apply not_elem_of_cons. done.
Qed.

(** X1. [stage_index] returns the position of the first occurrence of the
    stage among the configured stages, and raises when the stage is not
    configured. *)
Theorem stage_index_first self stage :
  match Scheduler.stage_index self stage with
  | Some i => Scheduler.stages self !! i = Some stage
              ∧ ∀ j, (j < i)%nat → Scheduler.stages self !! j ≠ Some stage
  | None => stage ∉ Scheduler.stages self
  end.
Proof. apply list_index_first. Qed.

Lemma categories_fold c values (acc : gmap string (list string)) :
  foldl (λ all_categories service,
           match all_categories !! Service.category service with
           | Some l => <[Service.category service := l ++ [Service.name service]]> all_categories
           | None => <[Service.category service := [Service.name service]]> all_categories
           end) acc values !! c
  = match members_of c values with
    | [] => acc !! c
    | l => Some (default [] (acc !! c) ++ l)
    end.
Proof.
  unfold members_of. revert acc. induction values as [|v values IH]; intros acc; [done|].
  simpl. rewrite IH. rewrite filter_cons.
  destruct (decide (Service.category v = c)) as [Heq|Hne].
  - rewrite fmap_cons.
    assert ((match acc !! Service.category v with
             | Some l => <[Service.category v := l ++ [Service.name v]]> acc
             | None => <[Service.category v := [Service.name v]]> acc
             end) !! c = Some (default [] (acc !! c) ++ [Service.name v])) as ->.
    { rewrite Heq. destruct (acc !! c) as [l|]; by rewrite lookup_insert_eq. }
    simpl. destruct (Service.name <$> filter _ values); simpl.
    + done.
    + by rewrite <- app_assoc.
  - assert ((match acc !! Service.category v with
             | Some l => <[Service.category v := l ++ [Service.name v]]> acc
             | None => <[Service.category v := [Service.name v]]> acc
             end) !! c = acc !! c) as ->.
    { destruct (acc !! Service.category v); by rewrite lookup_insert_ne. }
    done.
Qed.

(** X2. [categories] groups the names of the services by category: a
    category is a key iff some service has it, and its value lists the names
    of the services of the category, one entry for each of them; nothing is
    said of the order of the entries. *)
Theorem categories_grouping self c :
  match Scheduler.categories self !! c with
  | Some members =>
      members ≠ [] ∧ members ≡ₚ members_of c (map_to_list (Scheduler.services self)).*2
  | None => members_of c (map_to_list (Scheduler.services self)).*2 = []
  end.
Proof.
  unfold Scheduler.categories. rewrite categories_fold, lookup_empty.
  by destruct (members_of c _).
Qed.

Lemma get_services_fold items (acc : gmap string Service.t) n :
  foldl (λ services ser, <[Service.name ser := ser]> services) acc items !! n
  = match last (filter (λ ser, Service.name ser = n) items) with
    | Some ser => Some ser
    | None => acc !! n
    end.
Proof.
  revert acc. induction items as [|ser items IH]; intros acc; [done|].
  simpl. rewrite IH, filter_cons.
  destruct (decide (Service.name ser = n)) as [Heq|Hne].
  - destruct (filter _ items) as [|s l] eqn:Hf; simpl.
    + by rewrite Heq, lookup_insert_eq.
    + rewrite !last_cons. by destruct (last l).
  - destruct (last _); [done|]. by rewrite lookup_insert_ne.
Qed.

(** X3. The catalog [_get_services] builds holds, under each name, the last
    of the services found with that name, and nothing under any other
    name. *)
Theorem get_services_last_wins items n :
  Scheduler._get_services items !! n = last (filter (λ ser, Service.name ser = n) items).
Proof.
  unfold Scheduler._get_services. rewrite get_services_fold, lookup_empty.
  by destruct (last _).
Qed.

Lemma get_services_keyed items k ser :
  Scheduler._get_services items !! k = Some ser → Service.name ser = k ∧ ser ∈ items.
Proof.
  unfold Scheduler._get_services. rewrite get_services_fold, lookup_empty. intros Hlast.
  assert (ser ∈ filter (λ ser, Service.name ser = k) items) as Hin.
  { destruct (last _) as [ser'|] eqn:Hl; [|done]. injection Hlast as ->.
    apply last_Some in Hl as [l' ->]. apply elem_of_app. right. by left. }
  by apply list_elem_of_filter in Hin.
Qed.

Lemma members_of_elem c values m :
  m ∈ members_of c values ↔ ∃ v, v ∈ values ∧ Service.category v = c ∧ Service.name v = m.
Proof.
  unfold members_of. rewrite list_elem_of_fmap. split.
  - intros (v & -> & [? ?]%list_elem_of_filter). by exists v.
  - intros (v & ? & ? & <-). exists v. split; [done|]. by apply list_elem_of_filter.
Qed.

(** X4. Over a catalog built by [_get_services], the members of a category
    are exactly the names under which the catalog holds a service of that
    category, each of them once. *)
Theorem catalog_categories items stages c members :
  Scheduler.categories (Scheduler.mk (Scheduler._get_services items) stages) !! c
    = Some members →
  NoDup members ∧
  ∀ m, m ∈ members ↔
       ∃ ser, Scheduler._get_services items !! m = Some ser ∧ Service.category ser = c.
Proof.
  unfold Scheduler.categories. rewrite categories_fold, lookup_empty. simpl.
  set (catalog := Scheduler._get_services items).
  intros Hmembers.
  assert (members = members_of c (map_to_list catalog).*2) as ->
    by (destruct (members_of c _); congruence).
  clear Hmembers. split.
  - assert (Service.name <$> (map_to_list catalog).*2 = (map_to_list catalog).*1) as Hkeys.
    { rewrite <- list_fmap_compose. apply Forall_fmap_ext_1, Forall_forall.
      intros [k v] Hkv%elem_of_map_to_list. simpl.
      by apply get_services_keyed in Hkv as [-> _]. }
    eapply sublist_NoDup; [apply (NoDup_fst_map_to_list catalog)|].
    rewrite <- Hkeys. unfold members_of. apply fmap_sublist, sublist_filter.
  - intros m. rewrite members_of_elem. split.
    + intros (v & Hv & Hc & Hn).
      apply list_elem_of_fmap in Hv as ([k v'] & -> & Hkv%elem_of_map_to_list).
      simpl in *. exists v'. split; [|done].
      pose proof Hkv as [Hname _]%get_services_keyed. congruence.
    + intros (ser & Hser & Hc). exists ser.
      split; [|split; [done|by apply get_services_keyed in Hser as [-> _]]].
      apply list_elem_of_fmap. exists (m, ser). split; [done|].
      by apply elem_of_map_to_list.
Qed.

(** ** Expansion of the categories *)

Lemma elem_of_rev_1 {A} (x : A) l : x ∈ rev l → x ∈ l.
Proof. rewrite !list_elem_of_In. apply in_rev. Qed.

Lemma elem_of_rev_2 {A} (x : A) l : x ∈ l → x ∈ rev l.
Proof. rewrite !list_elem_of_In. apply in_rev. Qed.

Lemma chars_length s x : x ∈ Scheduler.chars s → String.length x = 1%nat.
Proof.
  induction s as [|c s IH]; simpl; [by intros ?%elem_of_nil|].
  intros [->|?]%elem_of_cons; [done|by apply IH].
Qed.

Lemma expand_loop_sound fuel categories work found seen res :
  Scheduler.expand_loop fuel categories work found seen = Some res →
  ∀ n, n ∈ res →
    n ∈ found ∨
    (categories !! n = None ∧
     (n ∈ work ∨ ∃ c members, categories !! c = Some members ∧ n ∈ members)).
Proof.
  revert work found seen. induction fuel as [|fuel IH]; intros work found seen.
  - destruct work; simpl; [|done]. intros [= <-] n Hn. by left.
  - destruct work as [|name work]; simpl; [intros [= <-] n Hn; by left|].
    destruct (categories !! name) as [members|] eqn:Hname.
    + destruct (decide (name ∈ seen)) as [Hseen|Hseen].
      * intros Hrun n Hn. destruct (IH _ _ _ Hrun n Hn) as [?|[? [?|?]]]; [by left|right..].
        -- split; [done|]. left. by right.
        -- split; [done|]. by right.
      * intros Hrun n Hn. destruct (IH _ _ _ Hrun n Hn) as [?|[? [Hin|?]]]; [by left|right..].
        -- split; [done|]. apply elem_of_app in Hin as [Hin%elem_of_rev_1|Hin].
           ++ right. by exists name, members.
           ++ left. by right.
        -- split; [done|]. by right.
    + intros Hrun n Hn. destruct (IH _ _ _ Hrun n Hn) as [Hin|[? [?|?]]].
      * apply elem_of_app in Hin as [?|Heq%list_elem_of_singleton]; [by left|]. subst n.
        right. split; [done|]. left. by left.
      * right. split; [done|]. left. by right.
      * right. split; [done|]. by right.
Qed.

Lemma expand_loop_complete fuel categories work found seen res :
  (∀ x, x ∈ seen → String.length x = 1%nat) →
  Scheduler.expand_loop fuel categories work found seen = Some res →
  (∀ n, n ∈ found → n ∈ res) ∧
  (∀ n, n ∈ work → categories !! n = None → n ∈ res) ∧
  (∀ c members n, c ∈ work → categories !! c = Some members → String.length c ≠ 1%nat →
     n ∈ members → categories !! n = None → n ∈ res).
Proof.
  revert work found seen. induction fuel as [|fuel IH]; intros work found seen Hseen.
  - destruct work; simpl; [|done]. intros [= <-].
    split; [done|]. split; [by intros ? ?%elem_of_nil|by intros ? ? ? ?%elem_of_nil].
  - destruct work as [|name work]; simpl.
    { intros [= <-].
      split; [done|]. split; [by intros ? ?%elem_of_nil|by intros ? ? ? ?%elem_of_nil]. }
    destruct (categories !! name) as [members|] eqn:Hname.
    + destruct (decide (name ∈ seen)) as [Hin|Hnotin].
      * intros (Hfound & Hplain & Hcat)%IH; [|done]. split; [done|]. split.
        -- intros n [->|?]%elem_of_cons Hn; [congruence|by apply Hplain].
        -- intros c ms n [->|?]%elem_of_cons Hc Hlen Hm Hn; [|by eapply Hcat].
           by apply Hseen in Hin.
      * intros (Hfound & Hplain & Hcat)%IH.
        2:{ intros x [?|Hx%elem_of_list_to_set]%elem_of_union; [by apply Hseen|].
            by eapply chars_length. }
        split; [done|]. split.
        -- intros n [->|?]%elem_of_cons Hn; [congruence|].
           apply Hplain; [|done]. apply elem_of_app. by right.
        -- intros c ms n [->|?]%elem_of_cons Hc Hlen Hm Hn.
           ++ rewrite Hname in Hc. injection Hc as ->.
              apply Hplain; [|done]. apply elem_of_app. left. by apply elem_of_rev_2.
           ++ eapply Hcat; [|done..]. apply elem_of_app. by right.
    + intros (Hfound & Hplain & Hcat)%IH; [|done]. split; [|split].
      * intros n Hn. apply Hfound, elem_of_app. by left.
      * intros n [->|?]%elem_of_cons Hn; [|by apply Hplain].
        apply Hfound, elem_of_app. right. by left.
      * intros c ms n [->|?]%elem_of_cons Hc Hlen Hm Hn; [congruence|by eapply Hcat].
Qed.

(** X5. What [expand_categories] returns holds no name twice and no name of
    a category; every name in it was given, or is a member of some
    category. *)
Theorem expand_categories_sound self fuel services found :
  Scheduler.expand_categories self fuel (Some services) = Some found →
  NoDup found ∧
  ∀ n, n ∈ found →
    Scheduler.categories self !! n = None ∧
    (n ∈ services ∨
     ∃ c members, Scheduler.categories self !! c = Some members ∧ n ∈ members).
Proof.
  unfold Scheduler.expand_categories.
  destruct (Scheduler.expand_loop _ _ _ _ _) as [res|] eqn:Hloop; simpl; [|done].
  intros [= <-]. split; [apply NoDup_elements|].
  intros n Hn%elem_of_elements%elem_of_list_to_set.
  destruct (expand_loop_sound _ _ _ _ _ _ Hloop n Hn) as [?%elem_of_nil|[Hplain Hfrom]]; [done|].
  split; [done|]. destruct Hfrom as [?%elem_of_rev_1|?]; [by left|by right].
Qed.

(** X6. What [expand_categories] returns holds every given name that is not
    a category, and the members (other than categories) of every given
    category whose name is not a single character. *)
Theorem expand_categories_complete self fuel services found :
  Scheduler.expand_categories self fuel (Some services) = Some found →
  (∀ n, n ∈ services → Scheduler.categories self !! n = None → n ∈ found) ∧
  (∀ c members n,
     c ∈ services → Scheduler.categories self !! c = Some members →
     String.length c ≠ 1%nat →
     n ∈ members → Scheduler.categories self !! n = None → n ∈ found).
Proof.
  unfold Scheduler.expand_categories.
  destruct (Scheduler.expand_loop _ _ _ _ _) as [res|] eqn:Hloop; simpl; [|done].
  intros [= <-].
  apply expand_loop_complete in Hloop as (_ & Hplain & Hcat); [|by intros ? ?%elem_of_empty].
  split.
  - intros n Hn Hnone. apply elem_of_elements, elem_of_list_to_set, Hplain; [|done].
    by apply elem_of_rev_2.
  - intros c members n Hc Hcats Hlen Hn Hnone.
    apply elem_of_elements, elem_of_list_to_set. eapply Hcat; [|done..]. by apply elem_of_rev_2.
Qed.

Lemma expand_loop_plain fuel categories work rest found seen :
  (∀ m, m ∈ work → categories !! m = None) →
  Scheduler.expand_loop (length work + fuel) categories (work ++ rest) found seen
  = Scheduler.expand_loop fuel categories rest (found ++ work) seen.
Proof.
  revert found. induction work as [|m work IH]; intros found Hplain; simpl.
  - by rewrite app_nil_r.
  - rewrite (Hplain m) by (by left). rewrite IH by (intros; apply Hplain; by right).
    by rewrite <- app_assoc.
Qed.

(** X7. [seen_categories.update(name)] records the characters of the name,
    not the name: a category whose name is one character occurring in the
    name of a category expanded before it is passed over. Of the two
    categories [c1; c2], with [c1] a character of [c2], the expansion returns
    the members of [c2] alone. *)
Theorem expand_categories_shadow self fuel c1 c2 members1 members2 :
  Scheduler.categories self !! c1 = Some members1 →
  Scheduler.categories self !! c2 = Some members2 →
  c1 ∈ Scheduler.chars c2 →
  (∀ m, m ∈ members2 → Scheduler.categories self !! m = None) →
  (length members2 + 2 ≤ fuel)%nat →
  Scheduler.expand_categories self fuel (Some [c1; c2])
  = Some (elements (list_to_set (rev members2) : gset string)).
Proof.
  intros Hc1 Hc2 Hchar Hplain Hfuel. unfold Scheduler.expand_categories.
  replace fuel with (S (length (rev members2) + S (fuel - length members2 - 2)))
    by (rewrite length_rev; lia).
  simpl. rewrite Hc2. rewrite decide_False by set_solver.
  rewrite expand_loop_plain by (intros m Hm%elem_of_rev_1; by apply Hplain).
  simpl. rewrite Hc1. rewrite decide_True by set_solver.
  destruct (fuel - _ - _)%nat; done.
Qed.

Lemma expand_loop_diverges fuel categories c members work found seen :
  categories !! c = Some members → c ∈ members → String.length c ≠ 1%nat →
  (∀ x, x ∈ seen → String.length x = 1%nat) →
  c ∈ work →
  Scheduler.expand_loop fuel categories work found seen = None.
Proof.
  intros Hc Hself Hlen. revert work found seen.
  induction fuel as [|fuel IH]; intros work found seen Hseen Hin.
  - destruct work; [by apply elem_of_nil in Hin|done].
  - destruct work as [|name work]; [by apply elem_of_nil in Hin|]. simpl.
    destruct (decide (name = c)) as [->|Hne].
    + rewrite Hc. destruct (decide (c ∈ seen)) as [Hcs|_]; [by apply Hseen in Hcs|].
      apply IH.
      * intros x [?|Hx%elem_of_list_to_set]%elem_of_union; [by apply Hseen|].
        by eapply chars_length.
      * apply elem_of_app. left. by apply elem_of_rev_2.
    + apply elem_of_cons in Hin as [?|Hin]; [congruence|].
      destruct (categories !! name) as [ms|].
      * destruct (decide (name ∈ seen)) as [?|?]; [by apply IH|].
        apply IH.
        -- intros x [?|Hx%elem_of_list_to_set]%elem_of_union; [by apply Hseen|].
           by eapply chars_length.
        -- apply elem_of_app. by right.
      * by apply IH.
Qed.

(** X8. [expand_categories] never returns when a given category, whose name
    is not a single character, has a member named like itself: the category
    is never marked as seen and is expanded again and again. *)
Theorem expand_categories_diverges self fuel services c members :
  Scheduler.categories self !! c = Some members → c ∈ members →
  String.length c ≠ 1%nat → c ∈ services →
  Scheduler.expand_categories self fuel (Some services) = None.
Proof.
  intros Hc Hself Hlen Hin. unfold Scheduler.expand_categories.
  rewrite (expand_loop_diverges fuel _ c members); try done.
  by apply elem_of_rev_2.
Qed.

(** ** The expansion, exactly *)

Lemma members_plain self c members m :
  names_plain self →
  Scheduler.categories self !! c = Some members → m ∈ members →
  Scheduler.categories self !! m = None.
Proof.
  intros Hnames Hc Hm.
  destruct (categories_members self c members Hc) as [_ Hmem].
  destruct (Hmem m Hm) as (v & Hv & <-).
  apply list_elem_of_fmap in Hv as ([k v0] & -> & Hv%elem_of_map_to_list). simpl.
  destruct (Scheduler.categories self !! Service.name v0) as [members'|] eqn:Hcat; [|done].
  destruct (categories_members self _ members' Hcat) as [(v' & Hv' & Heq) _].
  apply list_elem_of_fmap in Hv' as ([k' v1] & -> & Hv'%elem_of_map_to_list). simpl in Heq.
  exfalso. exact (Hnames _ _ _ _ Hv Hv' (eq_sym Heq)).
Qed.

Lemma category_long self c members :
  categories_long self → Scheduler.categories self !! c = Some members →
  String.length c ≠ 1%nat.
Proof.
  intros Hlen Hc.
  destruct (categories_members self c members Hc) as [(v & Hv & <-) _].
  apply list_elem_of_fmap in Hv as ([k v0] & -> & Hv%elem_of_map_to_list). simpl.
  by eapply Hlen.
Qed.

Lemma expanded_cons categories name work n :
  expanded categories work n → expanded categories (name :: work) n.
Proof.
  intros [Hplain [Hin|(c & members & Hc & Hcat & Hm)]]; (split; [done|]).
  - left. by right.
  - right. exists c, members. split; [by right|done].
Qed.

Lemma expanded_rev categories work n :
  expanded categories (rev work) n ↔ expanded categories work n.
Proof.
  unfold expanded. split.
  - intros [Hplain [Hin%elem_of_rev_1|(c & ms & Hc%elem_of_rev_1 & ?)]];
      (split; [done|]); [by left|right; by exists c, ms].
  - intros [Hplain [Hin%elem_of_rev_2|(c & ms & Hc%elem_of_rev_2 & ?)]];
      (split; [done|]); [by left|right; by exists c, ms].
Qed.

(** With no category among the members of a category, the loop finds nothing
    but the plain names of its work list and the members of the categories
    of its work list. *)
Lemma expand_loop_exact fuel categories work found seen res :
  (∀ c members m, categories !! c = Some members → m ∈ members → categories !! m = None) →
  Scheduler.expand_loop fuel categories work found seen = Some res →
  ∀ n, n ∈ res → n ∈ found ∨ expanded categories work n.
Proof.
  intros Hplain. revert work found seen.
  induction fuel as [|fuel IH]; intros work found seen.
  - destruct work; simpl; [|done]. intros [= <-] n Hn. by left.
  - destruct work as [|name work]; simpl; [intros [= <-] n Hn; by left|].
    destruct (categories !! name) as [members|] eqn:Hname.
    + destruct (decide (name ∈ seen)) as [Hseen|Hseen].
      * intros Hrun n Hn. destruct (IH _ _ _ Hrun n Hn) as [?|?]; [by left|right].
        by apply expanded_cons.
      * intros Hrun n Hn.
        destruct (IH _ _ _ Hrun n Hn) as [?|[Hn' Hfrom]]; [by left|right].
        split; [done|].
        destruct Hfrom as [[Hin%elem_of_rev_1|Hin]%elem_of_app
                          |(c & ms & [Hc%elem_of_rev_1|Hc]%elem_of_app & Hcat & Hm)].
        -- right. exists name, members. split; [by left|done].
        -- left. by right.
        -- rewrite (Hplain _ _ _ Hname Hc) in Hcat. done.
        -- right. exists c, ms. split; [by right|done].
    + intros Hrun n Hn. destruct (IH _ _ _ Hrun n Hn) as [Hin|?].
      * apply elem_of_app in Hin as [?|Heq%list_elem_of_singleton]; [by left|]. subst n.
        right. split; [done|]. left. by left.
      * right. by apply expanded_cons.
Qed.

Lemma expand_categories_exact self fuel services found :
  names_plain self → categories_long self →
  Scheduler.expand_categories self fuel (Some services) = Some found →
  ∀ n, n ∈ found ↔ expanded (Scheduler.categories self) services n.
Proof.
  intros Hnames Hlen. unfold Scheduler.expand_categories.
  destruct (Scheduler.expand_loop _ _ _ _ _) as [res|] eqn:Hloop; simpl; [|done].
  intros [= <-] n. rewrite elem_of_elements, elem_of_list_to_set. split.
  - intros Hn.
    destruct (expand_loop_exact _ _ _ _ _ _ (λ c ms m, members_plain self c ms m Hnames)
                Hloop n Hn) as [?%elem_of_nil|?]; [done|].
    by apply expanded_rev.
  - intros [Hplain Hfrom].
    apply expand_loop_complete in Hloop as (_ & Hgiven & Hcat);
      [|by intros ? ?%elem_of_empty].
    destruct Hfrom as [Hin|(c & ms & Hc & Hcats & Hm)].
    + apply Hgiven; [by apply elem_of_rev_2|done].
    + eapply Hcat; [by apply elem_of_rev_2|exact Hcats| |done..].
      by eapply category_long.
Qed.

(** X11. [expand_categories] returns, given fuel for its iterations (one for
    each given name and one more for each member of a given category), when
    no service is named like a category. When, moreover, no category has a
    name of one character, it returns exactly the given names that are not
    categories and the members of the given categories. *)
Theorem expand_categories_returns self fuel services :
  names_plain self →
  (expand_cost (Scheduler.categories self) services ≤ fuel)%nat →
  ∃ found,
    Scheduler.expand_categories self fuel (Some services) = Some found ∧
    (categories_long self →
     ∀ n, n ∈ found ↔ expanded (Scheduler.categories self) services n).
Proof.
  intros Hnames Hfuel.
  destruct (expand_loop_total (Scheduler.categories self) (rev services) [] ∅ fuel)
    as [res Hres].
  { intros c ms m. by apply members_plain. }
  { by rewrite expand_cost_rev. }
  assert (Scheduler.expand_categories self fuel (Some services)
          = Some (elements (list_to_set res : gset string))) as Hrun.
  { unfold Scheduler.expand_categories. by rewrite Hres. }
  eexists. split; [exact Hrun|]. intros Hlen. by eapply expand_categories_exact.
Qed.

Section candidates.
Variable re_match : string → string → bool.

(** X30. Membership in the schedule of [Scheduler.build_schedule], over a
    catalog in which no service is named like a category and no category has
    a name of one character: a name is in some stage of the returned schedule
    iff the catalog has a service of that name which is a candidate, whose
    [accepts] is empty or matches the file type, and whose [rejects] is empty
    or does not match it. A candidate is a service of the system category, or
    one that is selected and not excluded. Selected are all services when the
    submission selects none, and otherwise the selected names and the members
    of the selected categories; excluded are the excluded names and the
    members of the excluded categories. *)
Theorem build_schedule_candidates self fuel submission file_type schedule :
  let categories := Scheduler.categories self in
  let params := Submission.params submission in
  names_plain self → categories_long self →
  Scheduler.build_schedule re_match self fuel submission file_type = Some schedule →
  ∀ name,
    scheduled name schedule ↔
    ∃ service, Scheduler.services self !! name = Some service ∧
      (((Params.selected params = [] ∨ expanded categories (Params.selected params) name)
        ∧ ¬ expanded categories (Params.excluded params) name)
       ∨ Service.category service = Scheduler.system_category) ∧
      accepted re_match service file_type ∧ ¬ rejected re_match service file_type.
Proof.
  intros categories params Hnames Hlen Hrun name.
  destruct (build_schedule_membership re_match self fuel submission file_type schedule Hrun)
    as (selected & excluded & Hex & Hsel & Hiff).
  rewrite (Hiff name). fold params in Hex, Hsel.
  pose proof (expand_categories_exact _ _ _ _ Hnames Hlen Hex name) as Hexcl.
  fold categories in Hexcl.
  assert (∀ service, Scheduler.services self !! name = Some service →
            (name ∈ selected ↔
             Params.selected params = [] ∨ expanded categories (Params.selected params) name))
    as Hsels.
  { intros service Hsv. destruct (Params.selected params) as [|s l] eqn:Hp.
    - injection Hsel as <-. split; [by left|]. intros _.
      apply list_elem_of_fmap. exists (name, service). split; [done|].
      by apply elem_of_map_to_list.
    - rewrite (expand_categories_exact _ _ _ _ Hnames Hlen Hsel name).
      fold categories. split; [by right|]. by intros [?|?]. }
  split.
  - intros (service & Hsv & Hcand & Hacc). exists service. split; [done|]. split; [|done].
    destruct Hcand as [[Hs He]|?]; [left|by right].
    split; [by apply (Hsels service Hsv)|]. by rewrite <- Hexcl.
  - intros (service & Hsv & Hcand & Hacc). exists service. split; [done|]. split; [|done].
    destruct Hcand as [[Hs He]|?]; [left|by right].
    split; [by apply (Hsels service Hsv)|]. by rewrite Hexcl.
Qed.

End candidates.

(** ** Placement of the services *)

Section placing.
Variable re_match : string → string → bool.

Lemma placed_alter self schedule name service i :
  Scheduler.services self !! name = Some service →
  Scheduler.stage_index self (Service.stage service) = Some i →
  placed self schedule → placed self (alter (Dict.set name service) i schedule).
Proof.
  intros Hsv Hi (Hlen & Hnd & Hent). split; [by rewrite length_alter|]. split.
  - apply Forall_lookup. intros j stage Hj.
    destruct (decide (i = j)) as [<-|Hne].
    + rewrite list_lookup_alter_eq in Hj.
      destruct (schedule !! i) as [stage0|] eqn:Hstage; [|done].
      injection Hj as <-. apply dict_set_NoDup.
      by eapply Forall_lookup_1 in Hnd.
    + rewrite list_lookup_alter_ne in Hj by done. by eapply Forall_lookup_1 in Hnd.
  - intros j stage n s Hj Hin.
    destruct (decide (i = j)) as [<-|Hne].
    + rewrite list_lookup_alter_eq in Hj.
      destruct (schedule !! i) as [stage0|] eqn:Hstage; [|done].
      injection Hj as <-. apply dict_set_elem_of in Hin as [[-> ->]|Hin]; [done|].
      by eapply Hent.
    + rewrite list_lookup_alter_ne in Hj by done. by eapply Hent.
Qed.

Lemma place_services_placed self file_type services schedule schedule' :
  Scheduler.place_services re_match self file_type services schedule = Some schedule' →
  placed self schedule → placed self schedule'.
Proof.
  revert schedule. induction services as [|name services IH]; intros schedule; simpl.
  - by intros [= <-].
  - destruct (Scheduler.services self !! name) as [service|] eqn:Hsv; [|apply IH].
    destruct (_ && _); [|apply IH].
    destruct (Scheduler.stage_index self (Service.stage service)) as [i|] eqn:Hi;
      simpl; [|done].
    intros Hplace Hplaced. eapply IH; [exact Hplace|]. by apply placed_alter.
Qed.

(** X9. The schedule [Scheduler.build_schedule] returns has one stage for
    each configured stage; every entry holds the catalog's descriptor of the
    service under its name, in the stage the service declares; no name is
    twice in a stage, nor in two stages. *)
Theorem build_schedule_stages self fuel submission file_type schedule :
  Scheduler.build_schedule re_match self fuel submission file_type = Some schedule →
  length schedule = length (Scheduler.stages self) ∧
  Forall (λ stage, NoDup (Dict.keys stage)) schedule ∧
  (∀ i stage name service,
     schedule !! i = Some stage → (name, service) ∈ stage →
     Scheduler.services self !! name = Some service ∧
     Scheduler.stages self !! i = Some (Service.stage service)) ∧
  (∀ i j stage stage' name,
     schedule !! i = Some stage → schedule !! j = Some stage' →
     name ∈ Dict.keys stage → name ∈ Dict.keys stage' → i = j).
Proof.
  unfold Scheduler.build_schedule. intros H.
  destruct (Scheduler.expand_categories self fuel (Some (Params.excluded _)))
    as [excluded|]; simpl in H; [|done].
  destruct (match Params.selected _ with [] => _ | _ => _ end)
    as [selected|]; simpl in H; [|done].
  apply place_services_placed in H as (Hlen & Hnd & Hent).
  - split; [done|]. split; [done|]. split.
    + intros i stage name service Hi Hin. destruct (Hent _ _ _ _ Hi Hin) as [Hsv Hidx].
      split; [done|]. unfold Scheduler.stage_index in Hidx.
      pose proof (list_index_first (Service.stage service) (Scheduler.stages self)) as Hfirst.
      rewrite Hidx in Hfirst. by destruct Hfirst.
    + intros i j stage stage' name Hi Hj Hni Hnj.
      apply list_elem_of_fmap in Hni as ([n s] & -> & Hni).
      apply list_elem_of_fmap in Hnj as ([n' s'] & Heq & Hnj). simpl in Heq. subst n'.
      destruct (Hent _ _ _ _ Hi Hni) as [Hs Hidx], (Hent _ _ _ _ Hj Hnj) as [Hs' Hidx'].
      simpl in *. congruence.
  - split; [by rewrite length_replicate|]. split.
    + apply Forall_forall. intros stage [-> _]%elem_of_replicate. constructor.
    + intros i stage name service [-> _]%lookup_replicate Hin. by apply elem_of_nil in Hin.
Qed.

Lemma place_services_indexed self file_type services schedule schedule' name service :
  Scheduler.place_services re_match self file_type services schedule = Some schedule' →
  name ∈ services → Scheduler.services self !! name = Some service →
  accepted re_match service file_type → ¬ rejected re_match service file_type →
  is_Some (Scheduler.stage_index self (Service.stage service)).
Proof.
  intros Hplace Hin Hsv Ha Hr. revert schedule Hplace.
  induction services as [|n services IH]; intros schedule; [by apply elem_of_nil in Hin|].
  simpl. destruct (decide (name = n)) as [<-|Hne].
  - rewrite Hsv.
    assert ((bool_decide (Service.accepts service = "")
             || re_match (Service.accepts service) file_type)
            && negb (negb (bool_decide (Service.rejects service = ""))
                     && re_match (Service.rejects service) file_type) = true) as ->.
    { apply andb_true_iff. split.
      - destruct Ha as [->| ->]; [done|by rewrite orb_true_r].
      - apply negb_true_iff, andb_false_iff.
        destruct (re_match (Service.rejects service) file_type) eqn:Hm; [|by right].
        left. apply negb_false_iff, bool_decide_eq_true.
        destruct (decide (Service.rejects service = "")) as [|Hne]; [done|].
        exfalso. by apply Hr. }
    destruct (Scheduler.stage_index self (Service.stage service)); [by eexists|done].
  - apply elem_of_cons in Hin as [?|Hin]; [done|]. specialize (IH Hin).
    destruct (Scheduler.services self !! n) as [sv|]; [|apply IH].
    destruct (_ && _); [|apply IH].
    destruct (Scheduler.stage_index self (Service.stage sv)); simpl; [apply IH|done].
Qed.

(** X10. [Scheduler.build_schedule] raises when a system service that
    accepts the file type and does not reject it declares a stage that is
    not configured: [stage_index] finds no position for it. *)
Theorem build_schedule_unconfigured_stage self fuel submission file_type name service :
  Scheduler.services self !! name = Some service →
  Service.category service = Scheduler.system_category →
  accepted re_match service file_type → ¬ rejected re_match service file_type →
  Service.stage service ∉ Scheduler.stages self →
  Scheduler.build_schedule re_match self fuel submission file_type = None.
Proof.
  intros Hsv Hcat Ha Hr Hstage.
  destruct (Scheduler.build_schedule re_match self fuel submission file_type)
    as [schedule|] eqn:H; [exfalso|done].
  unfold Scheduler.build_schedule in H.
  destruct (Scheduler.expand_categories self fuel (Some (Params.excluded _)))
    as [excluded|]; simpl in H; [|done].
  destruct (match Params.selected _ with [] => _ | _ => _ end)
    as [selected|]; simpl in H; [|done].
  eapply place_services_indexed in H as [i Hi]; [|..|exact Hsv|exact Ha|exact Hr].
  - unfold Scheduler.stage_index in Hi.
    pose proof (list_index_first (Service.stage service) (Scheduler.stages self)) as Hfirst.
    rewrite Hi in Hfirst. destruct Hfirst as [Hfirst _].
    apply Hstage. by eapply list_elem_of_lookup_2.
  - apply elem_of_elements, elem_of_union. right.
    apply elem_of_list_to_set, list_elem_of_fmap. exists (name, service). split; [done|].
    apply list_elem_of_filter. split; [done|]. by apply elem_of_map_to_list.
Qed.

End placing.

(** * More of the dispatcher *)

(** ** Service configuration *)

Lemma dict_get_set {V} (k k' : string) (v : V) d :
  Dict.get k (Dict.set k' v d) = if decide (k = k') then Some v else Dict.get k d.
Proof.
  induction d as [|[k0 v0] d IH]; simpl.
  - destruct (decide (k = k')); done.
  - destruct (decide (k' = k0)) as [->|Hne]; simpl.
    + destruct (decide (k = k0)); done.
    + destruct (decide (k = k0)) as [->|Hne'].
      * by rewrite decide_False by done.
      * exact IH.
Qed.

Lemma dict_get_app {V} (k : string) (d e : list (string * V)) :
  Dict.get k (d ++ e) = match Dict.get k d with Some v => Some v | None => Dict.get k e end.
Proof.
  induction d as [|[k0 v0] d IH]; simpl; [done|]. destruct (decide (k = k0)); done.
Qed.

Lemma dict_get_update {V} (k : string) (d e : list (string * V)) :
  Dict.get k (Dict.update d e)
  = match Dict.get k (reverse e) with Some v => Some v | None => Dict.get k d end.
Proof.
  unfold Dict.update. revert d. induction e as [|[k0 v0] e IH]; intros d; simpl; [done|].
  rewrite IH, reverse_cons, dict_get_app, dict_get_set. simpl.
  destruct (Dict.get k (reverse e)); [done|]. destruct (decide (k = k0)); done.
Qed.

(** X12. The configuration [build_service_config] sends to a service: a
    parameter has the value the submission gives for this service, if it
    gives one, and otherwise the default the service declares (the last one
    declared under that name); a parameter neither declares is not set. *)
Theorem build_service_config_lookup service submission k :
  Dict.get k (Dispatcher.build_service_config service submission)
  = match Dict.get (Service.name service)
            (Params.service_spec (Submission.params submission))
          ≫= (λ spec, Dict.get k (reverse spec)) with
    | Some v => Some v
    | None => Dict.get k (reverse (Service.submission_params service))
    end.
Proof.
  unfold Dispatcher.build_service_config.
  assert (Dict.get k (foldl (λ acc x, Dict.set x.1 x.2 acc) [] (Service.submission_params service))
          = Dict.get k (reverse (Service.submission_params service))) as Hdefault.
  { pose proof (dict_get_update k [] (Service.submission_params service)) as H.
    unfold Dict.update in H. rewrite H. by destruct (Dict.get k (reverse _)). }
  destruct (Dict.get (Service.name service) _) as [spec|]; simpl.
  - by rewrite dict_get_update, Hdefault.
  - exact Hdefault.
Qed.

(** ** The finalizer, effect by effect *)

Lemma finalize_submission_exact task result_classifications max_score file_count w :
  let sid := Submission.sid (SubmissionTask.submission task) in
  Dispatcher.finalize_submission task result_classifications max_score file_count w
  = Some (tt, World.mk (World.now w) (delete sid (World.active_tasks w))
                (delete sid (World.tables w)) (World.file_store w) (World.result_store w)
                (delete (make_watcher_list_name sid) (World.watcher_lists w))
                (World.effects w
                 ++ finalize_trace task result_classifications max_score file_count w)).
Proof.
  intros sid. unfold finalize_trace. fold sid.
  unfold Dispatcher.finalize_submission. fold sid.
  unfold bind, get_table, get_world, ret.
  destruct (Params.quota_item _ && _); simpl;
    rewrite ?emit_run, ?modify_run; simpl;
    rewrite sort_statuses; simpl;
    rewrite ?emit_run; simpl;
    destruct (bool_decide (SubmissionTask.completed_queue task = "")); simpl;
    rewrite ?emit_run; simpl;
    rewrite for_each_emit; simpl;
    rewrite ?modify_run; simpl; rewrite ?emit_run; simpl; rewrite ?emit_run; simpl;
    rewrite ?modify_run; simpl;
    rewrite <- ?app_assoc; simpl; reflexivity.
Qed.

Lemma watcher_list_name_inj sid sid' :
  make_watcher_list_name sid = make_watcher_list_name sid' → sid = sid'.
Proof. unfold make_watcher_list_name. intros H. cbv in H. by simplify_eq. Qed.

Lemma service_queue_name_inj a b : service_queue_name a = service_queue_name b → a = b.
Proof. unfold service_queue_name. intros H. cbv in H. by simplify_eq. Qed.

(** X13. [finalize_submission] always returns, and flushes the working data
    of the submission: its dispatch table, its active task and its watcher
    list are gone; the tables, active tasks and watcher lists of the other
    submissions, the datastore and the clock are as before. *)
Theorem finalize_submission_cleanup task result_classifications max_score file_count w :
  let sid := Submission.sid (SubmissionTask.submission task) in
  ∃ w',
    Dispatcher.finalize_submission task result_classifications max_score file_count w
      = Some (tt, w') ∧
    World.tables w' !! sid = None ∧
    World.active_tasks w' !! sid = None ∧
    World.watcher_lists w' !! make_watcher_list_name sid = None ∧
    (∀ sid', sid' ≠ sid →
       World.tables w' !! sid' = World.tables w !! sid' ∧
       World.active_tasks w' !! sid' = World.active_tasks w !! sid' ∧
       World.watcher_lists w' !! make_watcher_list_name sid'
         = World.watcher_lists w !! make_watcher_list_name sid') ∧
    World.now w' = World.now w ∧
    World.file_store w' = World.file_store w ∧
    World.result_store w' = World.result_store w.
Proof.
  intros sid. eexists. split; [apply finalize_submission_exact|]. simpl. fold sid.
  rewrite !lookup_delete_eq. split; [done|]. split; [done|]. split; [done|].
  split; [|done]. intros sid' Hne. rewrite !lookup_delete_ne; [done|..]; try done.
  intros Heq%watcher_list_name_inj. done.
Qed.

(** X14. The effects of [finalize_submission], in order: the quota hold is
    released when the submission counts toward a quota; a warning is logged
    for each finish record of the dispatch table whose bucket is unexpected;
    the submission is saved, then pushed to the completion queue when the
    task names one; [STOP] is pushed to every watcher of the list; the list
    and the timeout watch are cleared. The records the warnings are about
    ([Dispatcher.statuses]) are the finish records of the table, each of
    them once. *)
Theorem finalize_submission_notifies task result_classifications max_score file_count w :
  let h := World.table (Submission.sid (SubmissionTask.submission task)) w in
  ∃ w',
    Dispatcher.finalize_submission task result_classifications max_score file_count w
      = Some (tt, w') ∧
    finish_records h (Dispatcher.statuses (DispatchHash.all_results h)) ∧
    emitted w w' = finalize_trace task result_classifications max_score file_count w.
Proof.
  intros h. eexists. split; [apply finalize_submission_exact|].
  split; [apply statuses_finish_records|]. by apply emitted_app.
Qed.

(** X15. After [finalize_submission], [dispatch_file] on a file of the
    submission finds it untracked: it logs a warning and does nothing
    else. *)
Theorem dispatch_file_after_finalize re_match self fuel task result_classifications
    max_score file_count file_task w w1 :
  Dispatcher.finalize_submission task result_classifications max_score file_count w
    = Some (tt, w1) →
  FileTask.sid file_task = Submission.sid (SubmissionTask.submission task) →
  Dispatcher.dispatch_file re_match self fuel file_task w1
  = Some (tt, World.set_effects
                (World.effects w1
                 ++ [LogWarning "Untracked submission is being processed"
                       (FileTask.sid file_task)]) w1).
Proof.
  rewrite finalize_submission_exact. intros [= <-] Hsid.
  unfold Dispatcher.dispatch_file, bind, get_world. simpl.
  rewrite Hsid, lookup_delete_eq. reflexivity.
Qed.

(** ** The score record of a file *)

Lemma tally_app f l1 l2 : tally f (l1 ++ l2) = tally f l1 + tally f l2.
Proof. unfold tally. induction l1 as [|x l1 IH]; simpl; [done|]. rewrite IH. lia. Qed.

Lemma tally_nil f : tally f [] = 0.
Proof. reflexivity. Qed.

Lemma tally_cons f x l : tally f (x :: l) = f x + tally f l.
Proof. reflexivity. Qed.

Local Arguments tally : simpl never.

Lemma dict_set_mem {V} (k : string) (v : V) d : (k, v) ∈ Dict.set k v d.
Proof.
  induction d as [|[k' v'] d IH]; simpl; [by left|].
  destruct (decide (k = k')); [by left|by right].
Qed.

Lemma dict_set_mem_ne {V} (k : string) (v : V) d n x :
  (n, x) ∈ d → n ≠ k → (n, x) ∈ Dict.set k v d.
Proof.
  induction d as [|[k' v'] d IH]; simpl; [by intros ?%elem_of_nil|].
  intros [[= <- <-]|Hin]%elem_of_cons Hne.
  - rewrite decide_False by done. by left.
  - destruct (decide (k = k')); right; [done|by apply IH].
Qed.

Section scan.
Variable self : Dispatcher.t.
Variable submission : Submission.t.
Variables sid file_hash : string.

Local Abbreviation catalog := (Scheduler.services (Dispatcher.scheduler self)).

Lemma scan_service_finished name st w r :
  DispatchHash.finished file_hash name (World.table sid w) = Some r →
  ∃ st', Dispatcher.scan_service self submission sid file_hash name st w = Some (st', w) ∧
    Dispatcher.started_stages st' = Dispatcher.started_stages st ∧
    Dispatcher.outstanding st' = Dispatcher.outstanding st ∧
    Dispatcher.score st' = Dispatcher.score st + score_of file_hash (World.table sid w) name ∧
    Dispatcher.errors st' = Dispatcher.errors st + error_of file_hash (World.table sid w) name ∧
    Dispatcher.scan_schedule st'
    = if drops submission file_hash (World.table sid w) name then []
      else Dispatcher.scan_schedule st.
Proof.
  intros Hfin. unfold Dispatcher.scan_service, bind, get_table, score_of, error_of, drops.
  simpl. rewrite Hfin.
  destruct (FinishRecord.is_error r); simpl.
  - eexists. split; [reflexivity|]. simpl. repeat split; lia.
  - destruct (Params.ignore_filtering _); simpl.
    + eexists. split; [reflexivity|]. simpl. repeat split; lia.
    + destruct (FinishRecord.drop r); simpl;
        (eexists; split; [reflexivity|]); simpl; repeat split; lia.
Qed.

Lemma scan_stage_finished stage st w :
  stage_finished file_hash (World.table sid w) stage →
  ∃ st', for_each (Dispatcher.scan_service self submission sid file_hash) stage st w
           = Some (st', w) ∧
    Dispatcher.started_stages st' = Dispatcher.started_stages st ∧
    Dispatcher.outstanding st' = Dispatcher.outstanding st ∧
    Dispatcher.score st'
    = Dispatcher.score st + tally (score_of file_hash (World.table sid w)) stage ∧
    Dispatcher.errors st'
    = Dispatcher.errors st + tally (error_of file_hash (World.table sid w)) stage ∧
    Dispatcher.scan_schedule st'
    = if existsb (drops submission file_hash (World.table sid w)) stage then []
      else Dispatcher.scan_schedule st.
Proof.
  revert st. induction stage as [|name stage IH]; intros st Hfin; simpl.
  - exists st. split; [done|]. rewrite !tally_nil. repeat split; lia.
  - apply Forall_cons in Hfin as [[r Hr] Hfin].
    destruct (scan_service_finished name st w r Hr)
      as (st1 & Hrun1 & Hst1 & Ho1 & Hs1 & He1 & Hd1).
    destruct (IH st1 Hfin) as (st' & Hrun & Hst & Ho & Hs & He & Hd).
    exists st'. unfold bind. rewrite Hrun1. split; [done|].
    rewrite !tally_cons.
    split; [congruence|]. split; [congruence|]. split; [lia|]. split; [lia|].
    rewrite Hd, Hd1. destruct (drops _ _ _ name), (existsb _ stage); done.
Qed.

(** The stage loop passes the stages that are finished without a record that
    ends the schedule. *)
Lemma scan_stages_pre pre rest st w :
  let h := World.table sid w in
  Dispatcher.outstanding st = [] →
  Forall (stage_finished file_hash h) pre →
  Forall (λ stage, existsb (drops submission file_hash h) stage = false) pre →
  ∃ st1,
    Dispatcher.scan_stages self submission sid file_hash (pre ++ rest) st w
    = Dispatcher.scan_stages self submission sid file_hash rest st1 w ∧
    Dispatcher.outstanding st1 = [] ∧
    Dispatcher.started_stages st1 = Dispatcher.started_stages st ++ pre ∧
    Dispatcher.score st1 = Dispatcher.score st + tally (score_of file_hash h) (concat pre) ∧
    Dispatcher.errors st1 = Dispatcher.errors st + tally (error_of file_hash h) (concat pre).
Proof.
  intros h. subst h. revert st.
  induction pre as [|stage pre IH]; intros st Hout Hfin Hdrop; simpl.
  - exists st. rewrite app_nil_r, !tally_nil. repeat split; try done; lia.
  - apply Forall_cons in Hfin as [Hstage Hfin]. apply Forall_cons in Hdrop as [Hnodrop Hdrop].
    rewrite Hout.
    destruct (scan_stage_finished stage (Dispatcher.start_stage stage (pre ++ rest) st) w Hstage)
      as (st1 & Hrun1 & Hst1 & Ho1 & Hs1 & He1 & Hd1).
    simpl in *. rewrite Hnodrop in Hd1. rewrite Hout in Ho1.
    unfold bind. rewrite Hrun1, Hd1.
    destruct (IH st1 Ho1 Hfin Hdrop) as (st2 & Hrun2 & Ho2 & Hst2 & Hs2 & He2).
    destruct (pre ++ rest) as [|s l] eqn:Hrest.
    + apply app_eq_nil in Hrest as [-> ->]. simpl in *.
      exists st1. split; [done|]. split; [done|].
      rewrite ?app_nil_r. repeat split; try done; lia.
    + rewrite <- Hrest in *. exists st2. split; [done|]. split; [done|].
      rewrite Hst2, Hst1, <- app_assoc, !tally_app. simpl. repeat split; try done; lia.
Qed.

Lemma scan_stage_outstanding stage st w :
  let h := World.table sid w in
  ∃ st', for_each (Dispatcher.scan_service self submission sid file_hash) stage st w
           = Some (st', w) ∧
    (∀ n, (n, catalog !! n) ∈ Dispatcher.outstanding st →
          (n, catalog !! n) ∈ Dispatcher.outstanding st') ∧
    (∀ n, n ∈ stage → DispatchHash.finished file_hash n h = None →
          (n, catalog !! n) ∈ Dispatcher.outstanding st').
Proof.
  intros h. subst h. revert st. induction stage as [|name stage IH]; intros st; simpl.
  - exists st. split; [done|]. split; [done|]. by intros ? ?%elem_of_nil.
  - destruct (scan_service_run self submission sid file_hash name st w)
      as (st1 & Hrun1 & _ & _ & Hout).
    destruct (IH st1) as (st' & Hrun & Hkeep & Hnew).
    exists st'. unfold bind. rewrite Hrun1. split; [done|].
    assert (∀ n, (n, catalog !! n) ∈ Dispatcher.outstanding st →
                 (n, catalog !! n) ∈ Dispatcher.outstanding st1) as Hkeep1.
    { intros n Hn. destruct (DispatchHash.finished file_hash name _); rewrite Hout; [done|].
      destruct (decide (n = name)) as [->|Hne]; [apply dict_set_mem|by apply dict_set_mem_ne]. }
    split; [intros n Hn; by apply Hkeep, Hkeep1|].
    intros n [->|Hin]%elem_of_cons Hnone; [|by apply Hnew].
    apply Hkeep. rewrite Hnone in Hout. rewrite Hout. apply dict_set_mem.
Qed.

End scan.

Lemma push_of_observed submission task (items : list (string * option Service.t)) :
  saved_of (omap (push_of submission task) items) = [] ∧
  files_pushed (omap (push_of submission task) items) = [].
Proof.
  induction items as [|[n [service|]] items [IH1 IH2]]; [done|..]; rewrite omap_cons; done.
Qed.

Lemma foldl_mark_rows task now h (items : list (string * option Service.t)) :
  DispatchHash.finished_rows (foldl (mark task now) h items) = DispatchHash.finished_rows h ∧
  DispatchHash.files (foldl (mark task now) h items) = DispatchHash.files h ∧
  DispatchHash.schedules (foldl (mark task now) h items) = DispatchHash.schedules h.
Proof.
  revert h. induction items as [|item items IH]; intros h; [done|]. simpl.
  destruct (IH (mark task now h item)) as (-> & -> & ->). done.
Qed.

(** ** The file dispatcher, case by case *)

Section file_done.
Variable re_match : string → string → bool.
Variable self : Dispatcher.t.
Variable fuel : nat.
Variable task : FileTask.t.

Local Abbreviation sid := (FileTask.sid task).
Local Abbreviation file_hash := (FileInfo.sha256 (FileTask.file_info task)).
Local Abbreviation catalog := (Scheduler.services (Dispatcher.scheduler self)).
Local Abbreviation touched w :=
  (World.set_effects
     (World.effects w ++ [TouchWatch sid (Dispatcher.config_timeout self) SUBMISSION_QUEUE]) w).

Lemma build_schedule_hit sid' submission sha file_type schedule w :
  DispatchHash.schedules (World.table sid' w) !! sha = Some schedule → schedule ≠ [] →
  Dispatcher.build_schedule re_match self fuel sid' submission sha file_type w
  = Some (schedule, w).
Proof.
  intros Hcached Hne.
  unfold Dispatcher.build_schedule, bind, get_table, DispatchHash.schedules_get. simpl.
  rewrite Hcached. by destruct schedule.
Qed.

Lemma dispatch_file_scanned submission_task schedule st w :
  let submission := SubmissionTask.submission submission_task in
  World.active_tasks w !! sid = Some submission_task →
  DispatchHash.schedules (World.table sid w) !! file_hash = Some schedule → schedule ≠ [] →
  Dispatcher.scan_stages self submission sid file_hash schedule
    (Dispatcher.mkScan schedule [] [] 0 0) (touched w) = Some (st, touched w) →
  Dispatcher.dispatch_file re_match self fuel task w
  = match Dispatcher.outstanding st with
    | [] =>
        Some (tt, World.set_effects
                    (World.effects w
                     ++ file_done_trace self task submission (Dispatcher.score st)
                          (Dispatcher.errors st) (World.now w)
                          (DispatchHash.all_finished (World.table sid w))) w)
    | _ :: _ =>
        for_each (Dispatcher.dispatch_service submission task) (Dispatcher.outstanding st)
          tt (touched w)
    end.
Proof.
  intros submission Hactive Hcached Hne Hscan. subst submission.
  unfold Dispatcher.dispatch_file.
  unfold bind at 1. unfold get_world at 1. rewrite Hactive.
  unfold bind at 1. rewrite emit_run.
  unfold bind at 1. rewrite (build_schedule_hit _ _ _ _ schedule) by done.
  unfold bind at 1. simpl in Hscan |- *. rewrite Hscan.
  destruct (Dispatcher.outstanding st); [|done].
  unfold bind, get_table. rewrite !emit_run. simpl.
  unfold file_done_trace.
  destruct (DispatchHash.all_finished _); rewrite ?emit_run; unfold ret; simpl;
    rewrite <- ?app_assoc; reflexivity.
Qed.

(** X16. The file is done. When the schedule cached for the file is not
    empty, every service of every stage has a finish record and none of the
    records ends the schedule, [dispatch_file] returns, dispatches nothing,
    and saves the score record of the file with the sum of the scores of the
    records that are not errors and the number of those that are; it deletes
    the tags of the file, counts the file as complete, and queues the
    submission again iff the dispatch table says that all is finished. *)
Theorem dispatch_file_done submission_task schedule w :
  let submission := SubmissionTask.submission submission_task in
  let h := World.table sid w in
  World.active_tasks w !! sid = Some submission_task →
  DispatchHash.schedules h !! file_hash = Some schedule → schedule ≠ [] →
  Forall (stage_finished file_hash h) schedule →
  Forall (λ stage, existsb (drops submission file_hash h) stage = false) schedule →
  Dispatcher.dispatch_file re_match self fuel task w
  = Some (tt, World.set_effects
                (World.effects w
                 ++ file_done_trace self task submission
                      (tally (score_of file_hash h) (concat schedule))
                      (tally (error_of file_hash h) (concat schedule))
                      (World.now w) (DispatchHash.all_finished h)) w).
Proof.
  intros submission h Hactive Hcached Hne Hfin Hdrop. subst submission h.
  destruct (scan_stages_pre self (SubmissionTask.submission submission_task) sid file_hash
              schedule [] (Dispatcher.mkScan schedule [] [] 0 0) (touched w) eq_refl Hfin Hdrop)
    as (st & Hscan & Hout & _ & Hscore & Herrors).
  rewrite app_nil_r in Hscan. simpl in Hscan, Hscore, Herrors.
  rewrite (dispatch_file_scanned submission_task schedule st) by done.
  rewrite Hout, Hscore, Herrors. done.
Qed.

(** X17. Filtering. When a finish record of a stage ends the schedule (not
    an error, [drop] set, filtering not ignored) and the stages up to that
    one are finished, [dispatch_file] treats the file as done: the services
    of the later stages are neither dispatched nor counted in the score
    record, and the dispatch table, with the cached schedule, is left as it
    was. *)
Theorem dispatch_file_drop submission_task pre stage post w :
  let submission := SubmissionTask.submission submission_task in
  let h := World.table sid w in
  World.active_tasks w !! sid = Some submission_task →
  DispatchHash.schedules h !! file_hash = Some (pre ++ stage :: post) →
  Forall (stage_finished file_hash h) pre →
  Forall (λ stage, existsb (drops submission file_hash h) stage = false) pre →
  stage_finished file_hash h stage →
  existsb (drops submission file_hash h) stage = true →
  Dispatcher.dispatch_file re_match self fuel task w
  = Some (tt, World.set_effects
                (World.effects w
                 ++ file_done_trace self task submission
                      (tally (score_of file_hash h) (concat (pre ++ [stage])))
                      (tally (error_of file_hash h) (concat (pre ++ [stage])))
                      (World.now w) (DispatchHash.all_finished h)) w).
Proof.
  intros submission h Hactive Hcached Hfin Hdrop Hstage Hdrops. subst submission h.
  destruct (scan_stages_pre self (SubmissionTask.submission submission_task) sid file_hash
              pre (stage :: post) (Dispatcher.mkScan (pre ++ stage :: post) [] [] 0 0)
              (touched w) eq_refl Hfin Hdrop)
    as (st1 & Hscan & Hout1 & Hst1 & Hscore1 & Herrors1).
  destruct (scan_stage_finished self (SubmissionTask.submission submission_task) sid file_hash
              stage (Dispatcher.start_stage stage post st1) (touched w) Hstage)
    as (st & Hrun & _ & Hout & Hscore & Herrors & Hsched).
  simpl in Hscan, Hscore1, Herrors1, Hout, Hscore, Herrors, Hsched.
  rewrite table_set_effects in Hscore1, Herrors1, Hscore, Herrors, Hsched.
  rewrite Hdrops in Hsched. rewrite Hout1 in Hout.
  assert (Dispatcher.scan_stages self (SubmissionTask.submission submission_task) sid file_hash
            (pre ++ stage :: post) (Dispatcher.mkScan (pre ++ stage :: post) [] [] 0 0)
            (touched w) = Some (st, touched w)) as Hscan'.
  { rewrite Hscan. simpl. rewrite Hout1. unfold bind. rewrite Hrun, Hsched. done. }
  rewrite (dispatch_file_scanned submission_task (pre ++ stage :: post) st);
    [|done|done|by destruct pre|done].
  rewrite Hout, Hscore, Herrors, Hscore1, Herrors1.
  rewrite !concat_app, !tally_app. simpl. rewrite !app_nil_r.
  do 4 f_equal; lia.
Qed.

End file_done.

Section progress.
Variable re_match : string → string → bool.
Variable self : Dispatcher.t.
Variable fuel : nat.
Variable task : FileTask.t.

Local Abbreviation sid := (FileTask.sid task).
Local Abbreviation file_hash := (FileInfo.sha256 (FileTask.file_info task)).
Local Abbreviation catalog := (Scheduler.services (Dispatcher.scheduler self)).
Local Abbreviation touched w :=
  (World.set_effects
     (World.effects w ++ [TouchWatch sid (Dispatcher.config_timeout self) SUBMISSION_QUEUE]) w).

Lemma dispatch_loop_total submission items w :
  Forall (λ item : string * option Service.t, is_Some item.2) items →
  is_Some (for_each (Dispatcher.dispatch_service submission task) items tt w).
Proof.
  revert w. induction items as [|[n v] items IH]; intros w Hall; simpl; [by eexists|].
  apply Forall_cons in Hall as [Hv Hall]. simpl in Hv. destruct Hv as [service ->].
  unfold bind at 1.
  assert (∃ w1, Dispatcher.dispatch_service submission task (n, Some service) tt w
                = Some (tt, w1)) as [w1 ->].
  { unfold Dispatcher.dispatch_service, bind, get_world, get_table, lift. simpl.
    destruct (decide _); by eexists. }
  by apply IH.
Qed.

(** X18. Progress. When the stages before [stage] are finished without a
    record that ends the schedule, a service of [stage] without finish
    record whose dispatch window has elapsed is dispatched by the call: one
    task for it, built from the file task and the configuration of the
    service, is pushed to the queue of the service, and its dispatch time is
    set to the time of the call. The call returns as long as the catalog
    knows the unfinished services of the stage. *)
Theorem dispatch_file_progress submission_task pre stage post name service w :
  let submission := SubmissionTask.submission submission_task in
  let h := World.table sid w in
  World.active_tasks w !! sid = Some submission_task →
  DispatchHash.schedules h !! file_hash = Some (pre ++ stage :: post) →
  Forall (stage_finished file_hash h) pre →
  Forall (λ stage, existsb (drops submission file_hash h) stage = false) pre →
  (∀ n, n ∈ stage → DispatchHash.finished file_hash n h = None → is_Some (catalog !! n)) →
  name ∈ stage →
  DispatchHash.finished file_hash name h = None →
  catalog !! name = Some service →
  Service.timeout service ≤ World.now w - DispatchHash.dispatch_time file_hash name h →
  ∃ w',
    Dispatcher.dispatch_file re_match self fuel task w = Some (tt, w') ∧
    PushService (service_queue_name name)
      (ServiceTask.mk sid name (Dispatcher.build_service_config service submission)
         (FileTask.file_info task) (FileTask.depth task) (FileTask.max_files task))
      ∈ emitted w w' ∧
    pushes name (emitted w w') = 1%nat ∧
    DispatchHash.dispatch_time file_hash name (World.table sid w') = World.now w.
Proof.
  intros submission h Hactive Hcached Hfin Hdrop Hcat Hname Hnone Hservice Hdue.
  subst submission h.
  set (submission := SubmissionTask.submission submission_task) in *.
  set (schedule := pre ++ stage :: post) in *.
  destruct (scan_stages_run self submission sid file_hash schedule
              (Dispatcher.mkScan schedule [] [] 0 0) (touched w) eq_refl)
    as (st & Hscan & [Hnd Hent] & Hsplit).
  rewrite table_set_effects in Hent, Hsplit.
  (* the entry of the service is outstanding *)
  assert ((name, Some service) ∈ Dispatcher.outstanding st) as Hitem.
  { destruct (scan_stages_pre self submission sid file_hash pre (stage :: post)
                (Dispatcher.mkScan schedule [] [] 0 0) (touched w) eq_refl Hfin Hdrop)
      as (st1 & Hpre & Hout1 & _).
    fold schedule in Hpre. rewrite Hpre in Hscan. simpl in Hscan. rewrite Hout1 in Hscan.
    destruct (scan_stage_outstanding self submission sid file_hash stage
                (Dispatcher.start_stage stage post st1) (touched w))
      as (st2 & Hrun2 & _ & Hnew).
    unfold bind in Hscan. rewrite Hrun2 in Hscan.
    specialize (Hnew name Hname Hnone). rewrite Hservice in Hnew.
    destruct (Dispatcher.scan_schedule st2).
    - unfold ret in Hscan. injection Hscan as Hst. subst st. exact Hnew.
    - destruct post as [|s post]; simpl in Hscan.
      + unfold ret in Hscan. injection Hscan as Hst. subst st. exact Hnew.
      + destruct (Dispatcher.outstanding st2) eqn:Ho; [by apply elem_of_nil in Hnew|].
        unfold ret in Hscan. injection Hscan as Hst. subst st. by rewrite Ho. }
  assert (Forall (λ item : string * option Service.t, is_Some item.2)
            (Dispatcher.outstanding st)) as Hall.
  { apply Forall_forall. intros [n v] Hin. destruct (Hent _ _ Hin) as [-> Hn]. simpl.
    destruct Hsplit as [Hnil|(pre' & stage' & post' & Heq & Hpre' & Hstage' & Hkeys & _)].
    - rewrite Hnil in Hin. by apply elem_of_nil in Hin.
    - apply Hcat; [|done].
      (* the first unfinished stage is [stage] *)
      assert (n ∈ stage') as Hn' by (apply Hkeys, list_elem_of_fmap; by exists (n, catalog !! n)).
      assert (¬ stage_finished file_hash (World.table sid w) stage) as Hunfinished.
      { intros Hall. eapply Forall_forall in Hall; [|exact Hname].
        rewrite Hnone in Hall. by destruct Hall. }
      clear -Heq Hfin Hpre' Hstage' Hunfinished Hn'. subst schedule.
      revert pre' Heq Hpre'. induction pre as [|s pre IH]; intros pre' Heq Hpre'.
      + destruct pre' as [|s' pre']; simpl in Heq.
        * by injection Heq as -> _.
        * injection Heq as -> _. by apply Forall_cons in Hpre' as [? _].
      + apply Forall_cons in Hfin as [Hs Hfin].
        destruct pre' as [|s' pre']; simpl in Heq.
        * injection Heq as -> _. done.
        * injection Heq as _ Heq. apply Forall_cons in Hpre' as [_ Hpre'].
          by apply (IH Hfin pre'). }
  destruct (dispatch_loop_total submission (Dispatcher.outstanding st) (touched w) Hall)
    as [[[] w'] Hloop].
  exists w'.
  assert (Dispatcher.dispatch_file re_match self fuel task w = Some (tt, w')) as Hrun.
  { rewrite (dispatch_file_scanned re_match self fuel task submission_task schedule st);
      [|done|done|subst schedule; by destruct pre|done].
    destruct (Dispatcher.outstanding st); [by apply elem_of_nil in Hitem|done]. }
  split; [done|].
  destruct (dispatch_loop_run submission task _ _ _ Hnd Hloop)
    as (_ & _ & _ & Heff & Htab & _).
  simpl in Heff, Htab. rewrite table_set_effects in Heff, Htab.
  assert ((name, Some service)
          ∈ filter (due task (World.now w) (World.table sid w)) (Dispatcher.outstanding st))
    as Hdues by (by apply list_elem_of_filter).
  assert (emitted w w'
          = [TouchWatch sid (Dispatcher.config_timeout self) SUBMISSION_QUEUE]
            ++ omap (push_of submission task)
                 (filter (due task (World.now w) (World.table sid w))
                    (Dispatcher.outstanding st))) as Hem.
  { apply emitted_app. by rewrite Heff, <- app_assoc. }
  split; [|split].
  - rewrite Hem. apply elem_of_app. right. apply list_elem_of_omap.
    by exists (name, Some service).
  - unfold pushes. rewrite Hem, tasks_pushed_app, tasks_pushed_push_of. simpl.
    apply Nat.le_antisymm.
    + apply pushes_NoDup. by apply keys_filter_NoDup.
    + assert (ServiceTask.mk sid name (Dispatcher.build_service_config service submission)
                (FileTask.file_info task) (FileTask.depth task) (FileTask.max_files task)
              ∈ filter (λ t, ServiceTask.service_name t = name)
                  (omap (service_task_of submission task)
                     (filter (due task (World.now w) (World.table sid w))
                        (Dispatcher.outstanding st)))) as Hin.
      { apply list_elem_of_filter. split; [done|]. apply list_elem_of_omap.
        by exists (name, Some service). }
      destruct (filter _ (omap _ _)); [by apply elem_of_nil in Hin|simpl; lia].
  - rewrite Htab, dispatch_time_foldl_mark, decide_True; [done|].
    apply list_elem_of_fmap. by exists (name, Some service).
Qed.

End progress.

Section trace.
Variable re_match : string → string → bool.
Variable self : Dispatcher.t.
Variable fuel : nat.
Variable task : FileTask.t.

Local Abbreviation sid := (FileTask.sid task).
Local Abbreviation file_hash := (FileInfo.sha256 (FileTask.file_info task)).
Local Abbreviation catalog := (Scheduler.services (Dispatcher.scheduler self)).
Local Abbreviation touch :=
  (TouchWatch sid (Dispatcher.config_timeout self) SUBMISSION_QUEUE).
Local Abbreviation touched w :=
  (World.set_effects (World.effects w ++ [touch]) w).

(** The effects of one call, for a tracked submission. *)
Lemma dispatch_file_trace submission_task w w' :
  let submission := SubmissionTask.submission submission_task in
  World.active_tasks w !! sid = Some submission_task →
  Dispatcher.dispatch_file re_match self fuel task w = Some (tt, w') →
  ∃ schedule wb st,
    Dispatcher.build_schedule re_match self fuel sid submission file_hash
      (FileInfo.type (FileTask.file_info task)) (touched w) = Some (schedule, wb) ∧
    Dispatcher.scan_stages self submission sid file_hash schedule
      (Dispatcher.mkScan schedule [] [] 0 0) wb = Some (st, wb) ∧
    outstanding_ok self file_hash (World.table sid wb) (Dispatcher.outstanding st) ∧
    emitted w w'
    = match Dispatcher.outstanding st with
      | [] => file_done_trace self task submission (Dispatcher.score st)
                (Dispatcher.errors st) (World.now w)
                (DispatchHash.all_finished (World.table sid wb))
      | _ :: _ =>
          touch :: omap (push_of submission task)
                     (filter (due task (World.now w) (World.table sid w))
                        (Dispatcher.outstanding st))
      end.
Proof.
  intros submission Hactive. subst submission. unfold Dispatcher.dispatch_file.
  intros (w0 & ? & [= <- <-] & Hrun)%bind_run. rewrite Hactive in Hrun.
  apply bind_run in Hrun as ([] & wa & [= <-] & Hrun).
  apply bind_run in Hrun as (schedule & wb & Hbuild & Hrun).
  apply bind_run in Hrun as (st & wc & Hscan & Hrun).
  destruct (scan_stages_run self (SubmissionTask.submission submission_task) sid file_hash schedule
              (Dispatcher.mkScan schedule [] [] 0 0) wb eq_refl)
    as (st' & Hscan' & Hok & _).
  rewrite Hscan in Hscan'. injection Hscan' as Hst Hw. subst st' wc.
  exists schedule, wb, st. split; [done|]. split; [done|]. split; [done|].
  destruct (build_schedule_frame _ _ _ _ _ _ _ _ _ _ Hbuild)
    as (Hframe & Heff & Hact & Hdisp & Hfin & Hfiles & Hother).
  simpl in *.
  assert (∀ item, due task (World.now w) (World.table sid w) item
                  ↔ due task (World.now wb) (World.table sid wb) item) as Hdue.
  { intros item. destruct Hframe as (-> & _). simpl. symmetry.
    apply due_dispatched. rewrite Hdisp. done. }
  rewrite (list_filter_iff _ _ _ Hdue).
  destruct (Dispatcher.outstanding st) as [|item items] eqn:Hout.
  - apply bind_run in Hrun as ([] & w1 & [= <-] & Hrun).
    apply bind_run in Hrun as ([] & w2 & [= <-] & Hrun).
    apply bind_run in Hrun as ([] & w3 & [= <-] & Hrun).
    apply bind_run in Hrun as ([] & w4 & [= <-] & Hrun).
    apply bind_run in Hrun as (h & w5 & [= <- <-] & Hrun).
    apply emitted_app. unfold file_done_trace.
    destruct Hframe as (Hnow & _). simpl in Hnow.
    change (World.table sid (World.set_effects _ (World.set_effects _
              (World.set_effects _ (World.set_effects _ wb)))))
      with (World.table sid wb) in Hrun.
    destruct (DispatchHash.all_finished _); injection Hrun as <-; simpl;
      rewrite Heff; simpl; rewrite <- ?app_assoc; simpl; reflexivity.
  - rewrite <- Hout in *. destruct Hok as [Hnd _].
    destruct (dispatch_loop_run (SubmissionTask.submission submission_task) task _ _ _ Hnd Hrun)
      as (_ & _ & _ & Heff' & _).
    apply emitted_app. rewrite Heff', Heff. simpl. by rewrite <- app_assoc.
Qed.

End trace.

Lemma queues_pushed_push_of submission task (items : list (string * option Service.t)) :
  queues_pushed (omap (push_of submission task) items)
  = service_queue_name <$> Dict.keys (filter (λ item, is_Some item.2) items).
Proof.
  unfold queues_pushed, Dict.keys.
  induction items as [|[n [service|]] items IH]; [done|..];
    rewrite omap_cons, filter_cons.
  - rewrite decide_True by (by eexists). rewrite fmap_cons. simpl. by f_equal.
  - rewrite decide_False by (by intros [? ?]). done.
Qed.

Section routing.
Variable re_match : string → string → bool.
Variable self : Dispatcher.t.
Variable fuel : nat.
Variable task : FileTask.t.

Local Abbreviation sid := (FileTask.sid task).
Local Abbreviation file_hash := (FileInfo.sha256 (FileTask.file_info task)).
Local Abbreviation catalog := (Scheduler.services (Dispatcher.scheduler self)).

Lemma dispatch_file_pushed submission_task w w' queue t :
  let submission := SubmissionTask.submission submission_task in
  World.active_tasks w !! sid = Some submission_task →
  Dispatcher.dispatch_file re_match self fuel task w = Some (tt, w') →
  PushService queue t ∈ emitted w w' →
  queue = service_queue_name (ServiceTask.service_name t) ∧
  ∃ service,
    catalog !! ServiceTask.service_name t = Some service ∧
    t = ServiceTask.mk sid (ServiceTask.service_name t)
          (Dispatcher.build_service_config service submission)
          (FileTask.file_info task) (FileTask.depth task) (FileTask.max_files task).
Proof.
  intros submission Hactive Hrun Hin. subst submission.
  destruct (dispatch_file_trace _ _ _ _ _ _ _ Hactive Hrun)
    as (schedule & wb & st & _ & _ & [_ Hent] & Hem).
  rewrite Hem in Hin. destruct (Dispatcher.outstanding st) as [|item items] eqn:Hout.
  - exfalso. unfold file_done_trace in Hin.
    destruct (DispatchHash.all_finished _);
      rewrite ?elem_of_app, ?elem_of_cons, ?elem_of_nil in Hin; naive_solver.
  - rewrite <- Hout in *. apply elem_of_cons in Hin as [?|Hin]; [done|].
    apply list_elem_of_omap in Hin as ([n [service|]] & Hitem & Hpush); [|done].
    apply list_elem_of_filter in Hitem as [_ Hitem].
    destruct (Hent _ _ Hitem) as [Hcat _].
    injection Hpush as <- <-. simpl. split; [done|]. by exists service.
Qed.

(** X19. Every task [dispatch_file] pushes goes to the queue named after
    its service, for a service of the catalog, with the sid, file
    information, depth and file quota of the file task and the configuration
    [build_service_config] gives; a call pushes no two tasks to one queue:
    the queues it pushes to are pairwise distinct. *)
Theorem dispatch_file_routing submission_task w w' :
  let submission := SubmissionTask.submission submission_task in
  World.active_tasks w !! sid = Some submission_task →
  Dispatcher.dispatch_file re_match self fuel task w = Some (tt, w') →
  (∀ queue t, PushService queue t ∈ emitted w w' →
     queue = service_queue_name (ServiceTask.service_name t) ∧
     ∃ service,
       catalog !! ServiceTask.service_name t = Some service ∧
       t = ServiceTask.mk sid (ServiceTask.service_name t)
             (Dispatcher.build_service_config service submission)
             (FileTask.file_info task) (FileTask.depth task) (FileTask.max_files task)) ∧
  NoDup (queues_pushed (emitted w w')).
Proof.
  intros submission Hactive Hrun. split.
  - intros queue t. by apply dispatch_file_pushed.
  - destruct (dispatch_file_trace _ _ _ _ _ _ _ Hactive Hrun)
      as (schedule & wb & st & _ & _ & [Hnd _] & Hem).
    rewrite Hem. destruct (Dispatcher.outstanding st) as [|item items] eqn:Hout.
    + unfold file_done_trace. destruct (DispatchHash.all_finished _); constructor.
    + rewrite <- Hout in *.
      change (queues_pushed (?e :: ?l)) with (queues_pushed l).
      rewrite queues_pushed_push_of.
      apply NoDup_fmap_2; [intros a b; apply service_queue_name_inj|].
      by do 2 apply keys_filter_NoDup.
Qed.

(** X20. What [dispatch_file] never does, tracked submission or not: it
    saves no submission and pushes no file task; it leaves the clock, the
    datastore, the watcher lists and the active tasks alone; it changes no
    finish record and admits no file. *)
Theorem dispatch_file_never w w' :
  Dispatcher.dispatch_file re_match self fuel task w = Some (tt, w') →
  saved_of (emitted w w') = [] ∧
  files_pushed (emitted w w') = [] ∧
  World.now w' = World.now w ∧
  World.file_store w' = World.file_store w ∧
  World.result_store w' = World.result_store w ∧
  World.watcher_lists w' = World.watcher_lists w ∧
  World.active_tasks w' = World.active_tasks w ∧
  ∀ sid',
    DispatchHash.finished_rows (World.table sid' w')
      = DispatchHash.finished_rows (World.table sid' w) ∧
    DispatchHash.files (World.table sid' w') = DispatchHash.files (World.table sid' w).
Proof.
  intros Hrun.
  destruct (World.active_tasks w !! sid) as [submission_task|] eqn:Hactive.
  - destruct (dispatch_file_trace _ _ _ _ _ _ _ Hactive Hrun)
      as (schedule & wb' & st' & Hbuild' & Hscan' & _ & Hem).
    destruct (dispatch_file_run _ _ _ _ _ _ _ Hactive Hrun)
      as (schedule0 & wb & st & Hbuild & Hscan & _ & _ & Htab & Hother & Hframe & Hact).
    rewrite Hbuild in Hbuild'. injection Hbuild' as H1 H2. subst schedule0 wb'.
    rewrite Hscan in Hscan'. injection Hscan' as H1. subst st'.
    destruct (build_schedule_frame _ _ _ _ _ _ _ _ _ _ Hbuild)
      as (_ & _ & _ & _ & Hfin & Hfiles & _).
    rewrite table_set_effects in Hfin, Hfiles.
    destruct Hframe as (Hnow & Hfs & Hrs & Hwl).
    assert (saved_of (emitted w w') = [] ∧ files_pushed (emitted w w') = []) as [Hs Hf].
    { rewrite Hem. destruct (Dispatcher.outstanding st).
      - unfold file_done_trace. by destruct (DispatchHash.all_finished _).
      - change (?e :: omap ?f ?l) with ([e] ++ omap f l).
        rewrite saved_of_app, files_pushed_app.
        by destruct (push_of_observed (SubmissionTask.submission submission_task) task
                       (filter (due task (World.now w) (World.table sid w)) (p :: l)))
          as [-> ->]. }
    repeat (split; [done|]).
    intros sid'. destruct (decide (sid' = sid)) as [->|Hne].
    + rewrite Htab.
      destruct (foldl_mark_rows task (World.now w) (World.table sid wb)
                  (filter (due task (World.now w) (World.table sid w))
                     (Dispatcher.outstanding st))) as (-> & -> & _).
      done.
    + by rewrite Hother.
  - unfold Dispatcher.dispatch_file, bind, get_world in Hrun. simpl in Hrun.
    rewrite Hactive, emit_run in Hrun. injection Hrun as <-. simpl.
    rewrite (emitted_app w _ [LogWarning "Untracked submission is being processed" sid])
      by done.
    repeat (split; [done|]). done.
Qed.

End routing.

(** ** The submission dispatcher, pass by pass *)

Lemma triple_ret {A} (P : World.t → Prop) (Q : A → World.t → Prop) a :
  (∀ w, P w → Q a w) → triple P (ret a) Q.
Proof. intros HPQ w ? ? [= <- <-]. apply HPQ. Qed.

Lemma triple_bind {A B} (P : World.t → Prop) (Q : A → World.t → Prop) (R : B → World.t → Prop)
    (m : M A) (k : A → M B) :
  triple P m Q → (∀ a, triple (Q a) (k a) R) → triple P (bind m k) R.
Proof.
  intros Hm Hk w b w'' (a & w' & H1 & H2)%bind_run HP.
  eapply Hk; [exact H2|]. by eapply Hm.
Qed.

Lemma triple_weaken {A} (P P' : World.t → Prop) (Q Q' : A → World.t → Prop) (m : M A) :
  (∀ w, P' w → P w) → (∀ a w, Q a w → Q' a w) → triple P m Q → triple P' m Q'.
Proof. intros HP HQ Hm w a w' Hrun HP'. eapply HQ, Hm; [exact Hrun|]. by apply HP. Qed.

Lemma triple_for_each {A B} (I : B → World.t → Prop) (body : A → B → M B) l st :
  (∀ x st, x ∈ l → triple (I st) (body x st) I) → triple (I st) (for_each body l st) I.
Proof.
  revert st. induction l as [|x l IH]; intros st Hbody; simpl.
  - by apply triple_ret.
  - eapply triple_bind; [apply Hbody; by left|].
    intros st'. apply IH. intros y st'' Hy. apply Hbody. by right.
Qed.

Lemma triple_emit (P : World.t → Prop) e :
  (∀ w es, P w → P (World.set_effects es w)) → triple P (emit e) (λ _, P).
Proof. intros HP w ? ? [= <- <-] H. by apply HP. Qed.

Lemma triple_get_world (P : World.t → Prop) :
  triple P get_world (λ w0 w, w0 = w ∧ P w).
Proof. by intros w ? ? [= <- <-] H. Qed.

Lemma triple_get_table (P : World.t → Prop) sid :
  triple P (get_table sid) (λ _, P).
Proof. by intros w ? ? [= <- <-] H. Qed.

Lemma triple_lift {A} (P : World.t → Prop) (o : option A) :
  triple P (lift o) (λ _, P).
Proof. intros w ? ?. unfold lift. destruct o; [|done]. by intros [= <- <-]. Qed.

Lemma stores_are_effects fs act w es :
  stores_are fs act w → stores_are fs act (World.set_effects es w).
Proof. done. Qed.

Lemma make_file_task_info sid data depth max_files :
  FileTask.file_info (Dispatcher.make_file_task sid data depth max_files) = data.
Proof. by destruct data. Qed.

Lemma make_file_task_ok fs sid max_files key data depth :
  fs !! key = Some data →
  task_ok fs sid max_files (Dispatcher.make_file_task sid data depth max_files).
Proof.
  intros Hkey. split; [done|]. split; [done|]. split; [done|].
  exists key. by rewrite make_file_task_info.
Qed.

Section walk_invariant.
Variable fs : gmap string FileInfo.t.
Variable sid : string.
Variable max_files : Z.

Lemma walk_ok_fields st st' :
  Dispatcher.unchecked_files st' = Dispatcher.unchecked_files st →
  Dispatcher.pending_files st' = Dispatcher.pending_files st →
  walk_ok fs sid max_files st → walk_ok fs sid max_files st'.
Proof. unfold walk_ok. by intros -> ->. Qed.

Lemma walk_extracted_ok sha sub_file st :
  walk_ok fs sid max_files st →
  walk_ok fs sid max_files (Dispatcher.walk_extracted fs sid sha max_files sub_file st).
Proof.
  intros Hok. unfold Dispatcher.walk_extracted.
  destruct (decide _); [by eapply walk_ok_fields|].
  destruct (fs !! sub_file) as [data|] eqn:Hdata; [|by eapply walk_ok_fields].
  destruct Hok as (Hun & Hnd & Hpen). split; [|done]. simpl.
  constructor; [by eapply make_file_task_ok|done].
Qed.

Lemma walk_all_extracted_ok sha subs st :
  walk_ok fs sid max_files st →
  walk_ok fs sid max_files
    (foldl (λ st sub_file, Dispatcher.walk_extracted fs sid sha max_files sub_file st) st subs).
Proof.
  revert st. induction subs as [|sub subs IH]; intros st Hok; [done|].
  simpl. by apply IH, walk_extracted_ok.
Qed.

Lemma set_pending_ok file_task st :
  task_ok fs sid max_files file_task →
  walk_ok fs sid max_files st →
  walk_ok fs sid max_files
    (Dispatcher.set_pending (FileInfo.sha256 (FileTask.file_info file_task)) file_task st).
Proof.
  intros Htask (Hun & Hnd & Hpen). split; [done|]. split; [by apply dict_set_NoDup|].
  intros key ft [[-> ->]|Hin]%dict_set_elem_of; [done|by apply Hpen].
Qed.

End walk_invariant.

Section walk_run.
Variable re_match : string → string → bool.
Variable self : Dispatcher.t.
Variable fs : gmap string FileInfo.t.
Variable act : gmap string SubmissionTask.t.
Variable submission : Submission.t.
Variable max_files : Z.

Local Abbreviation sid := (Submission.sid submission).
Local Abbreviation inv :=
  (λ st w, walk_ok fs sid max_files st ∧ stores_are fs act w).

Lemma walk_service_ok file_task name st :
  task_ok fs sid max_files file_task →
  triple (inv st) (Dispatcher.walk_service self submission max_files file_task name st) inv.
Proof.
  intros Htask w st' w' Hrun [Hok Hw].
  unfold Dispatcher.walk_service, bind, get_world, get_table, lift in Hrun.
  destruct (Scheduler.services _ !! name) as [service|]; [|done].
  destruct (decide _); [injection Hrun as <- <-; split; [by apply set_pending_ok|done]|].
  destruct (DispatchHash.finished _ _ _) as [row|];
    [|injection Hrun as <- <-; split; [by apply set_pending_ok|done]].
  destruct (FinishRecord.is_error row); [by injection Hrun as <- <-|].
  assert (walk_ok fs sid max_files
            (if negb (Params.ignore_filtering (Submission.params submission))
                && FinishRecord.drop row
             then Dispatcher.set_schedule [] st else st)) as Hok'
    by (destruct (negb _ && _); [by eapply walk_ok_fields|done]).
  destruct (World.result_store w !! FinishRecord.key row) as [result|].
  - injection Hrun as <- <-. split; [|done].
    destruct Hw as [-> _].
    eapply walk_ok_fields; [| |apply walk_all_extracted_ok, Hok']; done.
  - rewrite emit_run in Hrun. injection Hrun as <- <-. done.
Qed.

Lemma walk_schedule_ok file_task stages st :
  task_ok fs sid max_files file_task →
  triple (inv st) (Dispatcher.walk_schedule self submission max_files file_task stages st) inv.
Proof.
  intros Htask. revert st. induction stages as [|stage stages IH]; intros st; simpl.
  - by apply triple_ret.
  - eapply triple_bind.
    + eapply triple_weaken; [| |apply (triple_for_each inv)].
      * intros w [Hok Hw]. split; [|exact Hw]. by eapply walk_ok_fields.
      * done.
      * intros name st0 _. by apply walk_service_ok.
    + intros st'. destruct (Dispatcher.schedule st'); [by apply triple_ret|apply IH].
Qed.

Lemma build_schedule_stores fuel sha file_type (P : Prop) :
  triple (λ w, P ∧ stores_are fs act w)
    (Dispatcher.build_schedule re_match self fuel sid submission sha file_type)
    (λ _ w, P ∧ stores_are fs act w).
Proof.
  intros w schedule w' ((_ & Hfs & _) & _ & Hact & _)%build_schedule_frame [HP [<- <-]].
  done.
Qed.

Lemma walk_ok_run fuel st :
  triple (inv st) (Dispatcher.walk re_match self fuel submission max_files st) inv.
Proof.
  revert st. induction fuel as [|fuel IH]; intros st; simpl.
  - destruct (Dispatcher.unchecked_files st); [by apply triple_ret|by intros ? ? ?].
  - destruct (Dispatcher.unchecked_files st) as [|file_task unchecked] eqn:Hun;
      [by apply triple_ret|].
    intros w st' w' Hrun [Hok Hw].
    assert (task_ok fs sid max_files file_task ∧
            walk_ok fs sid max_files (Dispatcher.set_unchecked_files unchecked st))
      as [Htask Hok'].
    { destruct Hok as (Hall & Hnd & Hpen). rewrite Hun in Hall.
      apply Forall_cons in Hall as [Htask Hall]. split; [done|]. by split. }
    apply bind_run in Hrun as (schedule & w1 & Hbuild & Hrun).
    apply bind_run in Hrun as (st1 & w2 & Hsched & Hrun).
    destruct (build_schedule_stores _ _ _ True _ _ _ Hbuild (conj I Hw)) as [_ Hw1].
    pose proof (walk_schedule_ok file_task schedule _ Htask _ _ _ Hsched (conj Hok' Hw1))
      as Hinv.
    exact (IH st1 _ _ _ Hrun Hinv).
Qed.

End walk_run.

Section submission_extras.
Variable re_match : string → string → bool.
Variable self : Dispatcher.t.

Lemma seed_file_ok fs act sid max_files sha l :
  triple (λ w, Forall (task_ok fs sid max_files) l ∧ stores_are fs act w)
    (Dispatcher.seed_file sid max_files sha l)
    (λ l' w, Forall (task_ok fs sid max_files) l' ∧ stores_are fs act w).
Proof.
  intros w l' w' Hrun [Hall Hw]. unfold Dispatcher.seed_file, bind, get_world in Hrun.
  destruct (World.file_store w !! sha) as [data|] eqn:Hdata.
  - injection Hrun as <- <-. split; [|done]. constructor; [|done].
    destruct Hw as [<- _]. by eapply make_file_task_ok.
  - rewrite emit_run in Hrun. by injection Hrun as <- <-.
Qed.

Lemma walk_submission_ok fuel task w st w1 :
  let submission := SubmissionTask.submission task in
  let sid := Submission.sid submission in
  let max_files := Z.of_nat (length (Submission.files submission))
                   + Params.max_extracted (Submission.params submission) in
  Dispatcher.walk_submission re_match self fuel task w = Some (st, w1) →
  walk_ok (World.file_store w) sid max_files st ∧
  World.file_store w1 = World.file_store w ∧
  World.active_tasks w1 = tracked task (World.active_tasks w) ∧
  ∃ es, World.effects w1 = World.effects w ++ refresh_trace self task (World.now w) ++ es
        ∧ Forall quiet es.
Proof.
  intros submission sid max_files. unfold Dispatcher.walk_submission.
  fold submission. fold sid. fold max_files.
  intros (w0 & ? & [= <- <-] & Hrun)%bind_run.
  apply bind_run in Hrun as ([] & wa & Ha & Hrun).
  apply bind_run in Hrun as ([] & wb & [= <-] & Hrun).
  apply bind_run in Hrun as ([] & wc & Hc & Hrun).
  apply bind_run in Hrun as (unchecked & wd & Hseed & Hwalk).
  assert (wa = World.set_active_tasks (tracked task (World.active_tasks w)) w) as ->.
  { unfold tracked. fold submission. fold sid.
    destruct (World.active_tasks w !! sid); [|by injection Ha as <-].
    injection Ha as <-. by destruct w. }
  set (act := tracked task (World.active_tasks w)) in *.
  set (fs := World.file_store w).
  assert (World.effects wc = World.effects w ++ refresh_trace self task (World.now w)
          ∧ stores_are fs act wc) as [Heffc Hwc].
  { unfold refresh_trace. fold submission. fold sid.
    destruct (_ && _); [rewrite emit_run in Hc|]; injection Hc as <-;
      (split; [simpl; by rewrite <- ?app_assoc|done]). }
  assert (triple (λ w, Forall (task_ok fs sid max_files) [] ∧ stores_are fs act w)
            (for_each (Dispatcher.seed_file sid max_files) (Submission.files submission) [])
            (λ l w, Forall (task_ok fs sid max_files) l ∧ stores_are fs act w)) as Hseeds.
  { apply (triple_for_each
             (λ l w, Forall (task_ok fs sid max_files) l ∧ stores_are fs act w)).
    intros sha l _. apply seed_file_ok. }
  destruct (Hseeds _ _ _ Hseed (conj (Forall_nil_2 _) Hwc)) as [Hall Hwd].
  destruct (walk_ok_run re_match self fs act submission max_files fuel _ _ _ _ Hwalk)
    as [Hok [Hfs Hact]].
  { split; [|done]. split; [done|]. split; [constructor|]. by intros ? ? ?%elem_of_nil. }
  split; [done|]. split; [done|]. split; [done|].
  assert (emits quiet wc wd) as (es1 & Heff1 & Hq1).
  { eapply (respects_for_each (emits quiet)); [|exact Hseed].
    intros sha l _. apply seed_file_quiet. }
  destruct (walk_quiet re_match self _ _ _ _ _ _ _ Hwalk) as (es2 & Heff2 & Hq2).
  exists (es1 ++ es2). split; [|by apply Forall_app].
  rewrite Heff2, Heff1, Heffc. by rewrite <- !app_assoc.
Qed.

Lemma apply_depths_entries fuel file_parents pending pending' :
  Dispatcher.apply_depths fuel file_parents pending = Some pending' →
  Forall2 (λ kv kv', kv'.1 = kv.1 ∧ ∃ d, kv'.2 = FileTask.set_depth d kv.2) pending pending'.
Proof.
  unfold Dispatcher.apply_depths. intros Hall%mapM_Some.
  eapply Forall2_impl; [exact Hall|]. intros [k ft] [k' ft'] H. simpl in *.
  destruct (Dispatcher.file_depth _ _ _) as [d|]; simpl in H; [|done].
  injection H as <- <-. split; [done|]. by exists d.
Qed.

Lemma apply_depths_ok fuel file_parents fs sid max_files pending pending' :
  Dispatcher.apply_depths fuel file_parents pending = Some pending' →
  NoDup (Dict.keys pending) →
  (∀ key ft, (key, ft) ∈ pending →
     key = FileInfo.sha256 (FileTask.file_info ft) ∧ task_ok fs sid max_files ft) →
  NoDup (Dict.keys pending') ∧
  ∀ key ft, (key, ft) ∈ pending' →
    key = FileInfo.sha256 (FileTask.file_info ft) ∧ task_ok fs sid max_files ft.
Proof.
  intros Hall%apply_depths_entries Hnd Hent. split.
  - assert (Dict.keys pending' = Dict.keys pending) as ->; [|done].
    unfold Dict.keys. clear -Hall.
    induction Hall as [|kv kv' l l' [Hk _] _ IH]; [done|]. rewrite !fmap_cons. by f_equal.
  - intros key ft' Hin. apply list_elem_of_lookup in Hin as [i Hi].
    destruct (Forall2_lookup_r _ _ _ _ _ Hall Hi) as ([k ft] & Hk & Heq & d & Hd).
    simpl in *. subst k ft'.
    destruct (Hent key ft) as [Hkey Hok]; [by eapply list_elem_of_lookup_2|].
    split; [done|]. destruct Hok as (? & ? & ? & ?). by split.
Qed.

(** The effects of a submission pass: those of the walk, then either the
    pushes of the admitted files or the effects of the finalizer. *)
Lemma dispatch_submission_trace fuel task w w' :
  let submission := SubmissionTask.submission task in
  let sid := Submission.sid submission in
  let max_files := Z.of_nat (length (Submission.files submission))
                   + Params.max_extracted (Submission.params submission) in
  Dispatcher.dispatch_submission re_match self fuel task w = Some (tt, w') →
  ∃ st w1 pending admitted w2 es,
    Dispatcher.walk_submission re_match self fuel task w = Some (st, w1) ∧
    Dispatcher.apply_depths fuel (Dispatcher.file_parents st) (Dispatcher.pending_files st)
      = Some pending ∧
    Dispatcher.admit_files sid max_files
      (filter (λ kv, FileTask.depth kv.2 < Dispatcher.max_extraction_depth self) pending) w1
      = Some (admitted, w2) ∧
    Forall quiet es ∧
    World.effects w2 = World.effects w ++ refresh_trace self task (World.now w) ++ es ∧
    match admitted with
    | _ :: _ =>
        w' = World.set_effects (World.effects w2 ++ (PushFile <$> Dict.values admitted)) w2
    | [] =>
        w' = World.mk (World.now w2) (delete sid (World.active_tasks w2))
               (delete sid (World.tables w2)) (World.file_store w2) (World.result_store w2)
               (delete (make_watcher_list_name sid) (World.watcher_lists w2))
               (World.effects w2
                ++ finalize_trace task (Dispatcher.result_classifications st)
                     (Dispatcher.max_score st)
                     (Z.of_nat (size (Dispatcher.encountered_files st))) w2)
    end.
Proof.
  intros submission sid max_files
    (st & w1 & pending & admitted & w2 & Hwalk & Hdepths & Hadmit & Hend)%dispatch_submission_run.
  destruct (walk_submission_ok _ _ _ _ _ Hwalk) as (_ & _ & _ & es & Heff1 & Hquiet).
  destruct (admit_files_run _ _ _ _ _ _ Hadmit) as (_ & Heff2 & _).
  exists st, w1, pending, admitted, w2, es.
  split; [done|]. split; [done|]. split; [done|]. split; [done|].
  split; [by rewrite Heff2|].
  destruct admitted; [|done].
  rewrite finalize_submission_exact in Hend. by injection Hend as <-.
Qed.

End submission_extras.

Lemma finalize_trace_observed task rc ms fc w :
  saved_of (finalize_trace task rc ms fc w)
  = [(Submission.sid (SubmissionTask.submission task), finalized task rc ms fc w)] ∧
  files_pushed (finalize_trace task rc ms fc w) = [] ∧
  tasks_pushed (finalize_trace task rc ms fc w) = [].
Proof.
  unfold finalize_trace.
  rewrite !saved_of_app, !files_pushed_app, !tasks_pushed_app.
  destruct (observed_warnings
              (filter (λ r, is_anomaly r = true)
                 (Dispatcher.statuses
                    (DispatchHash.all_results
                       (World.table (Submission.sid (SubmissionTask.submission task)) w)))))
    as (-> & -> & ->).
  destruct (observed_stops
              (default [] (World.watcher_lists w
                           !! make_watcher_list_name
                                (Submission.sid (SubmissionTask.submission task)))))
    as (-> & -> & ->).
  destruct (Params.quota_item _ && _), (bool_decide _); done.
Qed.

Lemma refresh_trace_quiet self task now : Forall quiet (refresh_trace self task now).
Proof.
  unfold refresh_trace. constructor; [done|].
  destruct (_ && _); [by constructor|constructor].
Qed.

Lemma tasks_pushed_files (tasks : list FileTask.t) :
  tasks_pushed (PushFile <$> tasks) = [] ∧ saved_of (PushFile <$> tasks) = [].
Proof. by induction tasks. Qed.

Lemma delete_tracked task (active_tasks : gmap string SubmissionTask.t) :
  delete (Submission.sid (SubmissionTask.submission task)) (tracked task active_tasks)
  = delete (Submission.sid (SubmissionTask.submission task)) active_tasks.
Proof.
  unfold tracked. destruct (active_tasks !! _); [done|]. by rewrite delete_insert_eq.
Qed.

Section logs.
Variable re_match : string → string → bool.
Variable self : Dispatcher.t.
Variable P : Effect → Prop.
Hypothesis P_error : ∀ what arg, P (LogError what arg).

Lemma walk_service_logs submission max_files file_task name st :
  respects (emits P)
    (Dispatcher.walk_service self submission max_files file_task name st).
Proof.
  unfold Dispatcher.walk_service.
  apply respects_bind; [apply _|apply respects_get_world; apply _|]. intros w0.
  apply respects_bind; [apply _|apply respects_get_table; apply _|]. intros h.
  apply respects_bind; [apply _|apply respects_lift; apply _|]. intros service.
  destruct (decide _); [apply respects_ret; apply _|].
  destruct (DispatchHash.finished _ _ _) as [row|]; [|apply respects_ret; apply _].
  destruct (FinishRecord.is_error row); [apply respects_ret; apply _|].
  destruct (World.result_store w0 !! _); [apply respects_ret; apply _|].
  apply respects_bind; [apply _|by apply respects_emit|]. intros _.
  apply respects_ret; apply _.
Qed.

Lemma walk_schedule_logs submission max_files file_task stages st :
  respects (emits P)
    (Dispatcher.walk_schedule self submission max_files file_task stages st).
Proof.
  revert st. induction stages as [|stage stages IH]; intros st; simpl.
  - apply respects_ret; apply _.
  - apply respects_bind; [apply _| |].
    + apply respects_for_each; [apply _|]. intros. apply walk_service_logs.
    + intros st'. destruct (Dispatcher.schedule st'); [apply respects_ret; apply _|apply IH].
Qed.

Lemma build_schedule_logs fuel sid submission file_hash file_type :
  respects (emits P)
    (Dispatcher.build_schedule re_match self fuel sid submission file_hash file_type).
Proof.
  intros w schedule w' (_ & Heff & _)%build_schedule_frame.
  exists []. by rewrite app_nil_r.
Qed.

Lemma walk_logs fuel submission max_files st :
  respects (emits P) (Dispatcher.walk re_match self fuel submission max_files st).
Proof.
  revert st. induction fuel as [|fuel IH]; intros st; simpl.
  - destruct (Dispatcher.unchecked_files st); [apply respects_ret; apply _|].
    apply respects_raise.
  - destruct (Dispatcher.unchecked_files st); [apply respects_ret; apply _|].
    apply respects_bind; [apply _|apply build_schedule_logs|]. intros schedule.
    apply respects_bind; [apply _|apply walk_schedule_logs|]. intros st'. apply IH.
Qed.

Lemma seed_file_logs sid max_files sha l :
  respects (emits P) (Dispatcher.seed_file sid max_files sha l).
Proof.
  unfold Dispatcher.seed_file.
  apply respects_bind; [apply _|apply respects_get_world; apply _|]. intros w0.
  destruct (World.file_store w0 !! sha); [apply respects_ret; apply _|].
  apply respects_bind; [apply _|by apply respects_emit|]. intros _.
  apply respects_ret; apply _.
Qed.

(** The effects of the walk: those of its entry, then errors logged. *)
Lemma walk_submission_logs fuel task w st w1 :
  Dispatcher.walk_submission re_match self fuel task w = Some (st, w1) →
  ∃ es, World.effects w1 = World.effects w ++ refresh_trace self task (World.now w) ++ es
        ∧ Forall P es.
Proof.
  unfold Dispatcher.walk_submission.
  intros (w0 & ? & [= <- <-] & Hrun)%bind_run.
  apply bind_run in Hrun as ([] & wa & Ha & Hrun).
  apply bind_run in Hrun as ([] & wb & [= <-] & Hrun).
  apply bind_run in Hrun as ([] & wc & Hc & Hrun).
  apply bind_run in Hrun as (unchecked & wd & Hseed & Hwalk).
  assert (World.effects wa = World.effects w ∧ World.now wa = World.now w) as [Heffa Hnowa].
  { destruct (World.active_tasks w !! _); by injection Ha as <-. }
  assert (World.effects wc = World.effects w ++ refresh_trace self task (World.now w))
    as Heffc.
  { unfold refresh_trace.
    destruct (_ && _); [rewrite emit_run in Hc|]; injection Hc as <-; simpl;
      rewrite Heffa, <- ?app_assoc; done. }
  assert (emits P wc wd) as (es1 & Heff1 & Hq1).
  { eapply (respects_for_each (emits P)); [|exact Hseed].
    intros sha l _. apply seed_file_logs. }
  destruct (walk_logs _ _ _ _ _ _ _ Hwalk) as (es2 & Heff2 & Hq2).
  exists (es1 ++ es2). split; [|by apply Forall_app].
  rewrite Heff2, Heff1, Heffc. by rewrite <- !app_assoc.
Qed.

End logs.

Lemma finalize_trace_holds task rc ms fc w :
  Forall (λ e, refreshes e = false) (finalize_trace task rc ms fc w).
Proof.
  unfold finalize_trace. rewrite !Forall_app. split; [|split; [|split; [|split; [|split]]]].
  - destruct (_ && _); [by constructor|constructor].
  - apply Forall_fmap, Forall_forall. by intros ? ?.
  - by constructor.
  - destruct (bool_decide _); [constructor|by constructor].
  - apply Forall_fmap, Forall_forall. by intros ? ?.
  - by repeat constructor.
Qed.

Section submission_theorems.
Variable re_match : string → string → bool.
Variable self : Dispatcher.t.

(** X21. A pass of [dispatch_submission] pushes no service task, and ends in
    one of two ways: it pushes file tasks and saves nothing, and the
    submission stays tracked (an active task that existed is not
    overwritten); or it pushes no file task, saves the submission as
    [completed], and the active task and the dispatch table of the
    submission are gone. *)
Theorem dispatch_submission_outcome fuel task w w' :
  let sid := Submission.sid (SubmissionTask.submission task) in
  Dispatcher.dispatch_submission re_match self fuel task w = Some (tt, w') →
  tasks_pushed (emitted w w') = [] ∧
  ((files_pushed (emitted w w') ≠ [] ∧
    saved_of (emitted w w') = [] ∧
    World.active_tasks w' = tracked task (World.active_tasks w))
   ∨
   (files_pushed (emitted w w') = [] ∧
    (∃ saved, saved_of (emitted w w') = [(sid, saved)]
              ∧ Submission.state saved = "completed") ∧
    World.active_tasks w' = delete sid (World.active_tasks w) ∧
    World.tables w' !! sid = None)).
Proof.
  intros sid Hrun.
  destruct (dispatch_submission_trace re_match self _ _ _ _ Hrun)
    as (st & w1 & pending & admitted & w2 & es & Hwalk & _ & Hadmit & Hquiet & Heff & Hend).
  destruct (walk_submission_ok _ _ _ _ _ _ _ Hwalk) as (_ & _ & Hact1 & _).
  destruct (admit_files_run _ _ _ _ _ _ Hadmit) as (_ & _ & _ & Hact2 & _).
  pose proof (Forall_app_2 _ _ _ (refresh_trace_quiet self task (World.now w)) Hquiet) as Hq.
  apply quiet_observed in Hq as (Hq1 & Hq2 & Hq3).
  destruct admitted as [|kv admitted]; subst w'.
  - rewrite (emitted_app w _ ((refresh_trace self task (World.now w) ++ es)
               ++ finalize_trace task (Dispatcher.result_classifications st)
                    (Dispatcher.max_score st)
                    (Z.of_nat (size (Dispatcher.encountered_files st))) w2))
      by (simpl; by rewrite Heff, <- !app_assoc).
    rewrite saved_of_app, files_pushed_app, tasks_pushed_app, Hq1, Hq2, Hq3.
    destruct (finalize_trace_observed task (Dispatcher.result_classifications st)
                (Dispatcher.max_score st)
                (Z.of_nat (size (Dispatcher.encountered_files st))) w2) as (-> & -> & ->).
    split; [done|]. right. split; [done|]. split; [by eexists|]. simpl. split.
    + rewrite Hact2, Hact1. apply delete_tracked.
    + apply lookup_delete_eq.
  - rewrite (emitted_app w _ ((refresh_trace self task (World.now w) ++ es)
               ++ (PushFile <$> Dict.values (kv :: admitted))))
      by (simpl; by rewrite Heff, <- !app_assoc).
    rewrite saved_of_app, files_pushed_app, tasks_pushed_app, Hq1, Hq2, Hq3.
    destruct (tasks_pushed_files (Dict.values (kv :: admitted))) as [-> ->].
    rewrite files_pushed_push.
    split; [done|]. left. split; [done|]. split; [done|]. simpl. by rewrite Hact2.
Qed.

(** X22. A pass of [dispatch_submission] starts by touching the timeout
    watch of the submission, with the configured timeout and the submission
    queue, and then refreshes the quota hold when the submission counts
    toward the quota of a submitter, and only then: none of the effects that
    follow touches a watch or refreshes a quota hold. *)
Theorem dispatch_submission_refresh fuel task w w' :
  Dispatcher.dispatch_submission re_match self fuel task w = Some (tt, w') →
  ∃ es, emitted w w' = refresh_trace self task (World.now w) ++ es
        ∧ Forall (λ e, refreshes e = false) es.
Proof.
  intros (st & w1 & pending & admitted & w2 & Hwalk & _ & Hadmit & Hend)%dispatch_submission_run.
  destruct (walk_submission_logs re_match self (λ e, refreshes e = false)
              ltac:(done) _ _ _ _ _ Hwalk) as (es & Heff1 & Hes).
  destruct (admit_files_run _ _ _ _ _ _ Hadmit) as (_ & Heff2 & _).
  destruct admitted as [|kv admitted].
  - rewrite finalize_submission_exact in Hend. injection Hend as <-.
    exists (es ++ finalize_trace task (Dispatcher.result_classifications st)
                    (Dispatcher.max_score st)
                    (Z.of_nat (size (Dispatcher.encountered_files st))) w2).
    split.
    + apply emitted_app. simpl. rewrite Heff2, Heff1, <- !app_assoc. reflexivity.
    + apply Forall_app. split; [done|]. apply finalize_trace_holds.
  - subst w'. exists (es ++ (PushFile <$> Dict.values (kv :: admitted))). split.
    + apply emitted_app. simpl. rewrite Heff2, Heff1, <- !app_assoc. reflexivity.
    + apply Forall_app. split; [done|]. apply Forall_fmap, Forall_forall. by intros ? ?.
Qed.

(** X23. The file tasks a pass of [dispatch_submission] pushes are for
    pairwise distinct sha256; each carries the sid of the submission, the
    file quota [len(files) + max_extracted], no parent hash and the file
    information of a record of the datastore, and its sha256 is admitted in
    the dispatch table. *)
Theorem dispatch_submission_file_tasks fuel task w w' :
  let submission := SubmissionTask.submission task in
  let sid := Submission.sid submission in
  let max_files := Z.of_nat (length (Submission.files submission))
                   + Params.max_extracted (Submission.params submission) in
  Dispatcher.dispatch_submission re_match self fuel task w = Some (tt, w') →
  NoDup ((λ ft, FileInfo.sha256 (FileTask.file_info ft)) <$> files_pushed (emitted w w')) ∧
  ∀ ft, ft ∈ files_pushed (emitted w w') →
    task_ok (World.file_store w) sid max_files ft ∧
    FileInfo.sha256 (FileTask.file_info ft) ∈ DispatchHash.files (World.table sid w').
Proof.
  intros submission sid max_files Hrun.
  destruct (dispatch_submission_trace re_match self _ _ _ _ Hrun)
    as (st & w1 & pending & admitted & w2 & es & Hwalk & Hdepths & Hadmit & Hquiet & Heff
        & Hend).
  fold submission in Hadmit. fold sid in Hadmit. fold max_files in Hadmit.
  destruct (walk_submission_ok _ _ _ _ _ _ _ Hwalk) as ((_ & Hnd & Hent) & _).
  fold submission in Hnd, Hent. fold sid in Hent. fold max_files in Hent.
  destruct (apply_depths_ok _ _ _ _ _ _ _ Hdepths Hnd Hent) as [Hnd' Hent'].
  destruct (admit_files_run _ _ _ _ _ _ Hadmit) as (Hsub & _ & _ & _ & _ & _ & _ & _ & Hin).
  pose proof (Forall_app_2 _ _ _ (refresh_trace_quiet self task (World.now w)) Hquiet) as Hq.
  apply quiet_observed in Hq as (_ & Hq2 & _).
  destruct admitted as [|kv admitted]; subst w'.
  - rewrite (emitted_app w _ ((refresh_trace self task (World.now w) ++ es)
               ++ finalize_trace task (Dispatcher.result_classifications st)
                    (Dispatcher.max_score st)
                    (Z.of_nat (size (Dispatcher.encountered_files st))) w2))
      by (simpl; by rewrite Heff, <- !app_assoc).
    rewrite files_pushed_app, Hq2.
    destruct (finalize_trace_observed task (Dispatcher.result_classifications st)
                (Dispatcher.max_score st)
                (Z.of_nat (size (Dispatcher.encountered_files st))) w2) as (_ & -> & _).
    split; [constructor|]. by intros ? ?%elem_of_nil.
  - set (adm := kv :: admitted) in *.
    rewrite (emitted_app w _ ((refresh_trace self task (World.now w) ++ es)
               ++ (PushFile <$> Dict.values adm)))
      by (simpl; by rewrite Heff, <- !app_assoc).
    rewrite files_pushed_app, Hq2, files_pushed_push, app_nil_l.
    assert (∀ key ft, (key, ft) ∈ adm →
              key = FileInfo.sha256 (FileTask.file_info ft)
              ∧ task_ok (World.file_store w) sid max_files ft) as Hadm.
    { intros key ft Hkv. apply Hent'.
      eapply elem_of_sublist in Hkv; [|exact Hsub].
      by apply list_elem_of_filter in Hkv as [_ ?]. }
    split.
    + assert ((λ ft, FileInfo.sha256 (FileTask.file_info ft)) <$> Dict.values adm
              = Dict.keys adm) as ->.
      { unfold Dict.values, Dict.keys. rewrite <- list_fmap_compose.
        apply Forall_fmap_ext_1, Forall_forall. intros [key ft] Hkv. simpl.
        by destruct (Hadm _ _ Hkv) as [-> _]. }
      eapply sublist_NoDup; [|apply fmap_sublist, Hsub].
      by apply keys_filter_NoDup.
    + intros ft ([key ft'] & -> & Hkv)%list_elem_of_fmap. simpl.
      destruct (Hadm _ _ Hkv) as [Hkey Hok]. split; [done|].
      rewrite table_set_effects. rewrite <- Hkey. by eapply Hin.
Qed.

End submission_theorems.

(** ** Depth and admission *)

(** X24. [file_depth] never returns for a file whose parents lead into a
    cycle of the parent map (as when two files are extracted from each
    other): whatever the recursion limit, the call raises. *)
Theorem file_depth_cycle (trapped : string → Prop) file_parents fuel sha :
  (∀ x, trapped x →
     ∃ parents parent,
       Dict.get x file_parents = Some parents ∧ parent ∈ parents ∧ trapped parent) →
  trapped sha →
  Dispatcher.file_depth fuel file_parents sha = None.
Proof.
  intros Htrap. revert sha. induction fuel as [|fuel IH]; intros sha Hsha; [done|].
  simpl. destruct (Htrap sha Hsha) as (parents & parent & -> & Hin & Hparent).
  assert (mapM (Dispatcher.file_depth fuel file_parents) parents = None) as ->; [|done].
  apply mapM_None, Exists_exists. exists parent. split; [done|]. by apply IH.
Qed.

Lemma admit_files_full sid max_files pending w admitted w' :
  max_files ≤ Z.of_nat (size (DispatchHash.files (World.table sid w))) →
  Dispatcher.admit_files sid max_files pending w = Some (admitted, w') →
  DispatchHash.files (World.table sid w') = DispatchHash.files (World.table sid w).
Proof.
  revert w admitted w'. induction pending as [|[sha ft] pending IH]; intros w admitted w' Hfull;
    simpl.
  - by intros [= <- <-].
  - unfold bind at 1, get_table at 1.
    destruct (DispatchHash.add_file sha max_files (World.table sid w)) as [ok h] eqn:Hadd.
    intros ([] & w1 & [= <-] & Hrun)%bind_run.
    apply bind_run in Hrun as (rest & w2 & Hrest & [= <- <-]).
    assert (h = World.table sid w) as ->.
    { unfold DispatchHash.add_file in Hadd.
      destruct (decide (sha ∈ _)); [by injection Hadd as <- <-|].
      destruct (decide (_ < _)); [lia|by injection Hadd as <- <-]. }
    apply IH in Hrest; rewrite table_put in *; done.
Qed.

(** X26. The admission step of [dispatch_submission]: the pending files
    kept are exactly those found admitted in the dispatch table afterwards;
    the table gains their sha256 and nothing else; and the number of admitted
    files stays within the file quota, if it was within it before. *)
Theorem admit_files_budget sid max_files pending w admitted w' :
  let files := DispatchHash.files (World.table sid w) in
  let files' := DispatchHash.files (World.table sid w') in
  Dispatcher.admit_files sid max_files pending w = Some (admitted, w') →
  admitted = filter (λ kv, kv.1 ∈ files') pending ∧
  files' = files ∪ list_to_set (Dict.keys admitted) ∧
  Z.of_nat (size files') ≤ Z.max max_files (Z.of_nat (size files)).
Proof.
  intros files files'. subst files files'.
  revert w admitted w'. induction pending as [|[sha ft] pending IH]; intros w admitted w'; simpl.
  - intros [= <- <-]. split; [done|]. split; [set_solver|lia].
  - unfold bind at 1, get_table at 1.
    destruct (DispatchHash.add_file sha max_files (World.table sid w)) as [ok h] eqn:Hadd.
    intros ([] & w1 & [= <-] & Hrun)%bind_run.
    apply bind_run in Hrun as (rest & w2 & Hrest & [= <- <-]).
    pose proof (admit_files_run _ _ _ _ _ _ Hrest) as (_ & _ & _ & _ & _ & _ & _ & Hmono & _).
    destruct (IH _ _ _ Hrest) as (Hfilter & Hfiles & Hsize).
    rewrite table_put in Hfiles, Hsize, Hmono.
    rewrite filter_cons. simpl.
    unfold DispatchHash.add_file in Hadd.
    destruct (decide (sha ∈ DispatchHash.files (World.table sid w))) as [Hold|Hnew].
    + injection Hadd as <- <-. cbv iota.
      rewrite decide_True by set_solver. split; [by f_equal|].
      split; [|done]. unfold Dict.keys in *. simpl. set_solver.
    + destruct (decide (Z.of_nat (size (DispatchHash.files (World.table sid w))) < max_files))
        as [Hroom|Hfull]; injection Hadd as <- <-.
      * simpl in *. cbv iota. rewrite decide_True by set_solver. split; [by f_equal|].
        split; [unfold Dict.keys in *; simpl; set_solver|].
        rewrite size_union, size_singleton in Hsize by set_solver. lia.
      * apply admit_files_full in Hrest; [|rewrite table_put; lia].
        rewrite table_put in Hrest. rewrite Hrest in *. cbv iota.
        rewrite decide_False by done. done.
Qed.

(** ** Filtering in the walk, and the record saved *)

Lemma walk_extracted_schedule fs sid sha max_files sub s st :
  Dispatcher.walk_extracted fs sid sha max_files sub (Dispatcher.set_schedule s st)
  = Dispatcher.set_schedule s (Dispatcher.walk_extracted fs sid sha max_files sub st).
Proof.
  unfold Dispatcher.walk_extracted. simpl.
  destruct (decide _); [done|]. by destruct (fs !! sub).
Qed.

Lemma walk_all_extracted_schedule fs sid sha max_files subs s st :
  foldl (λ st sub, Dispatcher.walk_extracted fs sid sha max_files sub st)
    (Dispatcher.set_schedule s st) subs
  = Dispatcher.set_schedule s
      (foldl (λ st sub, Dispatcher.walk_extracted fs sid sha max_files sub st) st subs).
Proof.
  revert st. induction subs as [|sub subs IH]; intros st; [done|].
  simpl. by rewrite walk_extracted_schedule, IH.
Qed.

Section walk_filtering.
Variable self : Dispatcher.t.
Variable submission : Submission.t.
Variable max_files : Z.
Variable file_task : FileTask.t.

Local Abbreviation drops_at := (walk_drops self submission file_task).

(** The variable [schedule] has no part in what a step of the walk does to
    the rest of its state, and a step moves it only by clearing it. *)
Lemma walk_service_schedule name s st w :
  match Dispatcher.walk_service self submission max_files file_task name
          (Dispatcher.set_schedule [] st) w with
  | Some (st', w') =>
      Dispatcher.walk_service self submission max_files file_task name
        (Dispatcher.set_schedule s st) w
      = Some (Dispatcher.set_schedule (if drops_at w name then [] else s) st', w') ∧
      Dispatcher.set_schedule [] st' = st' ∧
      ∃ es, w' = World.set_effects (World.effects w ++ es) w
  | None =>
      Dispatcher.walk_service self submission max_files file_task name
        (Dispatcher.set_schedule s st) w = None
  end.
Proof.
  unfold Dispatcher.walk_service, walk_drops, bind, get_world, get_table, lift.
  destruct (Scheduler.services _ !! name) as [service|]; [|done].
  destruct (decide (_ < _)) as [Hlt|Hge].
  { rewrite bool_decide_eq_false_2 by lia. simpl.
    split; [done|]. split; [done|]. exists []. rewrite app_nil_r. by destruct w. }
  rewrite bool_decide_eq_true_2 by lia. simpl.
  destruct (DispatchHash.finished _ _ _) as [row|].
  2:{ split; [done|]. split; [done|]. exists []. rewrite app_nil_r. by destruct w. }
  destruct (FinishRecord.is_error row); simpl.
  { split; [done|]. split; [done|]. exists []. rewrite app_nil_r. by destruct w. }
  destruct (negb (Params.ignore_filtering _) && FinishRecord.drop row) eqn:Hd; simpl.
  - destruct (World.result_store w !! _) as [result|].
    + rewrite !walk_all_extracted_schedule. simpl.
      split; [done|]. split; [done|]. exists []. rewrite app_nil_r. by destruct w.
    + unfold ret. split; [done|]. split; [done|]. by eexists.
  - destruct (World.result_store w !! _) as [result|].
    + rewrite !walk_all_extracted_schedule. simpl.
      split; [done|]. split; [done|]. exists []. rewrite app_nil_r. by destruct w.
    + unfold ret. split; [done|]. split; [done|]. by eexists.
Qed.

Lemma walk_stage_schedule stage s st w :
  match for_each (Dispatcher.walk_service self submission max_files file_task) stage
          (Dispatcher.set_schedule [] st) w with
  | Some (st', w') =>
      for_each (Dispatcher.walk_service self submission max_files file_task) stage
        (Dispatcher.set_schedule s st) w
      = Some (Dispatcher.set_schedule (if existsb (drops_at w) stage then [] else s) st', w') ∧
      Dispatcher.set_schedule [] st' = st'
  | None =>
      for_each (Dispatcher.walk_service self submission max_files file_task) stage
        (Dispatcher.set_schedule s st) w = None
  end.
Proof.
  revert s st w. induction stage as [|name stage IH]; intros s st w; simpl.
  - done.
  - unfold bind.
    pose proof (walk_service_schedule name s st w) as Hstep.
    destruct (Dispatcher.walk_service self submission max_files file_task name
                (Dispatcher.set_schedule [] st) w) as [[st1 w1]|]; [|by rewrite Hstep].
    destruct Hstep as (-> & Heta & es & ->).
    pose proof (IH (if drops_at w name then [] else s) st1
                  (World.set_effects (World.effects w ++ es) w)) as Hrest.
    assert (for_each (Dispatcher.walk_service self submission max_files file_task) stage st1
              (World.set_effects (World.effects w ++ es) w)
            = for_each (Dispatcher.walk_service self submission max_files file_task) stage
                (Dispatcher.set_schedule [] st1)
                (World.set_effects (World.effects w ++ es) w)) as -> by (by rewrite Heta).
    destruct (for_each _ stage (Dispatcher.set_schedule [] st1) _) as [[st' w']|];
      [|done].
    destruct Hrest as [-> Heta']. split; [|done].
    change (drops_at (World.set_effects (World.effects w ++ es) w)) with (drops_at w).
    by destruct (drops_at w name), (existsb (drops_at w) stage).
Qed.

(** X27. Filtering in the walk of [dispatch_submission]. When a service of
    a stage has, after its dispatch window, a finish record that is not an
    error and has [drop] set, and filtering is not ignored, the walk of the
    file ends with that stage: the stages after it are not walked, so that
    their services neither mark the file pending nor add to the score. *)
Theorem walk_schedule_drop stage rest st w name service row :
  let sha := FileInfo.sha256 (FileTask.file_info file_task) in
  let h := World.table (Submission.sid submission) w in
  name ∈ stage →
  Scheduler.services (Dispatcher.scheduler self) !! name = Some service →
  Service.timeout service ≤ World.now w - DispatchHash.dispatch_time sha name h →
  DispatchHash.finished sha name h = Some row →
  FinishRecord.is_error row = false →
  FinishRecord.drop row = true →
  Params.ignore_filtering (Submission.params submission) = false →
  Dispatcher.walk_schedule self submission max_files file_task (stage :: rest) st w
  = Dispatcher.walk_schedule self submission max_files file_task [stage] st w.
Proof.
  intros sha h Hin Hsv Hdue Hrow Herr Hdrop Hfilter. subst sha h.
  assert (existsb (drops_at w) stage = true) as Hdrops.
  { apply existsb_exists. exists name. split; [by apply list_elem_of_In|].
    unfold walk_drops. rewrite Hsv, Hrow, Herr, Hdrop, Hfilter.
    by rewrite bool_decide_eq_true_2. }
  simpl. unfold bind.
  pose proof (walk_stage_schedule stage rest st w) as Hrest.
  destruct (for_each _ stage (Dispatcher.set_schedule [] st) w) as [[st' w']|].
  - destruct Hrest as [-> Heta]. rewrite Hdrops. simpl. rewrite Heta.
    by destruct (Dispatcher.schedule st').
  - by rewrite Hrest.
Qed.

End walk_filtering.

Lemma foldl_max_bound (m : nat) (l : list nat) :
  (m ≤ foldl Nat.max m l)%nat ∧ (∀ c, c ∈ l → (c ≤ foldl Nat.max m l)%nat).
Proof.
  revert m. induction l as [|x l IH]; intros m; simpl.
  - split; [lia|]. by intros ? ?%elem_of_nil.
  - destruct (IH (Nat.max m x)) as (Hm & Hall). split; [lia|].
    intros c [->|Hc]%elem_of_cons; [lia|by apply Hall].
Qed.

Lemma foldl_max_least (m : nat) (l : list nat) u :
  (m ≤ u)%nat → (∀ c, c ∈ l → (c ≤ u)%nat) → (foldl Nat.max m l ≤ u)%nat.
Proof.
  revert m. induction l as [|x l IH]; intros m Hm Hl; simpl; [done|].
  apply IH.
  - assert (x ≤ u)%nat by (apply Hl; by left). lia.
  - intros c Hc. apply Hl. by right.
Qed.

(** X28. The record [finalize_submission] saves keeps the sid, the files,
    the parameters and the expiry of the submission; its classification is
    the least one at or above the classification of the parameters and
    those of the results; its [file_count] is the count it was given, its
    [max_score] the score it was given, or 0 for none, and its completion
    time the time of the call. *)
Theorem finalize_submission_record task result_classifications max_score file_count w :
  let submission := SubmissionTask.submission task in
  let params := Submission.params submission in
  ∃ w' saved,
    Dispatcher.finalize_submission task result_classifications max_score file_count w
      = Some (tt, w') ∧
    saved_of (emitted w w') = [(Submission.sid submission, saved)] ∧
    Submission.sid saved = Submission.sid submission ∧
    Submission.files saved = Submission.files submission ∧
    Submission.params saved = params ∧
    Submission.expiry_ts saved = Submission.expiry_ts submission ∧
    (Params.classification params ≤ Submission.classification saved)%nat ∧
    (∀ c, c ∈ result_classifications → (c ≤ Submission.classification saved)%nat) ∧
    (∀ u, (Params.classification params ≤ u)%nat →
          (∀ c, c ∈ result_classifications → (c ≤ u)%nat) →
          (Submission.classification saved ≤ u)%nat) ∧
    Submission.file_count saved = file_count ∧
    Submission.max_score saved = default 0 max_score ∧
    Submission.times_completed saved = Some (World.now w).
Proof.
  intros submission params.
  eexists _, (finalized task result_classifications max_score file_count w).
  split; [apply finalize_submission_exact|].
  rewrite (emitted_app w _ (finalize_trace task result_classifications max_score file_count w))
    by done.
  destruct (finalize_trace_observed task result_classifications max_score file_count w)
    as (-> & _ & _).
  destruct (foldl_max_bound (Params.classification params) result_classifications)
    as (Hm & Hall).
  unfold finalized. simpl. fold submission. fold params.
  split; [done|]. split; [done|]. split; [done|]. split; [done|]. split; [done|].
  split; [done|]. split; [done|]. split; [apply foldl_max_least|]. done.
Qed.

(** * The scenarios, run *)

Ltac conjs := repeat match goal with |- _ ∧ _ => split end.

(** C2. The code at the failing input: [sv1] of the first stage has finished
    with [drop = true], filtering is not ignored and the second stage has not
    started. The call truncates the schedule (nothing is dispatched to
    [sv2]), but the cached schedule is still both stages, not the list of the
    stages started: [schedule.clear()] empties the list before the test
    [if schedule:] that guards the rewrite. The stale entry keeps
    [all_finished()] false. *)
Lemma drop_leaves_cached_schedule :
  World.active_tasks drop3 !! "S1" = Some task1 ∧
  DispatchHash.schedules (World.table "S1" drop3) !! "A" = Some [["sv1"]; ["sv2"]] ∧
  DispatchHash.finished "A" "sv1" (World.table "S1" drop3)
    = Some (FinishRecord.mk "result" "kA" 10 true) ∧
  DispatchHash.finished "A" "sv2" (World.table "S1" drop3) = None ∧
  Dispatcher.dispatch_file literal_match dispatcher2 10 (file_task "A" 0) drop3
    = Some (tt, drop4) ∧
  tasks_pushed (emitted drop3 drop4) = [] ∧
  DispatchHash.schedules (World.table "S1" drop4) !! "A" = Some [["sv1"]; ["sv2"]] ∧
  DispatchHash.all_finished (World.table "S1" drop4) = false.
Proof. conjs; vm_compute; reflexivity. Qed.

(** C7. The code at the failing input: the catalog has the service [x1] in
    the category [a] and the service [x2] in the category [av]; both accept
    every file type and reject none, and their stage is configured. The
    submission selects the two categories, [a] before [av], and excludes
    nothing. [x1] is a member of a selected category, yet the returned
    schedule holds [x2] alone: [expand_categories] pops [av] first and
    records its characters, [a] and [v], in [seen_categories] ([update] of a
    set with a string), so that the category [a] is taken for one seen before
    and passed over. Selected alone, or after [av], the category [a] does
    bring [x1] into the schedule. *)
Lemma build_schedule_shadowed_category :
  Scheduler.services scheduler_shadow !! "x1" = Some sv_a ∧
  Scheduler.categories scheduler_shadow !! "a" = Some ["x1"] ∧
  Scheduler.categories scheduler_shadow !! "av" = Some ["x2"] ∧
  Scheduler.categories scheduler_shadow !! "x1" = None ∧
  Service.accepts sv_a = ".*" ∧ literal_match ".*" "text" = true ∧
  Service.rejects sv_a = "" ∧
  Scheduler.stage_index scheduler_shadow (Service.stage sv_a) = Some 0%nat ∧
  Scheduler.expand_categories scheduler_shadow 10 (Some ["a"; "av"]) = Some ["x2"] ∧
  Scheduler.build_schedule literal_match scheduler_shadow 10 (submission_with ["a"; "av"] [])
    "text" = Some [[("x2", sv_av)]] ∧
  Scheduler.build_schedule literal_match scheduler_shadow 10 (submission_with ["a"] [])
    "text" = Some [[("x1", sv_a)]] ∧
  ∃ schedule,
    Scheduler.build_schedule literal_match scheduler_shadow 10 (submission_with ["av"; "a"] [])
      "text" = Some schedule ∧
    scheduled "x1" schedule ∧ scheduled "x2" schedule.
Proof.
  conjs; try (vm_compute; reflexivity).
  eexists. split; [vm_compute; reflexivity|].
  split; (eexists; split; [by left|]); unfold Dict.keys; simpl; set_solver.
Qed.

(** C6, as amended. One root file, [max_extracted = 2], and a result of the
    root that extracts five files: the submission pass admits exactly two of
    them ([c5] and [c4], the last two extracted) and pushes them; the other
    three are never admitted nor pushed; the submission is finalized with
    [file_count = 6], the number of sha256 encountered. *)
Lemma extraction_budget_scenario :
  Result.extracted <$> World.result_store budget4 !! "kA"
    = Some ["c1"; "c2"; "c3"; "c4"; "c5"] ∧
  Dispatcher.dispatch_submission literal_match dispatcher1 10 task1 budget4
    = Some (tt, budget5) ∧
  files_pushed (emitted budget4 budget5) = [file_task "c5" 1; file_task "c4" 1] ∧
  elements (DispatchHash.files (World.table "S1" budget5)) = ["c5"; "c4"; "A"] ∧
  DispatchHash.files (World.table "S1" budget7) = DispatchHash.files (World.table "S1" budget5) ∧
  Dispatcher.dispatch_submission literal_match dispatcher1 10 task1 budget7
    = Some (tt, budget8) ∧
  files_pushed (emitted budget7 budget8) = [] ∧
  ∃ saved,
    saved_of (emitted budget7 budget8) = [("S1", saved)] ∧
    Submission.state saved = "completed" ∧
    Submission.file_count saved = 6.
Proof.
  conjs; try (vm_compute; reflexivity).
  eexists. conjs; vm_compute; reflexivity.
Qed.

(** Counterexample to C6 as stated: the [file_count] of the finalized
    submission is not 3. *)
Lemma extraction_budget_file_count :
  ∃ saved,
    saved_of (emitted budget7
                (run (Dispatcher.dispatch_submission literal_match dispatcher1 10 task1) budget7))
    = [("S1", saved)] ∧
    Submission.file_count saved ≠ 3.
Proof. eexists. split; [vm_compute; reflexivity|]. vm_compute. discriminate. Qed.

(** Counterexample to C1 as stated: [sv1] has a finish record for [A], not an
    error, whose result exists, but [A] was dispatched to [sv1] less than
    [timeout] ago. The walk marks [A] pending on account of [sv1] and
    aggregates nothing; the submission pass pushes [A] again instead of
    finalizing. *)
Lemma finished_in_window_is_pending :
  World.now window_world - DispatchHash.dispatch_time "A" "sv1" (World.table "S1" window_world)
    < Service.timeout sv1 ∧
  DispatchHash.finished "A" "sv1" (World.table "S1" window_world)
    = Some (FinishRecord.mk "result" "kA" 10 false) ∧
  World.result_store window_world !! "kA" = Some (Result.mk [] 10 0%nat) ∧
  Dispatcher.walk_service dispatcher1 submission1 3 (file_task "A" 0) "sv1" walk0 window_world
    = Some (Dispatcher.mkWalk [] ∅ [("A", file_task "A" 0)] [] None [] [], window_world) ∧
  Dispatcher.dispatch_submission literal_match dispatcher1 10 task1 window_world
    = Some (tt, window_after) ∧
  files_pushed (emitted window_world window_after) = [file_task "A" 0] ∧
  saved_of (emitted window_world window_after) = [].
Proof. conjs; vm_compute; reflexivity. Qed.

(** C3. The code at the failing input: while no stage is configured,
    [build_schedule] computes the empty schedule for [A] and caches it. Once
    two stages are configured, a call of [build_schedule] for [A] finds the
    cached value, but [if not cached_schedule] takes the empty list for a
    missing entry: the schedule is computed again and the recomputed one is
    returned, not the cached one; the cache keeps the empty list ([add] does
    not overwrite), so that every later call computes again. *)
Lemma empty_cached_schedule_recomputed :
  Dispatcher.build_schedule literal_match dispatcher0 10 "S1" submission1 "A" "text" budget0
  = Some ([], empty_cache_world) ∧
  DispatchHash.schedules (World.table "S1" empty_cache_world) !! "A" = Some [] ∧
  Dispatcher.build_schedule literal_match dispatcher2 10 "S1" submission1 "A" "text"
    empty_cache_world
  = Some ([["sv1"]; ["sv2"]], empty_cache_world).
Proof. conjs; vm_compute; reflexivity. Qed.

(** C1 at work: [A] without finish record is marked pending; [A] with a
    result seen after the window is not, and its score is collected. *)
Lemma walk_service_classification_witness :
  Scheduler.services (Dispatcher.scheduler dispatcher1) !! "sv1" = Some sv1 ∧
  DispatchHash.finished "A" "sv1" (World.table "S1" budget1) = None ∧
  Dispatcher.walk_service dispatcher1 submission1 3 (file_task "A" 0) "sv1" walk0 budget1
  = Some (Dispatcher.set_pending "A" (file_task "A" 0) walk0, budget1) ∧
  Service.timeout sv1
    ≤ World.now budget4 - DispatchHash.dispatch_time "A" "sv1" (World.table "S1" budget4) ∧
  DispatchHash.finished "A" "sv1" (World.table "S1" budget4)
    = Some (FinishRecord.mk "result" "kA" 10 false) ∧
  ∃ st' w',
    Dispatcher.walk_service dispatcher1 submission1 3 (file_task "A" 0) "sv1" walk0 budget4
    = Some (st', w') ∧
    Dispatcher.pending_files st' = Dispatcher.pending_files walk0 ∧
    Dispatcher.max_score st' = Some 10.
Proof.
  assert (Scheduler.services (Dispatcher.scheduler dispatcher1) !! "sv1" = Some sv1) as Hsv
    by (vm_compute; reflexivity).
  assert (DispatchHash.finished "A" "sv1" (World.table "S1" budget1) = None) as Hnone
    by (vm_compute; reflexivity).
  assert (Service.timeout sv1
          ≤ World.now budget4
            - DispatchHash.dispatch_time "A" "sv1" (World.table "S1" budget4)) as Hge
    by (vm_compute; discriminate).
  assert (DispatchHash.finished "A" "sv1" (World.table "S1" budget4)
          = Some (FinishRecord.mk "result" "kA" 10 false)) as Hrow
    by (vm_compute; reflexivity).
  split; [exact Hsv|]. split; [exact Hnone|]. split.
  { apply (proj1 (walk_service_classification dispatcher1 submission1 3 (file_task "A" 0)
                    "sv1" sv1 walk0 budget1 Hsv)).
    right. exact Hnone. }
  split; [exact Hge|]. split; [exact Hrow|].
  destruct (proj2 (walk_service_classification dispatcher1 submission1 3 (file_task "A" 0)
                     "sv1" sv1 walk0 budget4 Hsv) _ Hge Hrow)
    as (st' & w' & Hrun & Hpending & _ & Hresult).
  exists st', w'. split; [exact Hrun|]. split; [exact Hpending|].
  destruct (Hresult eq_refl (Result.mk ["c1"; "c2"; "c3"; "c4"; "c5"] 10 0%nat))
    as [Hscore _]; [vm_compute; reflexivity|].
  exact Hscore.
Defined.

(** X29 at work on the pass that admits two extracted files: the schedule
    cached for [A] is returned as it is before the pass, and after it. *)
Lemma schedule_cached_once_witness :
  DispatchHash.schedules (World.table "S1" budget4) !! "A" = Some [["sv1"]] ∧
  Dispatcher.build_schedule literal_match dispatcher1 10 "S1" submission1 "A" "text" budget4
  = Some ([["sv1"]], budget4) ∧
  Dispatcher.dispatch_submission literal_match dispatcher1 10 task1 budget4
  = Some (tt, budget5) ∧
  DispatchHash.schedules (World.table "S1" budget5) !! "A" = Some [["sv1"]] ∧
  Dispatcher.build_schedule literal_match dispatcher1 10 "S1" submission1 "A" "text" budget5
  = Some ([["sv1"]], budget5).
Proof.
  assert (DispatchHash.schedules (World.table "S1" budget4) !! "A" = Some [["sv1"]])
    as Hcached by (vm_compute; reflexivity).
  assert (Dispatcher.dispatch_submission literal_match dispatcher1 10 task1 budget4
          = Some (tt, budget5)) as Hrun by (vm_compute; reflexivity).
  destruct (schedule_cached_once literal_match dispatcher1 10 "S1" submission1 "A" "text"
              budget4) as (Hhit & _ & Hkept).
  split; [exact Hcached|]. split; [apply Hhit; [exact Hcached|discriminate]|].
  split; [exact Hrun|].
  destruct (proj2 (Hkept _ Hcached) _ _ _ Hrun) as [[Hstays Hagain]|(_ & Hgone & _)].
  - split; [exact Hstays|]. apply Hagain. discriminate.
  - vm_compute in Hgone. discriminate.
Defined.

(** C4 at work on the two-stage catalog. At the first dispatch of [A]
    nothing has finished: [sv1] of the first stage is dispatched, [sv2] of
    the second stage is not. Once [sv1] has finished, the next dispatch of
    [A] moves on to the second stage and dispatches [sv2]. *)
Lemma stage_ordering_witness :
  (World.active_tasks drop1 !! "S1" = Some task1 ∧
   Dispatcher.dispatch_file literal_match dispatcher2 10 (file_task "A" 0) drop1
   = Some (tt, drop2) ∧
   DispatchHash.schedules (World.table "S1" drop2) !! "A" = Some [["sv1"]; ["sv2"]] ∧
   DispatchHash.finished "A" "sv1" (World.table "S1" drop1) = None ∧
   ServiceTask.service_name <$> tasks_pushed (emitted drop1 drop2) = ["sv1"] ∧
   DispatchHash.dispatch_time "A" "sv2" (World.table "S1" drop2) = 0 ∧
   ∃ schedule wa wb st,
     World.tables wa = World.tables drop1 ∧
     Dispatcher.build_schedule literal_match dispatcher2 10 "S1" submission1 "A" "text" wa
     = Some (schedule, wb) ∧
     Dispatcher.scan_stages dispatcher2 submission1 "S1" "A" schedule
       (Dispatcher.mkScan schedule [] [] 0 0) wb = Some (st, wb) ∧
     ((tasks_pushed (emitted drop1 drop2) = [] ∧
       DispatchHash.dispatched (World.table "S1" drop2)
       = DispatchHash.dispatched (World.table "S1" drop1))
      ∨
      ∃ pre stage post,
        schedule = pre ++ stage :: post ∧
        Forall (stage_finished "A" (World.table "S1" drop1)) pre ∧
        ¬ stage_finished "A" (World.table "S1" drop1) stage ∧
        Dispatcher.started_stages st = pre ++ [stage] ∧
        (∀ t, t ∈ tasks_pushed (emitted drop1 drop2) →
              ServiceTask.service_name t ∈ stage ∧
              DispatchHash.finished "A" (ServiceTask.service_name t) (World.table "S1" drop1)
              = None ∧
              DispatchHash.dispatch_time "A" (ServiceTask.service_name t)
                (World.table "S1" drop2) = World.now drop1) ∧
        (∀ name, DispatchHash.dispatch_time "A" name (World.table "S1" drop2)
                 ≠ DispatchHash.dispatch_time "A" name (World.table "S1" drop1) →
                 name ∈ stage))) ∧
  (World.active_tasks order3 !! "S1" = Some task1 ∧
   Dispatcher.dispatch_file literal_match dispatcher2 10 (file_task "A" 0) order3
   = Some (tt, order4) ∧
   DispatchHash.schedules (World.table "S1" order3) !! "A" = Some [["sv1"]; ["sv2"]] ∧
   DispatchHash.finished "A" "sv1" (World.table "S1" order3)
   = Some (FinishRecord.mk "result" "kA" 10 false) ∧
   DispatchHash.finished "A" "sv2" (World.table "S1" order3) = None ∧
   ServiceTask.service_name <$> tasks_pushed (emitted order3 order4) = ["sv2"] ∧
   DispatchHash.dispatch_time "A" "sv2" (World.table "S1" order4) = 2000 ∧
   ∃ schedule wa wb st,
     World.tables wa = World.tables order3 ∧
     Dispatcher.build_schedule literal_match dispatcher2 10 "S1" submission1 "A" "text" wa
     = Some (schedule, wb) ∧
     Dispatcher.scan_stages dispatcher2 submission1 "S1" "A" schedule
       (Dispatcher.mkScan schedule [] [] 0 0) wb = Some (st, wb) ∧
     ((tasks_pushed (emitted order3 order4) = [] ∧
       DispatchHash.dispatched (World.table "S1" order4)
       = DispatchHash.dispatched (World.table "S1" order3))
      ∨
      ∃ pre stage post,
        schedule = pre ++ stage :: post ∧
        Forall (stage_finished "A" (World.table "S1" order3)) pre ∧
        ¬ stage_finished "A" (World.table "S1" order3) stage ∧
        Dispatcher.started_stages st = pre ++ [stage] ∧
        (∀ t, t ∈ tasks_pushed (emitted order3 order4) →
              ServiceTask.service_name t ∈ stage ∧
              DispatchHash.finished "A" (ServiceTask.service_name t) (World.table "S1" order3)
              = None ∧
              DispatchHash.dispatch_time "A" (ServiceTask.service_name t)
                (World.table "S1" order4) = World.now order3) ∧
        (∀ name, DispatchHash.dispatch_time "A" name (World.table "S1" order4)
                 ≠ DispatchHash.dispatch_time "A" name (World.table "S1" order3) →
                 name ∈ stage))).
Proof.
  assert (World.active_tasks drop1 !! "S1" = Some task1) as Hactive1
    by (vm_compute; reflexivity).
  assert (Dispatcher.dispatch_file literal_match dispatcher2 10 (file_task "A" 0) drop1
          = Some (tt, drop2)) as Hrun1 by (vm_compute; reflexivity).
  assert (World.active_tasks order3 !! "S1" = Some task1) as Hactive3
    by (vm_compute; reflexivity).
  assert (Dispatcher.dispatch_file literal_match dispatcher2 10 (file_task "A" 0) order3
          = Some (tt, order4)) as Hrun3 by (vm_compute; reflexivity).
  split.
  - split; [exact Hactive1|]. split; [exact Hrun1|].
    split; [vm_compute; reflexivity|]. split; [vm_compute; reflexivity|].
    split; [vm_compute; reflexivity|]. split; [vm_compute; reflexivity|].
    exact (stage_ordering literal_match dispatcher2 10 (file_task "A" 0) task1 drop1 drop2
             Hactive1 Hrun1).
  - split; [exact Hactive3|]. split; [exact Hrun3|].
    split; [vm_compute; reflexivity|]. split; [vm_compute; reflexivity|].
    split; [vm_compute; reflexivity|]. split; [vm_compute; reflexivity|].
    split; [vm_compute; reflexivity|].
    exact (stage_ordering literal_match dispatcher2 10 (file_task "A" 0) task1 order3 order4
             Hactive3 Hrun3).
Defined.

(** C5 at work: the first call pushes [A] to [sv1], the second call 30
    seconds later pushes nothing. *)
Lemma redispatch_window_witness :
  World.active_tasks budget1 !! "S1" = Some task1 ∧
  Scheduler.services (Dispatcher.scheduler dispatcher1) !! "sv1" = Some sv1 ∧
  Dispatcher.dispatch_file literal_match dispatcher1 10 (file_task "A" 0) budget1
  = Some (tt, budget2) ∧
  Dispatcher.dispatch_file literal_match dispatcher1 10 (file_task "A" 0)
    (World.set_now 1030 budget2) = Some (tt, window1) ∧
  1030 - World.now budget1 < Service.timeout sv1 ∧
  pushes "sv1" (emitted budget1 budget2) = 1%nat ∧
  pushes "sv1" (emitted budget2 window1) = 0%nat ∧
  (pushes "sv1" (emitted budget1 budget2) + pushes "sv1" (emitted budget2 window1) ≤ 1)%nat.
Proof.
  assert (World.active_tasks budget1 !! "S1" = Some task1) as Hactive
    by (vm_compute; reflexivity).
  assert (Scheduler.services (Dispatcher.scheduler dispatcher1) !! "sv1" = Some sv1) as Hsv
    by (vm_compute; reflexivity).
  assert (Dispatcher.dispatch_file literal_match dispatcher1 10 (file_task "A" 0) budget1
          = Some (tt, budget2)) as Hrun1 by (vm_compute; reflexivity).
  assert (Dispatcher.dispatch_file literal_match dispatcher1 10 (file_task "A" 0)
            (World.set_now 1030 budget2) = Some (tt, window1)) as Hrun2
    by (vm_compute; reflexivity).
  assert (1030 - World.now budget1 < Service.timeout sv1) as Hlt
    by (vm_compute; reflexivity).
  destruct (redispatch_window literal_match dispatcher1 10 (file_task "A" 0) task1
              budget1 budget2 1030 window1 "sv1" sv1 Hactive Hsv Hrun1 Hrun2)
    as (_ & Hsecond & _ & _ & _ & _ & Htwo).
  split; [exact Hactive|]. split; [exact Hsv|]. split; [exact Hrun1|].
  split; [exact Hrun2|]. split; [exact Hlt|].
  split; [vm_compute; reflexivity|].
  split; [apply Hsecond; vm_compute; reflexivity|].
  exact (Htwo Hlt).
Defined.

(** C8 at work: of the three finish records of the table, the error goes to
    [errors], the result to [results], and the record of the bucket [other]
    to neither; it is warned about. *)
Lemma finalize_submission_partition_witness :
  DispatchHash.finished "A" "sv1" (World.table "S1" partition0)
    = Some (FinishRecord.mk "result" "kR" 10 false) ∧
  DispatchHash.finished "A" "sv2" (World.table "S1" partition0)
    = Some (FinishRecord.mk "error" "kE" 0 false) ∧
  DispatchHash.finished "B" "sv1" (World.table "S1" partition0)
    = Some (FinishRecord.mk "other" "kO" 0 false) ∧
  ∃ w' submission,
    Dispatcher.finalize_submission task1 [] None 1 partition0 = Some (tt, w') ∧
    saved_of (emitted partition0 w') = [("S1", submission)] ∧
    Submission.errors submission = ["kE"] ∧
    Submission.results submission = ["kR"] ∧
    LogWarning "Unexpected service output bucket" "other/kO" ∈ emitted partition0 w' ∧
    Submission.error_count submission = 1 ∧
    Submission.state submission = "completed" ∧
    Submission.max_score submission = 0.
Proof.
  assert (DispatchHash.finished "B" "sv1" (World.table "S1" partition0)
          = Some (FinishRecord.mk "other" "kO" 0 false)) as Hother
    by (vm_compute; reflexivity).
  split; [vm_compute; reflexivity|]. split; [vm_compute; reflexivity|].
  split; [exact Hother|].
  destruct (finalize_submission_partition task1 [] None 1 partition0)
    as (w' & submission & Hrun & Hsaved & _ & Herrors & Hresults & _ & Hevery & _ & _
        & Hcount & Hstate & Hscore).
  exists w', submission. split; [exact Hrun|]. split; [exact Hsaved|].
  assert (Submission.errors submission = ["kE"]) as He
    by (rewrite Herrors; vm_compute; reflexivity).
  split; [exact He|].
  split; [rewrite Hresults; vm_compute; reflexivity|].
  split; [exact (proj2 (proj2 (Hevery _ _ _ Hother)) eq_refl)|].
  split; [rewrite Hcount, He; reflexivity|].
  split; [exact Hstate|]. exact (Hscore eq_refl).
Defined.

(** C9 at work on the extraction scenario: the two files pushed have depth
    1. *)
Lemma pending_depth_bound_witness :
  Dispatcher.dispatch_submission literal_match dispatcher1 10 task1 budget4
  = Some (tt, budget5) ∧
  files_pushed (emitted budget4 budget5) = [file_task "c5" 1; file_task "c4" 1] ∧
  ∃ st w1,
    Dispatcher.walk_submission literal_match dispatcher1 10 task1 budget4 = Some (st, w1) ∧
    ∀ ft, ft ∈ files_pushed (emitted budget4 budget5) →
      let sha := FileInfo.sha256 (FileTask.file_info ft) in
      let file_parents := Dispatcher.file_parents st in
      Dispatcher.file_depth 10 file_parents sha = Some (FileTask.depth ft) ∧
      (Dict.get sha file_parents = None → FileTask.depth ft = 0) ∧
      (∀ parents, Dict.get sha file_parents = Some parents →
         ∃ depths,
           Forall2 (λ p d, Dispatcher.file_depth 10 file_parents p = Some d)
                   parents depths ∧
           Dispatcher.list_min depths = Some (FileTask.depth ft - 1)) ∧
      parent_path file_parents sha (Z.to_nat (FileTask.depth ft)) ∧
      (∀ n, parent_path file_parents sha n → FileTask.depth ft ≤ Z.of_nat n) ∧
      0 ≤ FileTask.depth ft < Dispatcher.max_extraction_depth dispatcher1.
Proof.
  assert (Dispatcher.dispatch_submission literal_match dispatcher1 10 task1 budget4
          = Some (tt, budget5)) as Hrun by (vm_compute; reflexivity).
  split; [exact Hrun|]. split; [vm_compute; reflexivity|].
  exact (pending_depth_bound literal_match dispatcher1 10 task1 budget4 budget5 Hrun).
Defined.

(** C10 at work. *)
Lemma missing_roots_finalize_witness :
  (∀ sha, sha ∈ Submission.files submission1 → World.file_store missing0 !! sha = None) ∧
  (∀ sha service, DispatchHash.finished sha service (World.table "S1" missing0) = None) ∧
  NoDup (Submission.files submission1) ∧
  ∃ w' saved,
    Dispatcher.dispatch_submission literal_match dispatcher1 10 task1 missing0
    = Some (tt, w') ∧
    saved_of (emitted missing0 w') = [("S1", saved)] ∧
    files_pushed (emitted missing0 w') = [] ∧
    tasks_pushed (emitted missing0 w') = [] ∧
    Submission.state saved = "completed" ∧
    Submission.max_score saved = 0 ∧
    Submission.results saved = [] ∧
    Submission.errors saved = [] ∧
    Submission.error_count saved = 0 ∧
    Submission.file_count saved = Z.of_nat (length (Submission.files submission1)).
Proof.
  assert (∀ sha, sha ∈ Submission.files submission1 → World.file_store missing0 !! sha = None)
    as Hmissing by (intros sha _; reflexivity).
  assert (∀ sha service, DispatchHash.finished sha service (World.table "S1" missing0) = None)
    as Hfresh by (intros sha service; reflexivity).
  assert (NoDup (Submission.files submission1)) as Hnodup by (apply NoDup_singleton).
  split; [exact Hmissing|]. split; [exact Hfresh|]. split; [exact Hnodup|].
  exact (missing_roots_finalize literal_match dispatcher1 10 task1 missing0
           Hmissing Hfresh Hnodup).
Defined.

(** ** The further properties at work *)

(** X4 at work on the catalog of the two static services. *)
Lemma catalog_categories_witness :
  Scheduler.categories (Scheduler.mk (Scheduler._get_services [sv1; sv2]) ["s1"; "s2"])
    !! "static" = Some ["sv1"; "sv2"] ∧
  NoDup ["sv1"; "sv2"] ∧
  ∀ m, m ∈ ["sv1"; "sv2"] ↔
       ∃ ser, Scheduler._get_services [sv1; sv2] !! m = Some ser
              ∧ Service.category ser = "static".
Proof.
  assert (Scheduler.categories (Scheduler.mk (Scheduler._get_services [sv1; sv2]) ["s1"; "s2"])
            !! "static" = Some ["sv1"; "sv2"]) as Hcat by (vm_compute; reflexivity).
  split; [exact Hcat|].
  exact (catalog_categories [sv1; sv2] ["s1"; "s2"] "static" ["sv1"; "sv2"] Hcat).
Defined.

(** X5 at work: the category [static] and the service [sv1], expanded. *)
Lemma expand_categories_sound_witness :
  Scheduler.expand_categories scheduler2 10 (Some ["static"; "sv1"]) = Some ["sv1"; "sv2"] ∧
  NoDup ["sv1"; "sv2"] ∧
  ∀ n, n ∈ ["sv1"; "sv2"] →
    Scheduler.categories scheduler2 !! n = None ∧
    (n ∈ ["static"; "sv1"] ∨
     ∃ c members, Scheduler.categories scheduler2 !! c = Some members ∧ n ∈ members).
Proof.
  assert (Scheduler.expand_categories scheduler2 10 (Some ["static"; "sv1"])
          = Some ["sv1"; "sv2"]) as Hrun by (vm_compute; reflexivity).
  split; [exact Hrun|].
  exact (expand_categories_sound scheduler2 10 ["static"; "sv1"] ["sv1"; "sv2"] Hrun).
Defined.

(** X6 at work on the same expansion. *)
Lemma expand_categories_complete_witness :
  Scheduler.expand_categories scheduler2 10 (Some ["static"; "sv1"]) = Some ["sv1"; "sv2"] ∧
  (∀ n, n ∈ ["static"; "sv1"] → Scheduler.categories scheduler2 !! n = None →
        n ∈ ["sv1"; "sv2"]) ∧
  (∀ c members n,
     c ∈ ["static"; "sv1"] → Scheduler.categories scheduler2 !! c = Some members →
     String.length c ≠ 1%nat →
     n ∈ members → Scheduler.categories scheduler2 !! n = None → n ∈ ["sv1"; "sv2"]).
Proof.
  assert (Scheduler.expand_categories scheduler2 10 (Some ["static"; "sv1"])
          = Some ["sv1"; "sv2"]) as Hrun by (vm_compute; reflexivity).
  split; [exact Hrun|].
  exact (expand_categories_complete scheduler2 10 ["static"; "sv1"] ["sv1"; "sv2"] Hrun).
Defined.

(** X7 at work: of the categories [a] and [av], only the service of [av] is
    found. *)
Lemma expand_categories_shadow_witness :
  Scheduler.categories scheduler_shadow !! "a" = Some ["x1"] ∧
  Scheduler.categories scheduler_shadow !! "av" = Some ["x2"] ∧
  "a" ∈ Scheduler.chars "av" ∧
  Scheduler.expand_categories scheduler_shadow 10 (Some ["a"; "av"])
  = Some (elements (list_to_set (rev ["x2"]) : gset string)).
Proof.
  assert (Scheduler.categories scheduler_shadow !! "a" = Some ["x1"]) as Ha
    by (vm_compute; reflexivity).
  assert (Scheduler.categories scheduler_shadow !! "av" = Some ["x2"]) as Hav
    by (vm_compute; reflexivity).
  assert ("a" ∈ Scheduler.chars "av") as Hchar by (simpl; by left).
  split; [exact Ha|]. split; [exact Hav|]. split; [exact Hchar|].
  apply (expand_categories_shadow scheduler_shadow 10 "a" "av" ["x1"] ["x2"] Ha Hav Hchar).
  - intros m Hm. apply list_elem_of_singleton in Hm. subst m. vm_compute. reflexivity.
  - simpl. lia.
Defined.

(** X8 at work: the category [loop] holds the service [loop]. *)
Lemma expand_categories_diverges_witness :
  Scheduler.categories scheduler_loop !! "loop" = Some ["loop"] ∧
  String.length "loop" ≠ 1%nat ∧
  Scheduler.expand_categories scheduler_loop 1000 (Some ["loop"]) = None.
Proof.
  assert (Scheduler.categories scheduler_loop !! "loop" = Some ["loop"]) as Hcat
    by (vm_compute; reflexivity).
  assert (String.length "loop" ≠ 1%nat) as Hlen by (simpl; lia).
  split; [exact Hcat|]. split; [exact Hlen|].
  apply (expand_categories_diverges scheduler_loop 1000 ["loop"] "loop" ["loop"] Hcat);
    [by left|exact Hlen|by left].
Defined.

(** X9 at work on the two-stage catalog. *)
Lemma build_schedule_stages_witness :
  Scheduler.build_schedule literal_match scheduler2 10 submission1 "text"
  = Some [[("sv1", sv1)]; [("sv2", sv2)]] ∧
  length [[("sv1", sv1)]; [("sv2", sv2)]] = length (Scheduler.stages scheduler2) ∧
  Forall (λ stage, NoDup (Dict.keys stage)) [[("sv1", sv1)]; [("sv2", sv2)]] ∧
  (∀ i stage name service,
     [[("sv1", sv1)]; [("sv2", sv2)]] !! i = Some stage → (name, service) ∈ stage →
     Scheduler.services scheduler2 !! name = Some service ∧
     Scheduler.stages scheduler2 !! i = Some (Service.stage service)) ∧
  (∀ i j stage stage' name,
     [[("sv1", sv1)]; [("sv2", sv2)]] !! i = Some stage →
     [[("sv1", sv1)]; [("sv2", sv2)]] !! j = Some stage' →
     name ∈ Dict.keys stage → name ∈ Dict.keys stage' → i = j).
Proof.
  assert (Scheduler.build_schedule literal_match scheduler2 10 submission1 "text"
          = Some [[("sv1", sv1)]; [("sv2", sv2)]]) as Hrun by (vm_compute; reflexivity).
  split; [exact Hrun|].
  exact (build_schedule_stages literal_match scheduler2 10 submission1 "text" _ Hrun).
Defined.

(** X10 at work: the stage [s9] of the system service [sys] is not
    configured. *)
Lemma build_schedule_unconfigured_stage_witness :
  Scheduler.services scheduler_sys !! "sys" = Some sv_sys ∧
  Service.category sv_sys = Scheduler.system_category ∧
  accepted literal_match sv_sys "text" ∧
  (Service.stage sv_sys ∉ Scheduler.stages scheduler_sys) ∧
  Scheduler.build_schedule literal_match scheduler_sys 10 submission1 "text" = None.
Proof.
  assert (Scheduler.services scheduler_sys !! "sys" = Some sv_sys) as Hsv
    by (vm_compute; reflexivity).
  assert (Service.category sv_sys = Scheduler.system_category) as Hcat by reflexivity.
  assert (accepted literal_match sv_sys "text") as Ha by (left; reflexivity).
  assert (¬ rejected literal_match sv_sys "text") as Hr.
  { intros [Hne _]. by apply Hne. }
  assert (Service.stage sv_sys ∉ Scheduler.stages scheduler_sys) as Hstage
    by (simpl; intros Hin; apply list_elem_of_singleton in Hin; discriminate).
  split; [exact Hsv|]. split; [exact Hcat|]. split; [exact Ha|]. split; [exact Hstage|].
  exact (build_schedule_unconfigured_stage literal_match scheduler_sys 10 submission1 "text"
           "sys" sv_sys Hsv Hcat Ha Hr Hstage).
Defined.

Lemma scheduler2_services name service :
  Scheduler.services scheduler2 !! name = Some service → service = sv1 ∨ service = sv2.
Proof.
  unfold scheduler2. simpl. intros H.
  apply lookup_insert_Some in H as [[_ <-]|[_ H]]; [by left|].
  apply lookup_insert_Some in H as [[_ <-]|[_ H]]; [by right|].
  by rewrite lookup_empty in H.
Qed.

(** X11 at work: the category [static] and the service [sv1], expanded over
    the two-stage catalog. *)
Lemma expand_categories_returns_witness :
  names_plain scheduler2 ∧ categories_long scheduler2 ∧
  (expand_cost (Scheduler.categories scheduler2) ["static"; "sv1"] ≤ 10)%nat ∧
  ∃ found,
    Scheduler.expand_categories scheduler2 10 (Some ["static"; "sv1"]) = Some found ∧
    found ≡ₚ ["sv1"; "sv2"] ∧
    ∀ n, n ∈ found ↔ expanded (Scheduler.categories scheduler2) ["static"; "sv1"] n.
Proof.
  assert (names_plain scheduler2) as Hnames.
  { intros name service name' service' H H'.
    destruct (scheduler2_services _ _ H) as [->| ->],
             (scheduler2_services _ _ H') as [->| ->]; discriminate. }
  assert (categories_long scheduler2) as Hlen.
  { intros name service H. destruct (scheduler2_services _ _ H) as [->| ->]; discriminate. }
  assert ((expand_cost (Scheduler.categories scheduler2) ["static"; "sv1"] ≤ 10)%nat) as Hfuel
    by (vm_compute; lia).
  split; [exact Hnames|]. split; [exact Hlen|]. split; [exact Hfuel|].
  destruct (expand_categories_returns scheduler2 10 ["static"; "sv1"] Hnames Hfuel)
    as (found & Hrun & Hexact).
  exists found. split; [exact Hrun|]. split; [|exact (Hexact Hlen)].
  assert (Scheduler.expand_categories scheduler2 10 (Some ["static"; "sv1"])
          = Some ["sv1"; "sv2"]) as Hfound by (vm_compute; reflexivity).
  rewrite Hrun in Hfound. injection Hfound as Hfound. by rewrite Hfound.
Defined.

(** X30 at work: the category [static] is selected and its member [sv2]
    excluded. *)
Lemma build_schedule_candidates_witness :
  names_plain scheduler2 ∧ categories_long scheduler2 ∧
  Scheduler.build_schedule literal_match scheduler2 10 (submission_with ["static"] ["sv2"])
    "text" = Some [[("sv1", sv1)]; []] ∧
  ∀ name,
    scheduled name [[("sv1", sv1)]; []] ↔
    ∃ service, Scheduler.services scheduler2 !! name = Some service ∧
      (((["static"] = [] ∨ expanded (Scheduler.categories scheduler2) ["static"] name)
        ∧ ¬ expanded (Scheduler.categories scheduler2) ["sv2"] name)
       ∨ Service.category service = Scheduler.system_category) ∧
      accepted literal_match service "text" ∧ ¬ rejected literal_match service "text".
Proof.
  assert (names_plain scheduler2) as Hnames.
  { intros name service name' service' H H'.
    destruct (scheduler2_services _ _ H) as [->| ->],
             (scheduler2_services _ _ H') as [->| ->]; discriminate. }
  assert (categories_long scheduler2) as Hlen.
  { intros name service H. destruct (scheduler2_services _ _ H) as [->| ->]; discriminate. }
  assert (Scheduler.build_schedule literal_match scheduler2 10
            (submission_with ["static"] ["sv2"]) "text" = Some [[("sv1", sv1)]; []]) as Hrun
    by (vm_compute; reflexivity).
  split; [exact Hnames|]. split; [exact Hlen|]. split; [exact Hrun|].
  exact (build_schedule_candidates literal_match scheduler2 10
           (submission_with ["static"] ["sv2"]) "text" _ Hnames Hlen Hrun).
Defined.

(** X14 at work on the three finish records: one warning, for the record of
    the bucket [other]. *)
Lemma finalize_submission_notifies_witness :
  DispatchHash.finished "B" "sv1" (World.table "S1" partition0)
    = Some (FinishRecord.mk "other" "kO" 0 false) ∧
  ∃ w',
    Dispatcher.finalize_submission task1 [] None 1 partition0 = Some (tt, w') ∧
    emitted partition0 w'
    = [LogWarning "Unexpected service output bucket" "other/kO";
       SaveSubmission "S1" (finalized task1 [] None 1 partition0);
       DeleteWatcherList "dispatch-watcher-list-S1"; ClearWatch "S1"].
Proof.
  split; [vm_compute; reflexivity|].
  destruct (finalize_submission_notifies task1 [] None 1 partition0)
    as (w' & Hrun & _ & Htrace).
  exists w'. split; [exact Hrun|].
  rewrite Htrace. vm_compute. reflexivity.
Defined.

(** X15 at work: [A] is dispatched after its submission was finalized. *)
Lemma dispatch_file_after_finalize_witness :
  Dispatcher.finalize_submission task1 [] None 1 budget1 = Some (tt, finalized1) ∧
  Dispatcher.dispatch_file literal_match dispatcher1 10 (file_task "A" 0) finalized1
  = Some (tt, World.set_effects
                (World.effects finalized1
                 ++ [LogWarning "Untracked submission is being processed" "S1"])
                finalized1).
Proof.
  assert (Dispatcher.finalize_submission task1 [] None 1 budget1 = Some (tt, finalized1))
    as Hrun by (vm_compute; reflexivity).
  split; [exact Hrun|].
  exact (dispatch_file_after_finalize literal_match dispatcher1 10 task1 [] None 1
           (file_task "A" 0) budget1 finalized1 Hrun eq_refl).
Defined.

(** X16 at work: [sv1], the one service scheduled for [A], has finished with
    a score of 10. *)
Lemma dispatch_file_done_witness :
  World.active_tasks budget3 !! "S1" = Some task1 ∧
  DispatchHash.schedules (World.table "S1" budget3) !! "A" = Some [["sv1"]] ∧
  Dispatcher.dispatch_file literal_match dispatcher1 10 (file_task "A" 0) budget3
  = Some (tt, World.set_effects
                (World.effects budget3
                 ++ file_done_trace dispatcher1 (file_task "A" 0) submission1
                      (tally (score_of "A" (World.table "S1" budget3)) (concat [["sv1"]]))
                      (tally (error_of "A" (World.table "S1" budget3)) (concat [["sv1"]]))
                      (World.now budget3)
                      (DispatchHash.all_finished (World.table "S1" budget3))) budget3) ∧
  tally (score_of "A" (World.table "S1" budget3)) (concat [["sv1"]]) = 10.
Proof.
  assert (World.active_tasks budget3 !! "S1" = Some task1) as Hactive
    by (vm_compute; reflexivity).
  assert (DispatchHash.schedules (World.table "S1" budget3) !! "A" = Some [["sv1"]])
    as Hcached by (vm_compute; reflexivity).
  split; [exact Hactive|]. split; [exact Hcached|]. split; [|vm_compute; reflexivity].
  apply (dispatch_file_done literal_match dispatcher1 10 (file_task "A" 0) task1 [["sv1"]]
           budget3 Hactive Hcached).
  - discriminate.
  - constructor; [|constructor]. constructor; [|constructor].
    exists (FinishRecord.mk "result" "kA" 10 false). vm_compute. reflexivity.
  - constructor; [|constructor]. vm_compute. reflexivity.
Defined.

(** X17 at work on the filtering scenario: [sv1] has finished with
    [drop = true], and [sv2] of the second stage is left out. *)
Lemma dispatch_file_drop_witness :
  World.active_tasks drop3 !! "S1" = Some task1 ∧
  DispatchHash.schedules (World.table "S1" drop3) !! "A" = Some ([] ++ ["sv1"] :: [["sv2"]]) ∧
  existsb (drops submission1 "A" (World.table "S1" drop3)) ["sv1"] = true ∧
  Dispatcher.dispatch_file literal_match dispatcher2 10 (file_task "A" 0) drop3
  = Some (tt, World.set_effects
                (World.effects drop3
                 ++ file_done_trace dispatcher2 (file_task "A" 0) submission1
                      (tally (score_of "A" (World.table "S1" drop3)) (concat ([] ++ [["sv1"]])))
                      (tally (error_of "A" (World.table "S1" drop3)) (concat ([] ++ [["sv1"]])))
                      (World.now drop3)
                      (DispatchHash.all_finished (World.table "S1" drop3))) drop3).
Proof.
  assert (World.active_tasks drop3 !! "S1" = Some task1) as Hactive
    by (vm_compute; reflexivity).
  assert (DispatchHash.schedules (World.table "S1" drop3) !! "A"
          = Some ([] ++ ["sv1"] :: [["sv2"]])) as Hcached by (vm_compute; reflexivity).
  assert (existsb (drops submission1 "A" (World.table "S1" drop3)) ["sv1"] = true) as Hdrops
    by (vm_compute; reflexivity).
  split; [exact Hactive|]. split; [exact Hcached|]. split; [exact Hdrops|].
  apply (dispatch_file_drop literal_match dispatcher2 10 (file_task "A" 0) task1
           [] ["sv1"] [["sv2"]] drop3 Hactive Hcached).
  - constructor.
  - constructor.
  - constructor; [|constructor].
    exists (FinishRecord.mk "result" "kA" 10 true). vm_compute. reflexivity.
  - exact Hdrops.
Defined.

(** X18 at work on the first dispatch of [A]. *)
Lemma dispatch_file_progress_witness :
  World.active_tasks budget1 !! "S1" = Some task1 ∧
  DispatchHash.schedules (World.table "S1" budget1) !! "A" = Some ([] ++ ["sv1"] :: []) ∧
  DispatchHash.finished "A" "sv1" (World.table "S1" budget1) = None ∧
  Service.timeout sv1
    ≤ World.now budget1 - DispatchHash.dispatch_time "A" "sv1" (World.table "S1" budget1) ∧
  ∃ w',
    Dispatcher.dispatch_file literal_match dispatcher1 10 (file_task "A" 0) budget1
      = Some (tt, w') ∧
    PushService (service_queue_name "sv1")
      (ServiceTask.mk "S1" "sv1" (Dispatcher.build_service_config sv1 submission1)
         (FileTask.file_info (file_task "A" 0)) (FileTask.depth (file_task "A" 0))
         (FileTask.max_files (file_task "A" 0)))
      ∈ emitted budget1 w' ∧
    pushes "sv1" (emitted budget1 w') = 1%nat ∧
    DispatchHash.dispatch_time "A" "sv1" (World.table "S1" w') = World.now budget1.
Proof.
  assert (World.active_tasks budget1 !! "S1" = Some task1) as Hactive
    by (vm_compute; reflexivity).
  assert (DispatchHash.schedules (World.table "S1" budget1) !! "A"
          = Some ([] ++ ["sv1"] :: [])) as Hcached by (vm_compute; reflexivity).
  assert (DispatchHash.finished "A" "sv1" (World.table "S1" budget1) = None) as Hnone
    by (vm_compute; reflexivity).
  assert (Scheduler.services (Dispatcher.scheduler dispatcher1) !! "sv1" = Some sv1) as Hsv
    by (vm_compute; reflexivity).
  assert (Service.timeout sv1
          ≤ World.now budget1
            - DispatchHash.dispatch_time "A" "sv1" (World.table "S1" budget1)) as Hdue
    by (vm_compute; discriminate).
  split; [exact Hactive|]. split; [exact Hcached|]. split; [exact Hnone|].
  split; [exact Hdue|].
  apply (dispatch_file_progress literal_match dispatcher1 10 (file_task "A" 0) task1
           [] ["sv1"] [] "sv1" sv1 budget1 Hactive Hcached).
  - constructor.
  - constructor.
  - intros n Hn _. apply list_elem_of_singleton in Hn. subst n. by exists sv1.
  - by left.
  - exact Hnone.
  - exact Hsv.
  - exact Hdue.
Defined.

(** X19 at work: [sv1] and [sv3] share the one stage, and [A] is dispatched
    to both, each through its own queue. *)
Lemma dispatch_file_routing_witness :
  World.active_tasks pair1 !! "S1" = Some task1 ∧
  Dispatcher.dispatch_file literal_match dispatcher_pair 10 (file_task "A" 0) pair1
  = Some (tt, pair2) ∧
  queues_pushed (emitted pair1 pair2) ≡ₚ ["service-queue-sv1"; "service-queue-sv3"] ∧
  (∀ queue t, PushService queue t ∈ emitted pair1 pair2 →
     queue = service_queue_name (ServiceTask.service_name t) ∧
     ∃ service,
       Scheduler.services (Dispatcher.scheduler dispatcher_pair) !! ServiceTask.service_name t
         = Some service ∧
       t = ServiceTask.mk "S1" (ServiceTask.service_name t)
             (Dispatcher.build_service_config service submission1)
             (FileTask.file_info (file_task "A" 0)) (FileTask.depth (file_task "A" 0))
             (FileTask.max_files (file_task "A" 0))) ∧
  NoDup (queues_pushed (emitted pair1 pair2)).
Proof.
  assert (World.active_tasks pair1 !! "S1" = Some task1) as Hactive
    by (vm_compute; reflexivity).
  assert (Dispatcher.dispatch_file literal_match dispatcher_pair 10 (file_task "A" 0) pair1
          = Some (tt, pair2)) as Hrun by (vm_compute; reflexivity).
  split; [exact Hactive|]. split; [exact Hrun|].
  split.
  { assert (queues_pushed (emitted pair1 pair2) = ["service-queue-sv3"; "service-queue-sv1"])
      as -> by (vm_compute; reflexivity).
    apply perm_swap. }
  exact (dispatch_file_routing literal_match dispatcher_pair 10 (file_task "A" 0) task1
           pair1 pair2 Hactive Hrun).
Defined.

(** X20 at work on the first dispatch of [A]. *)
Lemma dispatch_file_never_witness :
  Dispatcher.dispatch_file literal_match dispatcher1 10 (file_task "A" 0) budget1
  = Some (tt, budget2) ∧
  saved_of (emitted budget1 budget2) = [] ∧
  files_pushed (emitted budget1 budget2) = [] ∧
  World.now budget2 = World.now budget1 ∧
  World.file_store budget2 = World.file_store budget1 ∧
  World.result_store budget2 = World.result_store budget1 ∧
  World.watcher_lists budget2 = World.watcher_lists budget1 ∧
  World.active_tasks budget2 = World.active_tasks budget1 ∧
  ∀ sid',
    DispatchHash.finished_rows (World.table sid' budget2)
      = DispatchHash.finished_rows (World.table sid' budget1) ∧
    DispatchHash.files (World.table sid' budget2)
      = DispatchHash.files (World.table sid' budget1).
Proof.
  assert (Dispatcher.dispatch_file literal_match dispatcher1 10 (file_task "A" 0) budget1
          = Some (tt, budget2)) as Hrun by (vm_compute; reflexivity).
  split; [exact Hrun|].
  exact (dispatch_file_never literal_match dispatcher1 10 (file_task "A" 0)
           budget1 budget2 Hrun).
Defined.

(** X21 at work: the first pass pushes [A]; the last pass finalizes. *)
Lemma dispatch_submission_outcome_witness :
  Dispatcher.dispatch_submission literal_match dispatcher1 10 task1 budget0
  = Some (tt, budget1) ∧
  files_pushed (emitted budget0 budget1) = [file_task "A" 0] ∧
  tasks_pushed (emitted budget0 budget1) = [] ∧
  ((files_pushed (emitted budget0 budget1) ≠ [] ∧
    saved_of (emitted budget0 budget1) = [] ∧
    World.active_tasks budget1 = tracked task1 (World.active_tasks budget0))
   ∨
   (files_pushed (emitted budget0 budget1) = [] ∧
    (∃ saved, saved_of (emitted budget0 budget1) = [("S1", saved)]
              ∧ Submission.state saved = "completed") ∧
    World.active_tasks budget1 = delete "S1" (World.active_tasks budget0) ∧
    World.tables budget1 !! "S1" = None)).
Proof.
  assert (Dispatcher.dispatch_submission literal_match dispatcher1 10 task1 budget0
          = Some (tt, budget1)) as Hrun by (vm_compute; reflexivity).
  split; [exact Hrun|]. split; [vm_compute; reflexivity|].
  exact (dispatch_submission_outcome literal_match dispatcher1 10 task1 budget0 budget1 Hrun).
Defined.

(** X22 at work on the first pass of a submission that counts toward the
    quota of [user], and on the first pass of one that does not. *)
Lemma dispatch_submission_refresh_witness :
  Dispatcher.dispatch_submission literal_match dispatcher1 10 task_quota budget0
  = Some (tt, quota1) ∧
  refresh_trace dispatcher1 task_quota (World.now budget0)
  = [TouchWatch "S1" 600 "dispatch-submission"; QuotaAdd "user" "S1" 1000] ∧
  refresh_trace dispatcher1 task1 (World.now budget0)
  = [TouchWatch "S1" 600 "dispatch-submission"] ∧
  (∃ es, emitted budget0 quota1
         = [TouchWatch "S1" 600 "dispatch-submission"; QuotaAdd "user" "S1" 1000] ++ es
         ∧ Forall (λ e, refreshes e = false) es) ∧
  (∃ es, emitted budget0 budget1 = [TouchWatch "S1" 600 "dispatch-submission"] ++ es
         ∧ Forall (λ e, refreshes e = false) es).
Proof.
  assert (Dispatcher.dispatch_submission literal_match dispatcher1 10 task_quota budget0
          = Some (tt, quota1)) as Hquota by (vm_compute; reflexivity).
  assert (Dispatcher.dispatch_submission literal_match dispatcher1 10 task1 budget0
          = Some (tt, budget1)) as Hplain by (vm_compute; reflexivity).
  split; [exact Hquota|].
  split; [vm_compute; reflexivity|]. split; [vm_compute; reflexivity|]. split.
  - exact (dispatch_submission_refresh literal_match dispatcher1 10 task_quota budget0 quota1
             Hquota).
  - exact (dispatch_submission_refresh literal_match dispatcher1 10 task1 budget0 budget1
             Hplain).
Defined.

(** X23 at work on the pass that admits two extracted files. *)
Lemma dispatch_submission_file_tasks_witness :
  Dispatcher.dispatch_submission literal_match dispatcher1 10 task1 budget4
  = Some (tt, budget5) ∧
  files_pushed (emitted budget4 budget5) = [file_task "c5" 1; file_task "c4" 1] ∧
  NoDup ((λ ft, FileInfo.sha256 (FileTask.file_info ft))
           <$> files_pushed (emitted budget4 budget5)) ∧
  ∀ ft, ft ∈ files_pushed (emitted budget4 budget5) →
    task_ok (World.file_store budget4) "S1" 3 ft ∧
    FileInfo.sha256 (FileTask.file_info ft) ∈ DispatchHash.files (World.table "S1" budget5).
Proof.
  assert (Dispatcher.dispatch_submission literal_match dispatcher1 10 task1 budget4
          = Some (tt, budget5)) as Hrun by (vm_compute; reflexivity).
  split; [exact Hrun|]. split; [vm_compute; reflexivity|].
  exact (dispatch_submission_file_tasks literal_match dispatcher1 10 task1 budget4 budget5
           Hrun).
Defined.

(** X24 at work: [A] and [B] are extracted from each other. *)
Lemma file_depth_cycle_witness :
  Dict.get "A" parents_cycle = Some ["B"] ∧
  Dict.get "B" parents_cycle = Some ["A"] ∧
  Dispatcher.file_depth 1000 parents_cycle "A" = None.
Proof.
  split; [reflexivity|]. split; [reflexivity|].
  apply (file_depth_cycle (λ x, x = "A" ∨ x = "B") parents_cycle 1000 "A").
  - intros x [->| ->].
    + exists ["B"], "B". split; [reflexivity|]. split; [by left|by right].
    + exists ["A"], "A". split; [reflexivity|]. split; [by left|by left].
  - by left.
Defined.

(** X25 at work: [B] is extracted from the root [A]. *)
Lemma file_depth_total_witness :
  Dict.get "B" parents_chain = Some ["A"] ∧
  is_Some (Dispatcher.file_depth 5 parents_chain "B").
Proof.
  split; [reflexivity|].
  apply (file_depth_total (λ x, if decide (x = "B") then 1%nat else 0%nat) parents_chain "B" 5).
  - intros sha parents parent Hget Hin. unfold parents_chain in Hget. simpl in Hget.
    destruct (decide (sha = "B")) as [->|Hne]; [|done].
    injection Hget as <-. apply list_elem_of_singleton in Hin. subst parent. simpl. lia.
  - intros sha Hget. unfold parents_chain in Hget. simpl in Hget.
    destruct (decide (sha = "B")); done.
  - simpl. lia.
Defined.

(** X26 at work: with a quota of 3 files and [A] admitted, two of three
    pending files are admitted. *)
Lemma admit_files_budget_witness :
  ∃ admitted w',
    Dispatcher.admit_files "S1" 3
      [("c1", file_task "c1" 1); ("c2", file_task "c2" 1); ("c3", file_task "c3" 1)] budget4
    = Some (admitted, w') ∧
    Dict.keys admitted = ["c1"; "c2"] ∧
    admitted = filter (λ kv, kv.1 ∈ DispatchHash.files (World.table "S1" w'))
                 [("c1", file_task "c1" 1); ("c2", file_task "c2" 1);
                  ("c3", file_task "c3" 1)] ∧
    DispatchHash.files (World.table "S1" w')
    = DispatchHash.files (World.table "S1" budget4) ∪ list_to_set (Dict.keys admitted) ∧
    Z.of_nat (size (DispatchHash.files (World.table "S1" w')))
    ≤ Z.max 3 (Z.of_nat (size (DispatchHash.files (World.table "S1" budget4)))).
Proof.
  eexists _, _.
  assert (Dispatcher.admit_files "S1" 3
            [("c1", file_task "c1" 1); ("c2", file_task "c2" 1); ("c3", file_task "c3" 1)]
            budget4
          = Some ([("c1", file_task "c1" 1); ("c2", file_task "c2" 1)],
                  snd (default ([], budget4)
                         (Dispatcher.admit_files "S1" 3
                            [("c1", file_task "c1" 1); ("c2", file_task "c2" 1);
                             ("c3", file_task "c3" 1)] budget4)))) as Hrun
    by (vm_compute; reflexivity).
  split; [exact Hrun|]. split; [reflexivity|].
  exact (admit_files_budget "S1" 3 _ budget4 _ _ Hrun).
Defined.

(** X27 at work on the filtering scenario: the walk of [A] ends with the
    stage of [sv1]. *)
Lemma walk_schedule_drop_witness :
  Scheduler.services (Dispatcher.scheduler dispatcher2) !! "sv1" = Some sv1 ∧
  Service.timeout sv1
    ≤ World.now drop3 - DispatchHash.dispatch_time "A" "sv1" (World.table "S1" drop3) ∧
  DispatchHash.finished "A" "sv1" (World.table "S1" drop3)
    = Some (FinishRecord.mk "result" "kA" 10 true) ∧
  Dispatcher.walk_schedule dispatcher2 submission1 3 (file_task "A" 0)
    (["sv1"] :: [["sv2"]]) walk0 drop3
  = Dispatcher.walk_schedule dispatcher2 submission1 3 (file_task "A" 0) [["sv1"]] walk0 drop3.
Proof.
  assert (Scheduler.services (Dispatcher.scheduler dispatcher2) !! "sv1" = Some sv1) as Hsv
    by (vm_compute; reflexivity).
  assert (Service.timeout sv1
          ≤ World.now drop3
            - DispatchHash.dispatch_time "A" "sv1" (World.table "S1" drop3)) as Hdue
    by (vm_compute; discriminate).
  assert (DispatchHash.finished "A" "sv1" (World.table "S1" drop3)
          = Some (FinishRecord.mk "result" "kA" 10 true)) as Hrow
    by (vm_compute; reflexivity).
  split; [exact Hsv|]. split; [exact Hdue|]. split; [exact Hrow|].
  apply (walk_schedule_drop dispatcher2 submission1 3 (file_task "A" 0) ["sv1"] [["sv2"]]
           walk0 drop3 "sv1" sv1 (FinishRecord.mk "result" "kA" 10 true));
    [by left|exact Hsv|exact Hdue|exact Hrow|reflexivity|reflexivity|reflexivity].
Defined.

(** X28 at work: the parameters carry the classification 1, the results the
    classifications 2 and 0. *)
Lemma finalize_submission_record_witness :
  ∃ w' saved,
    Dispatcher.finalize_submission task_classified [2%nat; 0%nat] (Some 7) 5 budget1
      = Some (tt, w') ∧
    saved_of (emitted budget1 w') = [("S1", saved)] ∧
    Submission.classification saved = 2%nat ∧
    Submission.file_count saved = 5 ∧
    Submission.max_score saved = 7 ∧
    Submission.times_completed saved = Some 1000.
Proof.
  destruct (finalize_submission_record task_classified [2%nat; 0%nat] (Some 7) 5 budget1)
    as (w' & saved & Hrun & Hsaved & _ & _ & _ & _ & _ & Hall & Hleast & Hcount & Hscore
        & Htime).
  exists w', saved. split; [exact Hrun|]. split; [exact Hsaved|].
  split; [|split; [exact Hcount|split; [exact Hscore|exact Htime]]].
  apply Nat.le_antisymm.
  - apply Hleast; [simpl; lia|].
    intros c Hc. apply elem_of_cons in Hc as [->|Hc]; [lia|].
    apply list_elem_of_singleton in Hc. subst c. lia.
  - apply Hall. by left.
Defined.
